(** * ContextWarV4: a shallow embedding of the round and payout engine

    The contract [src/contracts/ContextWarV4.sol] is embedded function by
    function.  Storage is a record [State]; every external or internal
    function of the contract becomes a Rocq function [State -> Result State].
    A revert is the value [Revert e]: it carries no state, because the EVM
    discards every effect of a reverted call.  [exec] below is the
    transaction-level view (a reverted call leaves the storage as it was).

    - [uint256] values are [N] with Solidity ^0.8 checked arithmetic
      ([uadd], [usub], [umul] revert with [Panic] out of range).
    - A Solidity [mapping] is a total function with default zero, updated
      with stdpp's [<[k:=v]>] on functions.
    - [WordSlot[12] slots] is a list read with [!!] and written with
      [<[i:=x]>].
    - The USDC token and the ETH recipients are external.  Their answers are
      read from [Env]: [usdcPullOk], [usdcPushOk] tell whether SafeERC20's
      [safeTransferFrom] / [safeTransfer] go through (SafeERC20 reverts the
      whole call otherwise), [ethAccepts] is the boolean returned by the
      low-level [call{value: ..}].  Every value movement that went through
      is appended to [ledger].
    - Events are not modelled.  [nonReentrant] is not modelled: external
      calls are atomic here and never call back. *)

From Stdlib Require Import NArith ZArith List Lia Bool String Ascii.
From stdpp Require Import base tactics decidable numbers list functions.

Local Open Scope N_scope.
Local Open Scope bool_scope.

(** ** Errors and the result of a call *)

Inductive Error : Type :=
| NoActiveRound | RoundNotActive | RoundStillActive | RoundAlreadyResolved
| PreviousRoundNotResolved | RoundNotStarted | RoundEnded | InvalidSlot
| BidTooLow | WordTooLong | WordEmpty | WordContainsSpace | SlotCapReached
| NotOracle | AllocationMismatch | RakeTooHigh | SplitTooHigh | EmptyPrizePool
| EmergencyNotReady | NeedMorePlayers | HasMultiplePlayers | NothingToClaim
| InvalidSlotCap
| OwnableUnauthorizedAccount   (* Ownable.onlyOwner *)
| EnforcedPause                (* Pausable.whenNotPaused *)
| ExpectedPause                (* Pausable.whenPaused *)
| SafeERC20FailedOperation     (* SafeERC20.safeTransfer / safeTransferFrom *)
| EthTransferFailed            (* require(ok, "ETH transfer failed") *)
| Panic.                       (* checked arithmetic, array index *)

Inductive Result (A : Type) : Type :=
| Ok (a : A)
| Revert (e : Error).
Arguments Ok {A} a.
Arguments Revert {A} e.

Definition bind {A B} (r : Result A) (k : A -> Result B) : Result B :=
  match r with
  | Ok a => k a
  | Revert e => Revert e
  end.

Notation "'let!' x ':=' r 'in' k" := (bind r (fun x => k))
  (at level 10, x name, r at level 100, k at level 200, only parsing).
Notation "'do!' r 'in' k" := (bind r (fun _ => k))
  (at level 10, r at level 100, k at level 200, only parsing).

(** [if (c) revert e;] *)
Definition revertIf (c : bool) (e : Error) : Result unit :=
  if c then Revert e else Ok tt.

(** ** uint256 with checked arithmetic (Solidity ^0.8) *)

Definition MAX_UINT256 : N := 2 ^ 256 - 1.

Definition uadd (a b : N) : Result N :=
  if a + b <=? MAX_UINT256 then Ok (a + b) else Revert Panic.

Definition usub (a b : N) : Result N :=
  if b <=? a then Ok (a - b) else Revert Panic.

Definition umul (a b : N) : Result N :=
  if a * b <=? MAX_UINT256 then Ok (a * b) else Revert Panic.

(** [for (i...) total += xs[i];] *)
Fixpoint usum_from (acc : N) (xs : list N) : Result N :=
  match xs with
  | [] => Ok acc
  | x :: xs' => let! acc' := uadd acc x in usum_from acc' xs'
  end.

Definition usum (xs : list N) : Result N := usum_from 0 xs.

(** The same sum without the overflow check, for statements. *)
Definition sumN (xs : list N) : N := fold_right N.add 0 xs.

(** ** Constants *)

Definition address : Type := N.

Definition NUM_SLOTS : N := 12.
Definition MAX_WORD_LENGTH : nat := 22.
Definition MAX_RAKE_BPS : N := 2000.
Definition EMERGENCY_TIMEOUT : N := 86400.        (* 24 hours *)
Definition ANTI_SNIPE_WINDOW : N := 60.
Definition ANTI_SNIPE_EXTENSION : N := 60.
Definition MIN_AUTO_START : N := 1000000.

(** ** Storage *)

Record WordSlot : Type := mkWordSlot {
  word : string;
  owner : address;
  highestTotal : N
}.

(** The value of a deleted (or never written) slot. *)
Definition emptySlot : WordSlot := mkWordSlot EmptyString 0 0.

Record Round : Type := mkRound {
  id : N;
  createdAt : N;
  startedAt : N;
  endTime : N;
  prizePool : N;
  ethPrizePool : N;
  resolved : bool
}.

(** Value movements across the contract boundary, oldest first. *)
Inductive Transfer : Type :=
| UsdcIn (from : address) (amount : N)
| UsdcOut (to : address) (amount : N)
| EthIn (from : address) (amount : N)
| EthOut (to : address) (amount : N).

Record State : Type := mkState {
  _owner : address;                                   (* Ownable *)
  _paused : bool;                                     (* Pausable *)
  minBid : N;
  oracleAddress : address;
  roundDuration : N;
  rakeBps : N;
  splitBps : N;
  maxSlotsPerPlayer : N;
  accumulatedRake : N;
  nextPrizePool : N;
  pendingEth : N;
  currentRound : Round;
  slots : list WordSlot;
  cumulativeBids : N -> N -> address -> N;
  totalSpent : N -> address -> N;
  playerSlotCount : N -> address -> N;
  _roundPlayers : N -> list address;
  _isPlayer : N -> address -> bool;
  unclaimedEth : address -> N;
  ledger : list Transfer
}.

(** What the call sees of the outside world. *)
Record Env : Type := mkEnv {
  timestamp : N;                          (* block.timestamp *)
  usdcPullOk : address -> N -> bool;      (* safeTransferFrom(from, this, amount) *)
  usdcPushOk : address -> N -> bool;      (* safeTransfer(to, amount) *)
  ethAccepts : address -> N -> bool       (* to.call{value: amount}("") *)
}.

(** ** Field updates *)

Definition set_paused v (s : State) : State :=
  {| _owner := _owner s; _paused := v; minBid := minBid s; oracleAddress := oracleAddress s;
  roundDuration := roundDuration s; rakeBps := rakeBps s; splitBps := splitBps s;
  maxSlotsPerPlayer := maxSlotsPerPlayer s; accumulatedRake := accumulatedRake s;
  nextPrizePool := nextPrizePool s; pendingEth := pendingEth s; currentRound := currentRound
  s; slots := slots s; cumulativeBids := cumulativeBids s; totalSpent := totalSpent s;
  playerSlotCount := playerSlotCount s; _roundPlayers := _roundPlayers s; _isPlayer :=
  _isPlayer s; unclaimedEth := unclaimedEth s; ledger := ledger s |}.

Definition set_minBid v (s : State) : State :=
  {| _owner := _owner s; _paused := _paused s; minBid := v; oracleAddress := oracleAddress s;
  roundDuration := roundDuration s; rakeBps := rakeBps s; splitBps := splitBps s;
  maxSlotsPerPlayer := maxSlotsPerPlayer s; accumulatedRake := accumulatedRake s;
  nextPrizePool := nextPrizePool s; pendingEth := pendingEth s; currentRound := currentRound
  s; slots := slots s; cumulativeBids := cumulativeBids s; totalSpent := totalSpent s;
  playerSlotCount := playerSlotCount s; _roundPlayers := _roundPlayers s; _isPlayer :=
  _isPlayer s; unclaimedEth := unclaimedEth s; ledger := ledger s |}.

Definition set_oracleAddress v (s : State) : State :=
  {| _owner := _owner s; _paused := _paused s; minBid := minBid s; oracleAddress := v;
  roundDuration := roundDuration s; rakeBps := rakeBps s; splitBps := splitBps s;
  maxSlotsPerPlayer := maxSlotsPerPlayer s; accumulatedRake := accumulatedRake s;
  nextPrizePool := nextPrizePool s; pendingEth := pendingEth s; currentRound := currentRound
  s; slots := slots s; cumulativeBids := cumulativeBids s; totalSpent := totalSpent s;
  playerSlotCount := playerSlotCount s; _roundPlayers := _roundPlayers s; _isPlayer :=
  _isPlayer s; unclaimedEth := unclaimedEth s; ledger := ledger s |}.

Definition set_roundDuration v (s : State) : State :=
  {| _owner := _owner s; _paused := _paused s; minBid := minBid s; oracleAddress :=
  oracleAddress s; roundDuration := v; rakeBps := rakeBps s; splitBps := splitBps s;
  maxSlotsPerPlayer := maxSlotsPerPlayer s; accumulatedRake := accumulatedRake s;
  nextPrizePool := nextPrizePool s; pendingEth := pendingEth s; currentRound := currentRound
  s; slots := slots s; cumulativeBids := cumulativeBids s; totalSpent := totalSpent s;
  playerSlotCount := playerSlotCount s; _roundPlayers := _roundPlayers s; _isPlayer :=
  _isPlayer s; unclaimedEth := unclaimedEth s; ledger := ledger s |}.

Definition set_rakeBps v (s : State) : State :=
  {| _owner := _owner s; _paused := _paused s; minBid := minBid s; oracleAddress :=
  oracleAddress s; roundDuration := roundDuration s; rakeBps := v; splitBps := splitBps s;
  maxSlotsPerPlayer := maxSlotsPerPlayer s; accumulatedRake := accumulatedRake s;
  nextPrizePool := nextPrizePool s; pendingEth := pendingEth s; currentRound := currentRound
  s; slots := slots s; cumulativeBids := cumulativeBids s; totalSpent := totalSpent s;
  playerSlotCount := playerSlotCount s; _roundPlayers := _roundPlayers s; _isPlayer :=
  _isPlayer s; unclaimedEth := unclaimedEth s; ledger := ledger s |}.

Definition set_splitBps v (s : State) : State :=
  {| _owner := _owner s; _paused := _paused s; minBid := minBid s; oracleAddress :=
  oracleAddress s; roundDuration := roundDuration s; rakeBps := rakeBps s; splitBps := v;
  maxSlotsPerPlayer := maxSlotsPerPlayer s; accumulatedRake := accumulatedRake s;
  nextPrizePool := nextPrizePool s; pendingEth := pendingEth s; currentRound := currentRound
  s; slots := slots s; cumulativeBids := cumulativeBids s; totalSpent := totalSpent s;
  playerSlotCount := playerSlotCount s; _roundPlayers := _roundPlayers s; _isPlayer :=
  _isPlayer s; unclaimedEth := unclaimedEth s; ledger := ledger s |}.

Definition set_maxSlotsPerPlayer v (s : State) : State :=
  {| _owner := _owner s; _paused := _paused s; minBid := minBid s; oracleAddress :=
  oracleAddress s; roundDuration := roundDuration s; rakeBps := rakeBps s; splitBps :=
  splitBps s; maxSlotsPerPlayer := v; accumulatedRake := accumulatedRake s; nextPrizePool :=
  nextPrizePool s; pendingEth := pendingEth s; currentRound := currentRound s; slots := slots
  s; cumulativeBids := cumulativeBids s; totalSpent := totalSpent s; playerSlotCount :=
  playerSlotCount s; _roundPlayers := _roundPlayers s; _isPlayer := _isPlayer s; unclaimedEth
  := unclaimedEth s; ledger := ledger s |}.

Definition set_accumulatedRake v (s : State) : State :=
  {| _owner := _owner s; _paused := _paused s; minBid := minBid s; oracleAddress :=
  oracleAddress s; roundDuration := roundDuration s; rakeBps := rakeBps s; splitBps :=
  splitBps s; maxSlotsPerPlayer := maxSlotsPerPlayer s; accumulatedRake := v; nextPrizePool :=
  nextPrizePool s; pendingEth := pendingEth s; currentRound := currentRound s; slots := slots
  s; cumulativeBids := cumulativeBids s; totalSpent := totalSpent s; playerSlotCount :=
  playerSlotCount s; _roundPlayers := _roundPlayers s; _isPlayer := _isPlayer s; unclaimedEth
  := unclaimedEth s; ledger := ledger s |}.

Definition set_nextPrizePool v (s : State) : State :=
  {| _owner := _owner s; _paused := _paused s; minBid := minBid s; oracleAddress :=
  oracleAddress s; roundDuration := roundDuration s; rakeBps := rakeBps s; splitBps :=
  splitBps s; maxSlotsPerPlayer := maxSlotsPerPlayer s; accumulatedRake := accumulatedRake s;
  nextPrizePool := v; pendingEth := pendingEth s; currentRound := currentRound s; slots :=
  slots s; cumulativeBids := cumulativeBids s; totalSpent := totalSpent s; playerSlotCount :=
  playerSlotCount s; _roundPlayers := _roundPlayers s; _isPlayer := _isPlayer s; unclaimedEth
  := unclaimedEth s; ledger := ledger s |}.

Definition set_pendingEth v (s : State) : State :=
  {| _owner := _owner s; _paused := _paused s; minBid := minBid s; oracleAddress :=
  oracleAddress s; roundDuration := roundDuration s; rakeBps := rakeBps s; splitBps :=
  splitBps s; maxSlotsPerPlayer := maxSlotsPerPlayer s; accumulatedRake := accumulatedRake s;
  nextPrizePool := nextPrizePool s; pendingEth := v; currentRound := currentRound s; slots :=
  slots s; cumulativeBids := cumulativeBids s; totalSpent := totalSpent s; playerSlotCount :=
  playerSlotCount s; _roundPlayers := _roundPlayers s; _isPlayer := _isPlayer s; unclaimedEth
  := unclaimedEth s; ledger := ledger s |}.

Definition set_currentRound v (s : State) : State :=
  {| _owner := _owner s; _paused := _paused s; minBid := minBid s; oracleAddress :=
  oracleAddress s; roundDuration := roundDuration s; rakeBps := rakeBps s; splitBps :=
  splitBps s; maxSlotsPerPlayer := maxSlotsPerPlayer s; accumulatedRake := accumulatedRake s;
  nextPrizePool := nextPrizePool s; pendingEth := pendingEth s; currentRound := v; slots :=
  slots s; cumulativeBids := cumulativeBids s; totalSpent := totalSpent s; playerSlotCount :=
  playerSlotCount s; _roundPlayers := _roundPlayers s; _isPlayer := _isPlayer s; unclaimedEth
  := unclaimedEth s; ledger := ledger s |}.

Definition set_slots v (s : State) : State :=
  {| _owner := _owner s; _paused := _paused s; minBid := minBid s; oracleAddress :=
  oracleAddress s; roundDuration := roundDuration s; rakeBps := rakeBps s; splitBps :=
  splitBps s; maxSlotsPerPlayer := maxSlotsPerPlayer s; accumulatedRake := accumulatedRake s;
  nextPrizePool := nextPrizePool s; pendingEth := pendingEth s; currentRound := currentRound
  s; slots := v; cumulativeBids := cumulativeBids s; totalSpent := totalSpent s;
  playerSlotCount := playerSlotCount s; _roundPlayers := _roundPlayers s; _isPlayer :=
  _isPlayer s; unclaimedEth := unclaimedEth s; ledger := ledger s |}.

Definition set_cumulativeBids v (s : State) : State :=
  {| _owner := _owner s; _paused := _paused s; minBid := minBid s; oracleAddress :=
  oracleAddress s; roundDuration := roundDuration s; rakeBps := rakeBps s; splitBps :=
  splitBps s; maxSlotsPerPlayer := maxSlotsPerPlayer s; accumulatedRake := accumulatedRake s;
  nextPrizePool := nextPrizePool s; pendingEth := pendingEth s; currentRound := currentRound
  s; slots := slots s; cumulativeBids := v; totalSpent := totalSpent s; playerSlotCount :=
  playerSlotCount s; _roundPlayers := _roundPlayers s; _isPlayer := _isPlayer s; unclaimedEth
  := unclaimedEth s; ledger := ledger s |}.

Definition set_totalSpent v (s : State) : State :=
  {| _owner := _owner s; _paused := _paused s; minBid := minBid s; oracleAddress :=
  oracleAddress s; roundDuration := roundDuration s; rakeBps := rakeBps s; splitBps :=
  splitBps s; maxSlotsPerPlayer := maxSlotsPerPlayer s; accumulatedRake := accumulatedRake s;
  nextPrizePool := nextPrizePool s; pendingEth := pendingEth s; currentRound := currentRound
  s; slots := slots s; cumulativeBids := cumulativeBids s; totalSpent := v; playerSlotCount :=
  playerSlotCount s; _roundPlayers := _roundPlayers s; _isPlayer := _isPlayer s; unclaimedEth
  := unclaimedEth s; ledger := ledger s |}.

Definition set_playerSlotCount v (s : State) : State :=
  {| _owner := _owner s; _paused := _paused s; minBid := minBid s; oracleAddress :=
  oracleAddress s; roundDuration := roundDuration s; rakeBps := rakeBps s; splitBps :=
  splitBps s; maxSlotsPerPlayer := maxSlotsPerPlayer s; accumulatedRake := accumulatedRake s;
  nextPrizePool := nextPrizePool s; pendingEth := pendingEth s; currentRound := currentRound
  s; slots := slots s; cumulativeBids := cumulativeBids s; totalSpent := totalSpent s;
  playerSlotCount := v; _roundPlayers := _roundPlayers s; _isPlayer := _isPlayer s;
  unclaimedEth := unclaimedEth s; ledger := ledger s |}.

Definition set_roundPlayers v (s : State) : State :=
  {| _owner := _owner s; _paused := _paused s; minBid := minBid s; oracleAddress :=
  oracleAddress s; roundDuration := roundDuration s; rakeBps := rakeBps s; splitBps :=
  splitBps s; maxSlotsPerPlayer := maxSlotsPerPlayer s; accumulatedRake := accumulatedRake s;
  nextPrizePool := nextPrizePool s; pendingEth := pendingEth s; currentRound := currentRound
  s; slots := slots s; cumulativeBids := cumulativeBids s; totalSpent := totalSpent s;
  playerSlotCount := playerSlotCount s; _roundPlayers := v; _isPlayer := _isPlayer s;
  unclaimedEth := unclaimedEth s; ledger := ledger s |}.

Definition set_isPlayer v (s : State) : State :=
  {| _owner := _owner s; _paused := _paused s; minBid := minBid s; oracleAddress :=
  oracleAddress s; roundDuration := roundDuration s; rakeBps := rakeBps s; splitBps :=
  splitBps s; maxSlotsPerPlayer := maxSlotsPerPlayer s; accumulatedRake := accumulatedRake s;
  nextPrizePool := nextPrizePool s; pendingEth := pendingEth s; currentRound := currentRound
  s; slots := slots s; cumulativeBids := cumulativeBids s; totalSpent := totalSpent s;
  playerSlotCount := playerSlotCount s; _roundPlayers := _roundPlayers s; _isPlayer := v;
  unclaimedEth := unclaimedEth s; ledger := ledger s |}.

Definition set_unclaimedEth v (s : State) : State :=
  {| _owner := _owner s; _paused := _paused s; minBid := minBid s; oracleAddress :=
  oracleAddress s; roundDuration := roundDuration s; rakeBps := rakeBps s; splitBps :=
  splitBps s; maxSlotsPerPlayer := maxSlotsPerPlayer s; accumulatedRake := accumulatedRake s;
  nextPrizePool := nextPrizePool s; pendingEth := pendingEth s; currentRound := currentRound
  s; slots := slots s; cumulativeBids := cumulativeBids s; totalSpent := totalSpent s;
  playerSlotCount := playerSlotCount s; _roundPlayers := _roundPlayers s; _isPlayer :=
  _isPlayer s; unclaimedEth := v; ledger := ledger s |}.

Definition set_ledger v (s : State) : State :=
  {| _owner := _owner s; _paused := _paused s; minBid := minBid s; oracleAddress :=
  oracleAddress s; roundDuration := roundDuration s; rakeBps := rakeBps s; splitBps :=
  splitBps s; maxSlotsPerPlayer := maxSlotsPerPlayer s; accumulatedRake := accumulatedRake s;
  nextPrizePool := nextPrizePool s; pendingEth := pendingEth s; currentRound := currentRound
  s; slots := slots s; cumulativeBids := cumulativeBids s; totalSpent := totalSpent s;
  playerSlotCount := playerSlotCount s; _roundPlayers := _roundPlayers s; _isPlayer :=
  _isPlayer s; unclaimedEth := unclaimedEth s; ledger := v |}.

Definition with_startedAt v (r : Round) : Round :=
  {| id := id r; createdAt := createdAt r; startedAt := v; endTime := endTime r; prizePool :=
  prizePool r; ethPrizePool := ethPrizePool r; resolved := resolved r |}.

Definition with_endTime v (r : Round) : Round :=
  {| id := id r; createdAt := createdAt r; startedAt := startedAt r; endTime := v; prizePool
  := prizePool r; ethPrizePool := ethPrizePool r; resolved := resolved r |}.

Definition with_prizePool v (r : Round) : Round :=
  {| id := id r; createdAt := createdAt r; startedAt := startedAt r; endTime := endTime r;
  prizePool := v; ethPrizePool := ethPrizePool r; resolved := resolved r |}.

Definition with_ethPrizePool v (r : Round) : Round :=
  {| id := id r; createdAt := createdAt r; startedAt := startedAt r; endTime := endTime r;
  prizePool := prizePool r; ethPrizePool := v; resolved := resolved r |}.

Definition with_resolved v (r : Round) : Round :=
  {| id := id r; createdAt := createdAt r; startedAt := startedAt r; endTime := endTime r;
  prizePool := prizePool r; ethPrizePool := ethPrizePool r; resolved := v |}.
(** Writes to the nested mappings. *)
Definition upd2 {V} (m : N -> address -> V) (r : N) (a : address) (v : V)
  : N -> address -> V :=
  <[r := <[a := v]> (m r)]> m.

Definition upd3 (m : N -> N -> address -> N) (r i : N) (a : address) (v : N)
  : N -> N -> address -> N :=
  <[r := <[i := <[a := v]> (m r i)]> (m r)]> m.

Definition log (t : Transfer) (s : State) : State :=
  set_ledger (ledger s ++ [t]) s.

(** ** The value-ledger boundary *)

(** [usdc.safeTransferFrom(from, address(this), amount)] *)
Definition safeTransferFrom (env : Env) (from : address) (amount : N) (s : State)
  : Result State :=
  if usdcPullOk env from amount then Ok (log (UsdcIn from amount) s)
  else Revert SafeERC20FailedOperation.

(** [usdc.safeTransfer(to, amount)] *)
Definition safeTransfer (env : Env) (to : address) (amount : N) (s : State)
  : Result State :=
  if usdcPushOk env to amount then Ok (log (UsdcOut to amount) s)
  else Revert SafeERC20FailedOperation.

(** ** Modifiers *)

Definition onlyOwner (sender : address) (s : State) : Result unit :=
  revertIf (negb (sender =? _owner s)) OwnableUnauthorizedAccount.

Definition onlyOracle (sender : address) (s : State) : Result unit :=
  revertIf (negb (sender =? oracleAddress s)) NotOracle.

Definition whenNotPaused (s : State) : Result unit :=
  revertIf (_paused s) EnforcedPause.

Definition whenPaused (s : State) : Result unit :=
  revertIf (negb (_paused s)) ExpectedPause.

Definition roundOpen (env : Env) (s : State) : Result unit :=
  let r := currentRound s in
  do! revertIf (id r =? 0) NoActiveRound in
  do! revertIf (resolved r) RoundAlreadyResolved in
  revertIf ((0 <? startedAt r) && (endTime r <=? timestamp env)) RoundNotActive.

(** ** Constructor and admin *)

Definition constructor (sender _oracle : address)
    (_minBid _roundDuration _rakeBps _splitBps : N) : Result State :=
  do! revertIf (MAX_RAKE_BPS <? _rakeBps) RakeTooHigh in
  do! revertIf (10000 <? _splitBps) SplitTooHigh in
  Ok {| _owner := sender; _paused := false; minBid := _minBid;
        oracleAddress := _oracle; roundDuration := _roundDuration;
        rakeBps := _rakeBps; splitBps := _splitBps; maxSlotsPerPlayer := 6;
        accumulatedRake := 0; nextPrizePool := 0; pendingEth := 0;
        currentRound := mkRound 0 0 0 0 0 0 false;
        slots := replicate (N.to_nat NUM_SLOTS) emptySlot;
        cumulativeBids := fun _ _ _ => 0; totalSpent := fun _ _ => 0;
        playerSlotCount := fun _ _ => 0; _roundPlayers := fun _ => [];
        _isPlayer := fun _ _ => false; unclaimedEth := fun _ => 0;
        ledger := [] |}.

Definition setOracle (sender _oracle : address) (s : State) : Result State :=
  do! onlyOwner sender s in Ok (set_oracleAddress _oracle s).

Definition setMinBid (sender : address) (_minBid : N) (s : State) : Result State :=
  do! onlyOwner sender s in Ok (set_minBid _minBid s).

Definition setRoundDuration (sender : address) (_duration : N) (s : State)
  : Result State :=
  do! onlyOwner sender s in Ok (set_roundDuration _duration s).

Definition setRake (sender : address) (_rakeBps : N) (s : State) : Result State :=
  do! onlyOwner sender s in
  do! revertIf (MAX_RAKE_BPS <? _rakeBps) RakeTooHigh in
  Ok (set_rakeBps _rakeBps s).

Definition setSplit (sender : address) (_splitBps : N) (s : State) : Result State :=
  do! onlyOwner sender s in
  do! revertIf (10000 <? _splitBps) SplitTooHigh in
  Ok (set_splitBps _splitBps s).

Definition setMaxSlotsPerPlayer (sender : address) (_cap : N) (s : State)
  : Result State :=
  do! onlyOwner sender s in
  do! revertIf ((_cap =? 0) || (NUM_SLOTS <? _cap)) InvalidSlotCap in
  Ok (set_maxSlotsPerPlayer _cap s).

Definition withdrawRake (env : Env) (sender : address) (s : State) : Result State :=
  do! onlyOwner sender s in
  let amount := accumulatedRake s in
  let s := set_accumulatedRake 0 s in
  safeTransfer env (_owner s) amount s.

Definition pause (sender : address) (s : State) : Result State :=
  do! onlyOwner sender s in
  do! whenNotPaused s in
  Ok (set_paused true s).

Definition unpause (sender : address) (s : State) : Result State :=
  do! onlyOwner sender s in
  do! whenPaused s in
  Ok (set_paused false s).

(** ** Round management *)

(** [for (i = 0; i < NUM_SLOTS; i++) delete slots[i];] *)
Definition clearSlots (sl : list WordSlot) : list WordSlot :=
  fold_left (fun acc i => <[i := emptySlot]> acc) (seq 0 (N.to_nat NUM_SLOTS)) sl.

Definition _createRound (env : Env) (usdcPrize ethPrize : N) (s : State)
  : Result State :=
  let s := set_slots (clearSlots (slots s)) s in
  let! newId := uadd (id (currentRound s)) 1 in
  Ok (set_currentRound
        {| id := newId; createdAt := timestamp env; startedAt := 0; endTime := 0;
           prizePool := usdcPrize; ethPrizePool := ethPrize; resolved := false |} s).

Definition startRound (env : Env) (sender : address) (topUp : N) (s : State)
  : Result State :=
  do! whenNotPaused s in
  do! revertIf ((0 <? id (currentRound s)) && negb (resolved (currentRound s)))
        PreviousRoundNotResolved in
  let! s := (if 0 <? topUp then safeTransferFrom env sender topUp s else Ok s) in
  let! prize := uadd (nextPrizePool s) topUp in
  do! revertIf (prize =? 0) EmptyPrizePool in
  let s := set_nextPrizePool 0 s in
  let! s := _createRound env prize (pendingEth s) s in
  Ok (set_pendingEth 0 s).

Definition fund (env : Env) (sender : address) (amount : N) (s : State)
  : Result State :=
  do! whenNotPaused s in
  do! revertIf ((id (currentRound s) =? 0) || resolved (currentRound s))
        NoActiveRound in
  do! revertIf ((0 <? startedAt (currentRound s))
                && (endTime (currentRound s) <=? timestamp env)) RoundEnded in
  let! s := safeTransferFrom env sender amount s in
  let! p := uadd (prizePool (currentRound s)) amount in
  Ok (set_currentRound (with_prizePool p (currentRound s)) s).

(** [receive() external payable]; [value] is [msg.value]. *)
Definition receive (sender : address) (value : N) (s : State) : Result State :=
  let s := log (EthIn sender value) s in
  if (0 <? id (currentRound s)) && negb (resolved (currentRound s)) then
    let! e := uadd (ethPrizePool (currentRound s)) value in
    Ok (set_currentRound (with_ethPrizePool e (currentRound s)) s)
  else
    let! e := uadd (pendingEth s) value in
    Ok (set_pendingEth e s).

(** ** Bidding *)

(** Only the space byte 0x20 is refused. *)
Fixpoint _validateWord (wordBytes : string) : Result unit :=
  match wordBytes with
  | EmptyString => Ok tt
  | String c rest =>
      if Ascii.eqb c " "%char then Revert WordContainsSpace else _validateWord rest
  end.

(** [slots[slotIndex]], with the array bounds check. *)
Definition slotAt (sl : list WordSlot) (slotIndex : N) : Result WordSlot :=
  match sl !! N.to_nat slotIndex with
  | Some w => Ok w
  | None => Revert Panic
  end.

(** Start clock on first bid. *)
Definition startClock (env : Env) (s : State) : Result State :=
  if startedAt (currentRound s) =? 0 then
    let! e := uadd (timestamp env) (roundDuration s) in
    Ok (set_currentRound
          (with_endTime e (with_startedAt (timestamp env) (currentRound s))) s)
  else Ok s.

(** Anti-snipe: extend if bid in last minute. *)
Definition antiSnipe (env : Env) (s : State) : Result State :=
  let! left := usub (endTime (currentRound s)) (timestamp env) in
  if left <=? ANTI_SNIPE_WINDOW then
    let! e := uadd (endTime (currentRound s)) ANTI_SNIPE_EXTENSION in
    Ok (set_currentRound (with_endTime e (currentRound s)) s)
  else Ok s.

(** Update cumulative bids; the new cumulative total is [cumulativeBids]
    read back after the write. *)
Definition updateCumulative (roundId slotIndex : N) (sender : address) (amount : N)
    (s : State) : Result State :=
  let! c := uadd (cumulativeBids s roundId slotIndex sender) amount in
  let s := set_cumulativeBids (upd3 (cumulativeBids s) roundId slotIndex sender c) s in
  let! spent := uadd (totalSpent s roundId sender) amount in
  Ok (set_totalSpent (upd2 (totalSpent s) roundId sender spent) s).

(** Bid split: current pot vs next pot. *)
Definition bidSplit (amount : N) (s : State) : Result State :=
  let! scaled := umul amount (splitBps s) in
  let toCurrentPot := scaled / 10000 in
  let! toNextPot := usub amount toCurrentPot in
  let! pool := uadd (prizePool (currentRound s)) toCurrentPot in
  let s := set_currentRound (with_prizePool pool (currentRound s)) s in
  let! next := uadd (nextPrizePool s) toNextPot in
  Ok (set_nextPrizePool next s).

(** Track player. *)
Definition trackPlayer (roundId : N) (sender : address) (s : State) : State :=
  if negb (_isPlayer s roundId sender) then
    set_roundPlayers
      (<[roundId := _roundPlayers s roundId ++ [sender]]> (_roundPlayers s))
      (set_isPlayer (upd2 (_isPlayer s) roundId sender true) s)
  else s.

(** Slot cap enforcement, entered when the bidder is not the previous owner. *)
Definition enforceCap (roundId : N) (sender previousOwner : address) (s : State)
  : Result State :=
  do! revertIf (maxSlotsPerPlayer s <=? playerSlotCount s roundId sender)
        SlotCapReached in
  let! n := uadd (playerSlotCount s roundId sender) 1 in
  let s := set_playerSlotCount (upd2 (playerSlotCount s) roundId sender n) s in
  if negb (previousOwner =? 0) then
    let! m := usub (playerSlotCount s roundId previousOwner) 1 in
    Ok (set_playerSlotCount (upd2 (playerSlotCount s) roundId previousOwner m) s)
  else Ok s.

(** Update slot if new highest bidder. *)
Definition updateSlot (roundId slotIndex : N) (sender : address) (w : string)
    (s : State) : Result State :=
  let newCumulative := cumulativeBids s roundId slotIndex sender in
  let! slot := slotAt (slots s) slotIndex in
  if highestTotal slot <? newCumulative then
    let previousOwner := owner slot in
    let! s := (if negb (previousOwner =? sender)
               then enforceCap roundId sender previousOwner s
               else Ok s) in
    Ok (set_slots
          (<[N.to_nat slotIndex := mkWordSlot w sender newCumulative]> (slots s)) s)
  else Ok s.

(** The body of [bid]: its commented sections, in the order of the source. *)
Definition bid (env : Env) (sender : address) (slotIndex : N) (w : string)
    (amount : N) (s : State) : Result State :=
  do! roundOpen env s in
  do! whenNotPaused s in
  do! revertIf (NUM_SLOTS <=? slotIndex) InvalidSlot in
  do! revertIf (amount <? minBid s) BidTooLow in
  do! revertIf (Nat.eqb (String.length w) 0) WordEmpty in
  do! revertIf (Nat.ltb MAX_WORD_LENGTH (String.length w)) WordTooLong in
  do! _validateWord w in
  let roundId := id (currentRound s) in
  let! s := startClock env s in
  let! s := antiSnipe env s in
  let! s := updateCumulative roundId slotIndex sender amount s in
  let! s := bidSplit amount s in
  let s := trackPlayer roundId sender s in
  let! s := updateSlot roundId slotIndex sender w s in
  (* Transfer USDC last *)
  safeTransferFrom env sender amount s.

(** ** Resolution *)

Definition _validateResolution (env : Env) (s : State) : Result unit :=
  let r := currentRound s in
  do! revertIf (id r =? 0) NoActiveRound in
  do! revertIf (resolved r) RoundAlreadyResolved in
  do! revertIf (startedAt r =? 0) RoundNotStarted in
  revertIf (timestamp env <? endTime r) RoundStillActive.

Definition _autoAdvance (env : Env) (s : State) : Result State :=
  if MIN_AUTO_START <=? nextPrizePool s then
    let prize := nextPrizePool s in
    let s := set_nextPrizePool 0 s in
    let! s := _createRound env prize (pendingEth s) s in
    Ok (set_pendingEth 0 s)
  else Ok s.

Definition markResolved (s : State) : State :=
  set_currentRound (with_resolved true (currentRound s)) s.

(** [for i < winners.length: if (usdcAmounts[i] > 0) usdc.safeTransfer(winners[i], usdcAmounts[i])] *)
Fixpoint payUsdc (env : Env) (winners : list address) (amounts : list N)
    (s : State) : Result State :=
  match winners, amounts with
  | [], _ => Ok s
  | _ :: _, [] => Revert Panic
  | w :: ws, a :: rest =>
      let! s := (if 0 <? a then safeTransfer env w a s else Ok s) in
      payUsdc env ws rest s
  end.

(** One ETH payout: a failed [call] parks the amount in [unclaimedEth]. *)
Definition payEthOne (env : Env) (w : address) (a : N) (s : State) : Result State :=
  if 0 <? a then
    if ethAccepts env w a then Ok (log (EthOut w a) s)
    else
      let! u := uadd (unclaimedEth s w) a in
      Ok (set_unclaimedEth (<[w := u]> (unclaimedEth s)) s)
  else Ok s.

Fixpoint payEth (env : Env) (winners : list address) (amounts : list N)
    (s : State) : Result State :=
  match winners, amounts with
  | [], _ => Ok s
  | _ :: _, [] => Revert Panic
  | w :: ws, a :: rest =>
      let! s := payEthOne env w a s in
      payEth env ws rest s
  end.

Definition resolveRound (env : Env) (sender : address) (winners : list address)
    (usdcAmounts ethAmounts : list N) (s : State) : Result State :=
  do! onlyOracle sender s in
  do! _validateResolution env s in
  let roundId := id (currentRound s) in
  do! revertIf (Nat.ltb (length (_roundPlayers s roundId)) 2) NeedMorePlayers in
  (* USDC distribution *)
  let! scaled := umul (prizePool (currentRound s)) (rakeBps s) in
  let rake := scaled / 10000 in
  let! distributable := usub (prizePool (currentRound s)) rake in
  let! acc := uadd (accumulatedRake s) rake in
  let s := set_accumulatedRake acc s in
  do! revertIf (negb (Nat.eqb (length winners) (length usdcAmounts)))
        AllocationMismatch in
  let! usdcTotal := usum usdcAmounts in
  do! revertIf (negb (usdcTotal =? distributable)) AllocationMismatch in
  let! s := payUsdc env winners usdcAmounts s in
  (* ETH distribution (if any) *)
  let! s :=
    (if 0 <? ethPrizePool (currentRound s) then
       do! revertIf (negb (Nat.eqb (length ethAmounts) (length winners)))
             AllocationMismatch in
       let! ethTotal := usum ethAmounts in
       do! revertIf (negb (ethTotal =? ethPrizePool (currentRound s)))
             AllocationMismatch in
       payEth env winners ethAmounts s
     else Ok s) in
  (* Finalize + auto-advance *)
  _autoAdvance env (markResolved s).

(** The two branches shared by [refundSoloRound] and [_emergencySoloRefund]:
    one player is refunded, no player carries everything forward. *)
Definition soloCarry (env : Env) (roundId : N) (players : list address)
    (s : State) : Result State :=
  if Nat.eqb (length players) 1 then
    match players !! 0%nat with
    | None => Revert Panic
    | Some player =>
        let spent := totalSpent s roundId player in
        let! sum := uadd (nextPrizePool s) (prizePool (currentRound s)) in
        let! carried := usub sum spent in
        let s := set_nextPrizePool carried s in
        let! e := uadd (pendingEth s) (ethPrizePool (currentRound s)) in
        let s := set_pendingEth e s in
        if 0 <? spent then safeTransfer env player spent s else Ok s
    end
  else
    let! carried := uadd (nextPrizePool s) (prizePool (currentRound s)) in
    let s := set_nextPrizePool carried s in
    let! e := uadd (pendingEth s) (ethPrizePool (currentRound s)) in
    Ok (set_pendingEth e s).

Definition refundSoloRound (env : Env) (s : State) : Result State :=
  do! _validateResolution env s in
  let roundId := id (currentRound s) in
  do! revertIf (Nat.leb 2 (length (_roundPlayers s roundId))) HasMultiplePlayers in
  let! s := soloCarry env roundId (_roundPlayers s roundId) s in
  _autoAdvance env (markResolved s).

Definition _emergencySoloRefund (env : Env) (roundId : N) (players : list address)
    (s : State) : Result State :=
  let! s := soloCarry env roundId players s in
  _autoAdvance env (markResolved s).

(** The allocation loop of [emergencyResolve], over the players' spends:
    returns (usdcAllocs, ethAllocs, usdcDistributed, ethDistributed). *)
Fixpoint proportional (totalBids distributable ethPool : N) (spends : list N)
    (usdcDistributed ethDistributed : N) : Result (list N * list N * N * N) :=
  match spends with
  | [] => Ok ([], [], usdcDistributed, ethDistributed)
  | sp :: rest =>
      let! ua := (if 0 <? totalBids
                  then let! m := umul distributable sp in Ok (m / totalBids)
                  else Ok 0) in
      let! ea := (if 0 <? totalBids
                  then let! m := umul ethPool sp in Ok (m / totalBids)
                  else Ok 0) in
      let! ud := uadd usdcDistributed ua in
      let! ed := uadd ethDistributed ea in
      let! r := proportional totalBids distributable ethPool rest ud ed in
      let '(us, es, ud', ed') := r in
      Ok (ua :: us, ea :: es, ud', ed')
  end.

(** [allocs[i] += dust] *)
Definition addAt (allocs : list N) (i : nat) (dust : N) : Result (list N) :=
  match allocs !! i with
  | None => Revert Panic
  | Some x => let! y := uadd x dust in Ok (<[i := y]> allocs)
  end.

(** The transfer loop of [emergencyResolve]: USDC then ETH for each winner. *)
Fixpoint payBoth (env : Env) (winners : list address) (usdcAllocs ethAllocs : list N)
    (s : State) : Result State :=
  match winners, usdcAllocs, ethAllocs with
  | [], _, _ => Ok s
  | w :: ws, u :: us, e :: es =>
      let! s := (if 0 <? u then safeTransfer env w u s else Ok s) in
      let! s := payEthOne env w e s in
      payBoth env ws us es s
  | _ :: _, _, _ => Revert Panic
  end.

Definition emergencyResolve (env : Env) (sender : address) (s : State)
  : Result State :=
  do! onlyOwner sender s in
  do! _validateResolution env s in
  let! ready := uadd (endTime (currentRound s)) EMERGENCY_TIMEOUT in
  do! revertIf (timestamp env <? ready) EmergencyNotReady in
  let roundId := id (currentRound s) in
  let players := _roundPlayers s roundId in
  if Nat.ltb (length players) 2 then _emergencySoloRefund env roundId players s
  else
    let! totalBids := usum (map (totalSpent s roundId) players) in
    (* USDC proportional distribution *)
    let! scaled := umul (prizePool (currentRound s)) (rakeBps s) in
    let rake := scaled / 10000 in
    let! distributable := usub (prizePool (currentRound s)) rake in
    let! acc := uadd (accumulatedRake s) rake in
    let s := set_accumulatedRake acc s in
    let! r := proportional totalBids distributable (ethPrizePool (currentRound s))
                (map (totalSpent s roundId) players) 0 0 in
    let '(usdcAllocs, ethAllocs, usdcDistributed, ethDistributed) := r in
    (* Rounding dust to last player *)
    let! usdcAllocs :=
      (if (usdcDistributed <? distributable) && Nat.ltb 0 (length players)
       then addAt usdcAllocs (length players - 1) (distributable - usdcDistributed)
       else Ok usdcAllocs) in
    let! ethAllocs :=
      (if (ethDistributed <? ethPrizePool (currentRound s)) && Nat.ltb 0 (length players)
       then addAt ethAllocs (length players - 1)
              (ethPrizePool (currentRound s) - ethDistributed)
       else Ok ethAllocs) in
    (* Transfer *)
    let! s := payBoth env players usdcAllocs ethAllocs s in
    _autoAdvance env (markResolved s).

Definition claimEth (env : Env) (sender : address) (s : State) : Result State :=
  let amount := unclaimedEth s sender in
  do! revertIf (amount =? 0) NothingToClaim in
  let s := set_unclaimedEth (<[sender := 0]> (unclaimedEth s)) s in
  if ethAccepts env sender amount then Ok (log (EthOut sender amount) s)
  else Revert EthTransferFailed.

(** ** Transactions *)

Inductive Op : Type :=
| StartRound (topUp : N)
| Fund (amount : N)
| Receive (value : N)
| Bid (slotIndex : N) (w : string) (amount : N)
| ResolveRound (winners : list address) (usdcAmounts ethAmounts : list N)
| RefundSoloRound
| EmergencyResolve
| ClaimEth
| SetOracle (_oracle : address)
| SetMinBid (_minBid : N)
| SetRoundDuration (_duration : N)
| SetRake (_rakeBps : N)
| SetSplit (_splitBps : N)
| SetMaxSlotsPerPlayer (_cap : N)
| WithdrawRake
| Pause
| Unpause.

Record Call : Type := mkCall {
  env : Env;
  sender : address;     (* msg.sender *)
  op : Op
}.

Definition step (c : Call) (s : State) : Result State :=
  match op c with
  | StartRound topUp => startRound (env c) (sender c) topUp s
  | Fund amount => fund (env c) (sender c) amount s
  | Receive value => receive (sender c) value s
  | Bid slotIndex w amount => bid (env c) (sender c) slotIndex w amount s
  | ResolveRound winners usdcAmounts ethAmounts =>
      resolveRound (env c) (sender c) winners usdcAmounts ethAmounts s
  | RefundSoloRound => refundSoloRound (env c) s
  | EmergencyResolve => emergencyResolve (env c) (sender c) s
  | ClaimEth => claimEth (env c) (sender c) s
  | SetOracle a => setOracle (sender c) a s
  | SetMinBid v => setMinBid (sender c) v s
  | SetRoundDuration v => setRoundDuration (sender c) v s
  | SetRake v => setRake (sender c) v s
  | SetSplit v => setSplit (sender c) v s
  | SetMaxSlotsPerPlayer v => setMaxSlotsPerPlayer (sender c) v s
  | WithdrawRake => withdrawRake (env c) (sender c) s
  | Pause => pause (sender c) s
  | Unpause => unpause (sender c) s
  end.

(** A reverted call leaves the storage untouched. *)
Definition exec (c : Call) (s : State) : State :=
  match step c s with
  | Ok s' => s'
  | Revert _ => s
  end.

Definition execs (cs : list Call) (s : State) : State :=
  fold_left (fun st c => exec c st) cs s.

(** ** Observations used in the statements *)

(** [slots[i]] as a value (the empty slot outside the array). *)
Definition slotIn (sl : list WordSlot) (i : N) : WordSlot :=
  default emptySlot (sl !! N.to_nat i).

Definition slotOf (s : State) (i : N) : WordSlot := slotIn (slots s) i.

(** The share of a bid that goes to the current pot. *)
Definition toCurrentPot (amount : N) (s : State) : N := amount * splitBps s / 10000.

(** The slot counters after a change of owner to [sender] from [prev]. *)
Definition capUpdate (psc : N -> address -> N) (roundId : N) (sender prev : address)
  : N -> address -> N :=
  let psc1 := upd2 psc roundId sender (psc roundId sender + 1) in
  if prev =? 0 then psc1 else upd2 psc1 roundId prev (psc1 roundId prev - 1).

(** The checks [bid] makes before it touches the storage. *)
Definition bidChecks (env : Env) (slotIndex : N) (w : string) (amount : N)
    (s : State) : Result unit :=
  do! roundOpen env s in
  do! whenNotPaused s in
  do! revertIf (NUM_SLOTS <=? slotIndex) InvalidSlot in
  do! revertIf (amount <? minBid s) BidTooLow in
  do! revertIf (Nat.eqb (String.length w) 0) WordEmpty in
  do! revertIf (Nat.ltb MAX_WORD_LENGTH (String.length w)) WordTooLong in
  _validateWord w.

(** The storage a successful [bid] leaves, written without the guards: the
    round after the clock start, the anti-snipe extension and the split, the
    player list, and the slot and counters after the ownership test.
    [bid_state] proves that a successful [bid] returns exactly [bidState]. *)
Definition clockStarted (env : Env) (s : State) : Round :=
  if startedAt (currentRound s) =? 0
  then with_endTime (timestamp env + roundDuration s)
         (with_startedAt (timestamp env) (currentRound s))
  else currentRound s.

Definition extended (env : Env) (r : Round) : N :=
  if endTime r - timestamp env <=? ANTI_SNIPE_WINDOW
  then endTime r + ANTI_SNIPE_EXTENSION
  else endTime r.

Definition bidRound (env : Env) (amount : N) (s : State) : Round :=
  let r1 := clockStarted env s in
  with_prizePool (prizePool r1 + toCurrentPot amount s)
    (with_endTime (extended env r1) r1).

Definition playersAfter (roundId : N) (sender : address) (s : State)
  : N -> list address :=
  if _isPlayer s roundId sender then _roundPlayers s
  else <[roundId := _roundPlayers s roundId ++ [sender]]> (_roundPlayers s).

Definition isPlayerAfter (roundId : N) (sender : address) (s : State)
  : N -> address -> bool :=
  if _isPlayer s roundId sender then _isPlayer s
  else upd2 (_isPlayer s) roundId sender true.

Definition bidSlots (sender : address) (slotIndex : N) (w : string) (c : N)
    (sl : list WordSlot) : list WordSlot :=
  if highestTotal (slotIn sl slotIndex) <? c
  then <[N.to_nat slotIndex := mkWordSlot w sender c]> sl
  else sl.

Definition bidCounts (roundId : N) (sender : address) (slotIndex : N) (c : N)
    (sl : list WordSlot) (psc : N -> address -> N) : N -> address -> N :=
  if (highestTotal (slotIn sl slotIndex) <? c)
     && negb (owner (slotIn sl slotIndex) =? sender)
  then capUpdate psc roundId sender (owner (slotIn sl slotIndex))
  else psc.

Definition bidState (env : Env) (sender : address) (slotIndex : N) (w : string)
    (amount : N) (s : State) : State :=
  let roundId := id (currentRound s) in
  let c := cumulativeBids s roundId slotIndex sender + amount in
  log (UsdcIn sender amount)
    (set_slots (bidSlots sender slotIndex w c (slots s))
       (set_playerSlotCount
          (bidCounts roundId sender slotIndex c (slots s) (playerSlotCount s))
          (set_roundPlayers (playersAfter roundId sender s)
             (set_isPlayer (isPlayerAfter roundId sender s)
                (set_nextPrizePool
                   (nextPrizePool s + (amount - toCurrentPot amount s))
                   (set_currentRound (bidRound env amount s)
                      (set_totalSpent
                         (upd2 (totalSpent s) roundId sender
                            (totalSpent s roundId sender + amount))
                         (set_cumulativeBids
                            (upd3 (cumulativeBids s) roundId slotIndex sender c)
                            s)))))))).

(** What the payout loops leave behind, as pure functions of the lists they
    walk: the ledger entries of the transfers that went through, and the
    [unclaimedEth] balances after the failed ETH sends were parked. *)
Fixpoint usdcPayouts (winners : list address) (amounts : list N) : list Transfer :=
  match winners, amounts with
  | w :: ws, a :: rest =>
      (if 0 <? a then [UsdcOut w a] else []) ++ usdcPayouts ws rest
  | _, _ => []
  end.

Definition ethPayout (env : Env) (w : address) (a : N) : list Transfer :=
  if (0 <? a) && ethAccepts env w a then [EthOut w a] else [].

Definition parkOne (env : Env) (w : address) (a : N) (u : address -> N)
  : address -> N :=
  if (0 <? a) && negb (ethAccepts env w a) then <[w := u w + a]> u else u.

Fixpoint ethPayouts (env : Env) (winners : list address) (amounts : list N)
  : list Transfer :=
  match winners, amounts with
  | w :: ws, a :: rest => ethPayout env w a ++ ethPayouts env ws rest
  | _, _ => []
  end.

Fixpoint parked (env : Env) (winners : list address) (amounts : list N)
    (u : address -> N) : address -> N :=
  match winners, amounts with
  | w :: ws, a :: rest => parked env ws rest (parkOne env w a u)
  | _, _ => u
  end.

Fixpoint bothPayouts (env : Env) (winners : list address)
    (usdcAllocs ethAllocs : list N) : list Transfer :=
  match winners, usdcAllocs, ethAllocs with
  | w :: ws, u :: us, e :: es =>
      (if 0 <? u then [UsdcOut w u] else []) ++ ethPayout env w e
      ++ bothPayouts env ws us es
  | _, _, _ => []
  end.

(** The amounts of one kind of transfer in a ledger. *)
Definition usdcOutAmount (t : Transfer) : N :=
  match t with UsdcOut _ a => a | _ => 0 end.

Definition ethOutAmount (t : Transfer) : N :=
  match t with EthOut _ a => a | _ => 0 end.

Definition usdcPaid (l : list Transfer) : N := sumN (map usdcOutAmount l).
Definition ethPaid (l : list Transfer) : N := sumN (map ethOutAmount l).

(** USDC sent to one recipient. *)
Definition usdcPaidTo (who : address) (l : list Transfer) : N :=
  sumN (map (fun t => match t with
                      | UsdcOut to a => if to =? who then a else 0
                      | _ => 0
                      end) l).

(** ETH that the payout loops parked because the recipient refused it. *)
Fixpoint ethParked (env : Env) (winners : list address) (amounts : list N) : N :=
  match winners, amounts with
  | w :: ws, a :: rest =>
      (if (0 <? a) && negb (ethAccepts env w a) then a else 0)
      + ethParked env ws rest
  | _, _ => 0
  end.

(** The round a successful [_createRound] installs. *)
Definition freshRound (env : Env) (usdcPrize ethPrize : N) (s : State) : Round :=
  {| id := id (currentRound s) + 1; createdAt := timestamp env; startedAt := 0;
     endTime := 0; prizePool := usdcPrize; ethPrizePool := ethPrize;
     resolved := false |}.

(** The storage after [_autoAdvance] created the next round. *)
Definition advanced (env : Env) (s : State) : State :=
  set_pendingEth 0
    (set_currentRound (freshRound env (nextPrizePool s) (pendingEth s) s)
       (set_slots (clearSlots (slots s)) (set_nextPrizePool 0 s))).

(** The allocations [emergencyResolve] computes from the players' spends:
    one [share] each, then the dust on the last entry. *)
Definition share (totalBids pool spend : N) : N :=
  if 0 <? totalBids then pool * spend / totalBids else 0.

Definition withDust (pool : N) (allocs : list N) : list N :=
  if (sumN allocs <? pool) && Nat.ltb 0 (length allocs)
  then alter (fun x => x + (pool - sumN allocs)) (length allocs - 1)%nat allocs
  else allocs.

Definition emergencyAllocs (totalBids pool : N) (spends : list N) : list N :=
  withDust pool (map (share totalBids pool) spends).

(** Rake and distributable pool of the current round. *)
Definition rakeOf (s : State) : N := prizePool (currentRound s) * rakeBps s / 10000.
Definition distributableOf (s : State) : N := prizePool (currentRound s) - rakeOf s.

(** The players of the current round, and their spends in registration order. *)
Definition players (s : State) : list address := _roundPlayers s (id (currentRound s)).
Definition spends (s : State) : list N :=
  map (totalSpent s (id (currentRound s))) (players s).

(** The storage of a multi-player [emergencyResolve] just before the round
    is marked resolved: rake booked, every allocation sent or parked. *)
Definition emergencyPaid (env : Env) (s : State) : State :=
  let T := sumN (spends s) in
  let usdcAllocs := emergencyAllocs T (distributableOf s) (spends s) in
  let ethAllocs := emergencyAllocs T (ethPrizePool (currentRound s)) (spends s) in
  set_ledger (ledger s ++ bothPayouts env (players s) usdcAllocs ethAllocs)
    (set_unclaimedEth (parked env (players s) ethAllocs (unclaimedEth s))
       (set_accumulatedRake (accumulatedRake s + rakeOf s) s)).

(** The storage of a successful [resolveRound] just before the round is
    marked resolved. *)
Definition resolvePaid (env : Env) (winners : list address)
    (usdcAmounts ethAmounts : list N) (s : State) : State :=
  let withEth := 0 <? ethPrizePool (currentRound s) in
  set_ledger
    (ledger s ++ usdcPayouts winners usdcAmounts
     ++ (if withEth then ethPayouts env winners ethAmounts else []))
    (set_unclaimedEth
       (if withEth then parked env winners ethAmounts (unclaimedEth s)
        else unclaimedEth s)
       (set_accumulatedRake (accumulatedRake s + rakeOf s) s)).

(** The storage after the solo branch ([refundSoloRound] and
    [_emergencySoloRefund]) just before the round is marked resolved. *)
Definition soloRefund (s : State) : list Transfer :=
  match players s with
  | [player] =>
      let spent := totalSpent s (id (currentRound s)) player in
      if 0 <? spent then [UsdcOut player spent] else []
  | _ => []
  end.

Definition soloSpent (s : State) : N :=
  match players s with
  | [player] => totalSpent s (id (currentRound s)) player
  | _ => 0
  end.

Definition soloCarried (s : State) : State :=
  set_ledger (ledger s ++ soloRefund s)
    (set_pendingEth (pendingEth s + ethPrizePool (currentRound s))
       (set_nextPrizePool
          (nextPrizePool s + prizePool (currentRound s) - soloSpent s) s)).

(** The storage after a successful [startRound]. *)
Definition started (env : Env) (sender : address) (topUp : N) (s : State) : State :=
  let s1 := if 0 <? topUp then log (UsdcIn sender topUp) s else s in
  set_pendingEth 0
    (set_currentRound (freshRound env (nextPrizePool s + topUp) (pendingEth s) s)
       (set_slots (clearSlots (slots s)) (set_nextPrizePool 0 s1))).

(** ** Resolution calls in a history *)

Definition isResolution (o : Op) : bool :=
  match o with
  | ResolveRound _ _ _ | RefundSoloRound | EmergencyResolve => true
  | _ => false
  end.

(** The access check in front of a resolution path. *)
Definition authorised (c : Call) (s : State) : Prop :=
  match op c with
  | ResolveRound _ _ _ => sender c = oracleAddress s
  | EmergencyResolve => sender c = _owner s
  | _ => True
  end.

Definition isOk {A} (r : Result A) : bool :=
  match r with Ok _ => true | Revert _ => false end.

(** How many resolution calls went through on round [r] while the calls
    [cs] ran from [s]. *)
Fixpoint resolutionsOf (r : N) (cs : list Call) (s : State) : nat :=
  match cs with
  | [] => 0
  | c :: rest =>
      ((if isResolution (op c) && (id (currentRound s) =? r)%N && isOk (step c s)
        then 1 else 0)
       + resolutionsOf r rest (exec c s))%nat
  end.

(** Round [r] is over in [s]: resolved, or already behind the current round. *)
Definition over (r : N) (s : State) : Prop :=
  r < id (currentRound s)
  \/ (id (currentRound s) = r /\ resolved (currentRound s) = true).

(** ** Slot ownership *)

(** Number of slots in [sl] whose owner is [p]. *)
Fixpoint ownedIn (p : address) (sl : list WordSlot) : N :=
  match sl with
  | [] => 0
  | w :: rest => (if owner w =? p then 1 else 0) + ownedIn p rest
  end.

Definition ownedSlots (s : State) (p : address) : N := ownedIn p (slots s).

(** The slot bookkeeping is consistent: twelve slots, [playerSlotCount] of
    the current round counts the slots a participant owns, and the counters
    of rounds to come are still zero. *)
Definition SlotInv (s : State) : Prop :=
  length (slots s) = N.to_nat NUM_SLOTS
  /\ (forall p, p <> 0 -> playerSlotCount s (id (currentRound s)) p = ownedSlots s p)
  /\ (forall r p, id (currentRound s) < r -> playerSlotCount s r p = 0).

(** No participant owns more slots than the cap. *)
Definition CapOk (s : State) : Prop :=
  forall p, p <> 0 -> ownedSlots s p <= maxSlotsPerPlayer s.

(** [bid] up to, and without, the slot update. *)
Definition bidPrefix (env : Env) (who : address) (slotIndex : N) (w : string)
    (amount : N) (s : State) : Result State :=
  do! bidChecks env slotIndex w amount s in
  let roundId := id (currentRound s) in
  let! s := startClock env s in
  let! s := antiSnipe env s in
  let! s := updateCumulative roundId slotIndex who amount s in
  let! s := bidSplit amount s in
  Ok (trackPlayer roundId who s).

(** ** The books of a round *)

(** The player list of the current round has no duplicates and agrees with
    [_isPlayer]; who is not a player has spent nothing; the mappings of
    rounds to come are untouched. *)
Definition Books (s : State) : Prop :=
  let r := id (currentRound s) in
  List.NoDup (players s)
  /\ (forall p, _isPlayer s r p = true <-> In p (players s))
  /\ (forall p, _isPlayer s r p = false -> totalSpent s r p = 0)
  /\ (forall r', r < r' ->
        _roundPlayers s r' = []
        /\ forall p, _isPlayer s r' p = false /\ totalSpent s r' p = 0).

(** The storage right after a round was created: nobody has played, and
    the next-round pool was just emptied into the round. *)
Definition created (s0 : State) : Prop :=
  Books s0 /\ players s0 = [] /\ nextPrizePool s0 = 0
  /\ resolved (currentRound s0) = false.

(** What a call adds to the round by direct funding. *)
Definition fundedBy (c : Call) : N :=
  match op c with Fund amount => amount | _ => 0 end.

(** [InRound s0 F s]: [s] is reached from [s0] by successful calls that stay
    in the round of [s0] and leave it unresolved; [F] is the total of the
    [fund] calls among them. *)
Inductive InRound (s0 : State) : N -> State -> Prop :=
| InRound_start : InRound s0 0 s0
| InRound_step F s c s' :
    InRound s0 F s ->
    step c s = Ok s' ->
    id (currentRound s') = id (currentRound s0) ->
    resolved (currentRound s') = false ->
    InRound s0 (F + fundedBy c) s'.

(** ** Concrete actors and states for the worked examples *)

Module Scenario.
Definition deployer : address := 1.
Definition oracle : address := 2.
Definition alice : address := 10.
Definition bob : address := 11.
Definition charlie : address := 12.

(** An outside world in which every transfer goes through. *)
Definition at_ (t : N) : Env :=
  mkEnv t (fun _ _ => true) (fun _ _ => true) (fun _ _ => true).

Definition call (t : N) (who : address) (o : Op) : Call := mkCall (at_ t) who o.

(** Storage before the constructor ran. *)
Definition blank : State :=
  {| _owner := 0; _paused := false; minBid := 0; oracleAddress := 0;
     roundDuration := 0; rakeBps := 0; splitBps := 0; maxSlotsPerPlayer := 0;
     accumulatedRake := 0; nextPrizePool := 0; pendingEth := 0;
     currentRound := mkRound 0 0 0 0 0 0 false;
     slots := replicate (N.to_nat NUM_SLOTS) emptySlot;
     cumulativeBids := fun _ _ _ => 0; totalSpent := fun _ _ => 0;
     playerSlotCount := fun _ _ => 0; _roundPlayers := fun _ => [];
     _isPlayer := fun _ _ => false; unclaimedEth := fun _ => 0; ledger := [] |}.

Definition deploy (_minBid _roundDuration _rakeBps _splitBps : N) : State :=
  match constructor deployer oracle _minBid _roundDuration _rakeBps _splitBps with
  | Ok s => s
  | Revert _ => blank
  end.

(** minBid 1, one-hour rounds, no rake, 50/50 split; round 1 seeded
    with 100 at time 1000. *)
Definition seeded : State :=
  exec (call 1000 deployer (StartRound 100)) (deploy 1 3600 0 5000).
(** Alice spends 3 and Bob 1 in round 1; the pool is then 101. *)
Definition threeToOne : State :=
  execs [call 1001 alice (Bid 0 "a" 3); call 1002 bob (Bid 1 "b" 1)] seeded.
(** Round 1 after its timer ran out, with one player and with two. *)
Definition onePlayer : State := exec (call 1001 alice (Bid 0 "a" 10)) seeded.
(** Alice takes slots 0 and 1 in round 1, then the owner lowers the cap
    to 1. *)
Definition twoSlots : State :=
  execs [call 1001 alice (Bid 0 "a" 1); call 1002 alice (Bid 1 "b" 1)] seeded.

Definition capLowered : State :=
  exec (call 1003 deployer (SetMaxSlotsPerPlayer 1)) twoSlots.
(** Alice holds slots 0 to 5, the default cap of 6. *)
Definition sixSlots : State :=
  execs [call 1001 alice (Bid 0 "a" 1); call 1002 alice (Bid 1 "b" 1);
         call 1003 alice (Bid 2 "c" 1); call 1004 alice (Bid 3 "d" 1);
         call 1005 alice (Bid 4 "e" 1); call 1006 alice (Bid 5 "f" 1)] seeded.
(** Round 1 seeded with 100: Alice bids 10, Bob funds 7, nobody else plays. *)
Definition soloFunded : State :=
  execs [call 1001 alice (Bid 0 "a" 10); call 1002 bob (Fund 7)] seeded.
End Scenario.


(** * The rest of the contract: views, and what holds in every reachable storage *)

(** ** View functions *)

(** [getBuffer]: the twelve words, slot by slot. *)
Definition getBuffer (s : State) : list string :=
  map (fun i => word (slotOf s (N.of_nat i))) (seq 0 (N.to_nat NUM_SLOTS)).

(** The loop of [getBufferAsText] over the words: a non-empty word is
    appended to [result], after a space unless it is the first one. *)
Fixpoint joinLoop (ws : list string) (result : string) (first : bool) : string :=
  match ws with
  | [] => result
  | w :: rest =>
      if Nat.ltb 0 (String.length w)
      then joinLoop rest
             (String.append (if first then result else String.append result " ") w)
             false
      else joinLoop rest result first
  end.

Definition getBufferAsText (s : State) : string :=
  joinLoop (getBuffer s) EmptyString true.

(** [getSlot(index)]: the slot as (word, owner, highestTotal). *)
Definition getSlot (index : N) (s : State) : Result WordSlot :=
  do! revertIf (NUM_SLOTS <=? index) InvalidSlot in
  slotAt (slots s) index.

Definition getSlotOwners (s : State) : list address :=
  map (fun i => owner (slotOf s (N.of_nat i))) (seq 0 (N.to_nat NUM_SLOTS)).

Definition getRoundPlayers (roundId : N) (s : State) : list address :=
  _roundPlayers s roundId.

Definition playerCount (roundId : N) (s : State) : N :=
  N.of_nat (length (_roundPlayers s roundId)).

(** The two flags [getRoundInfo] computes. *)
Definition isPending (s : State) : bool :=
  let r := currentRound s in
  (0 <? id r) && negb (resolved r) && (startedAt r =? 0).

Definition isActive (env : Env) (s : State) : bool :=
  let r := currentRound s in
  (0 <? id r) && negb (resolved r) && (0 <? startedAt r)
  && (timestamp env <? endTime r).

(** [getRoundInfo]: the round struct, then [pending] and [active]. *)
Definition getRoundInfo (env : Env) (s : State) : Round * bool * bool :=
  (currentRound s, isPending s, isActive env s).

(** Words separated by spaces, empty pieces dropped: how a reader of the
    buffer text gets the words back. *)
Fixpoint tokensFrom (cur : string) (text : string) : list string :=
  match text with
  | EmptyString => if Nat.ltb 0 (String.length cur) then [cur] else []
  | String c rest =>
      if Ascii.eqb c " "%char
      then (if Nat.ltb 0 (String.length cur) then [cur] else [])
           ++ tokensFrom EmptyString rest
      else tokensFrom (String.append cur (String c EmptyString)) rest
  end.

Definition tokens (text : string) : list string := tokensFrom EmptyString text.

(** A word [bid] accepts: not empty, at most 22 bytes, no space. *)
Definition validWord (w : string) : Prop :=
  w <> EmptyString
  /\ (String.length w <= MAX_WORD_LENGTH)%nat
  /\ _validateWord w = Ok tt.

(** ** Invariants of the storage *)

(** The bounds the constructor and the setters enforce. *)
Definition ConfigInv (s : State) : Prop :=
  rakeBps s <= MAX_RAKE_BPS
  /\ splitBps s <= 10000
  /\ 1 <= maxSlotsPerPlayer s <= NUM_SLOTS.

(** USDC the contract received, by [safeTransferFrom]. *)
Definition usdcInAmount (t : Transfer) : N :=
  match t with UsdcIn _ a => a | _ => 0 end.

Definition usdcReceived (l : list Transfer) : N := sumN (map usdcInAmount l).

(** USDC the books still promise: the pool of an unresolved round, the
    next-round pool and the rake not yet withdrawn. *)
Definition liabilities (s : State) : N :=
  (if resolved (currentRound s) then 0 else prizePool (currentRound s))
  + nextPrizePool s + accumulatedRake s.

(** Everything received is either paid out or still on the books. *)
Definition Solvent (s : State) : Prop :=
  usdcReceived (ledger s) = usdcPaid (ledger s) + liabilities s
  /\ (id (currentRound s) = 0 ->
      prizePool (currentRound s) = 0 /\ resolved (currentRound s) = false).

(** Sum over the twelve slot indices. *)
Definition sumSlots (f : N -> N) : N :=
  sumN (map (fun i => f (N.of_nat i)) (seq 0 (N.to_nat NUM_SLOTS))).

(** The bid ledger of the current round: nobody's cumulative total on a
    slot exceeds the slot's highestTotal; a slot with highestTotal 0 is
    empty, one with a positive highestTotal holds an accepted word and its
    owner's cumulative total is that highestTotal; a participant's
    totalSpent is the sum of their cumulative totals over the slots; rounds
    to come have no bids yet. *)
Definition BidsInv (s : State) : Prop :=
  let r := id (currentRound s) in
  (forall i p, cumulativeBids s r i p <= highestTotal (slotOf s i))
  /\ (forall i, highestTotal (slotOf s i) = 0 -> slotOf s i = emptySlot)
  /\ (forall i, 0 < highestTotal (slotOf s i) ->
        validWord (word (slotOf s i))
        /\ cumulativeBids s r i (owner (slotOf s i)) = highestTotal (slotOf s i))
  /\ (forall p, totalSpent s r p = sumSlots (fun i => cumulativeBids s r i p))
  /\ (forall i p, NUM_SLOTS <= i -> cumulativeBids s r i p = 0)
  /\ (forall r' i p, r < r' -> cumulativeBids s r' i p = 0 /\ totalSpent s r' p = 0)
  /\ length (slots s) = N.to_nat NUM_SLOTS.

(** Applying a function to the storage a call returns. *)
Definition rmap {A B} (f : A -> B) (r : Result A) : Result B :=
  match r with
  | Ok a => Ok (f a)
  | Revert e => Revert e
  end.

(** The configuration an owner can set. *)
Definition config (s : State) : N * address * N * N * N * N * bool :=
  (minBid s, oracleAddress s, roundDuration s, rakeBps s, splitBps s,
   maxSlotsPerPlayer s, _paused s).

(** The entry points that do not carry [whenNotPaused]. *)
Definition ignoresPause (o : Op) : bool :=
  match o with
  | StartRound _ | Fund _ | Bid _ _ _ | Pause | Unpause => false
  | _ => true
  end.

(** The entry points behind [onlyOwner]. *)
Definition ownerOnly (o : Op) : bool :=
  match o with
  | EmergencyResolve | SetOracle _ | SetMinBid _ | SetRoundDuration _ | SetRake _
  | SetSplit _ | SetMaxSlotsPerPlayer _ | WithdrawRake | Pause | Unpause => true
  | _ => false
  end.


(** * The oracle bot *)

(** The part of [src/oracle/oracle-bot.js] that decides what to send to the
    contract.  BigInt values are integers ([Z]); BigInt division truncates
    ([Z.quot]) and throws on a zero divisor ([None]).  [entries] is
    [Object.entries(allocations)] with every amount already converted by
    [BigInt(amount)]. *)
Module OracleBot.

(** [rakeAmount] and [distributable] of [buildOraclePrompt]; the latter is
    the [prizePoolRaw] handed to [executeAllocation]. *)
Definition rakeAmount (prizePool rake : Z) : Z := Z.quot (prizePool * rake) 10000.
Definition distributable (prizePool rake : Z) : Z :=
  (prizePool - rakeAmount prizePool rake)%Z.









End OracleBot.

(** Sum of integers. *)
Definition sumZ (xs : list Z) : Z := fold_right Z.add 0%Z xs.



(** * ETH held by the contract *)

(** ETH the contract received through [receive]. *)
Definition ethInAmount (t : Transfer) : N :=
  match t with EthIn _ a => a | _ => 0 end.

Definition ethReceived (l : list Transfer) : N := sumN (map ethInAmount l).

(** What the contract holds when ETH reaches it through [receive] only. *)
Definition heldEth (s : State) : N := ethReceived (ledger s) - ethPaid (ledger s).

(** The ETH pool of the round while the round is unresolved. *)
Definition ethLive (s : State) : N :=
  if resolved (currentRound s) then 0 else ethPrizePool (currentRound s).

(** ETH parked in [unclaimedEth] for the addresses [ps]. *)
Definition parkedFor (s : State) (ps : list address) : N :=
  sumN (map (unclaimedEth s) ps).

(** [ps] lists, once each, every address with a parked balance. *)
Definition claimants (s : State) (ps : list address) : Prop :=
  List.NoDup ps /\ forall p, ~ In p ps -> unclaimedEth s p = 0.

(** Every wei received is sent out, or on the books: in [pendingEth], in
    the pool of the unresolved round, or parked for a claimant. *)
Definition EthInv (s : State) : Prop :=
  (exists ps,
     claimants s ps
     /\ ethReceived (ledger s)
        = ethPaid (ledger s) + pendingEth s + ethLive s + parkedFor s ps)
  /\ (id (currentRound s) = 0 -> ethLive s = 0).

(** [rescueEth()]; [balance] is [address(this).balance].  Its two require
    messages are kept apart from the custom errors. *)
Inductive Rescue : Type :=
| Rescued (s : State)
| NothingToRescue               (* require(rescuable > 0, "Nothing to rescue") *)
| RescueReverted (e : Error).

Definition rescueEth (env : Env) (sender : address) (balance : N) (s : State)
  : Rescue :=
  match onlyOwner sender s with
  | Revert e => RescueReverted e
  | Ok _ =>
      match uadd (ethPrizePool (currentRound s)) (pendingEth s) with
      | Revert e => RescueReverted e
      | Ok committed =>
          match usub balance committed with
          | Revert e => RescueReverted e
          | Ok rescuable =>
              if rescuable =? 0 then NothingToRescue
              else if ethAccepts env (_owner s) rescuable
                   then Rescued (log (EthOut (_owner s) rescuable) s)
                   else RescueReverted EthTransferFailed
          end
      end
  end.

(** The books of the round, and the pools cover what its players spent:
    while the round is unresolved, the spends of its players add up to at
    most the pool of the round plus the next-round pool. *)
Definition Funded (s : State) : Prop :=
  Books s
  /\ (resolved (currentRound s) = false ->
      sumN (spends s) <= prizePool (currentRound s) + nextPrizePool s).

(** * Proofs *)

(** ** Inversion of successful calls *)

Lemma bind_Ok {A B} (r : Result A) (k : A -> Result B) (b : B) :
  bind r k = Ok b -> exists a, r = Ok a /\ k a = Ok b.
Proof. destruct r as [a|e]; simpl; intros H; [eauto | discriminate]. Qed.

Lemma revertIf_Ok (c : bool) (e : Error) (u : unit) :
  revertIf c e = Ok u -> c = false.
Proof. destruct c; simpl; [discriminate | reflexivity]. Qed.

Lemma revertIf_false (c : bool) (e : Error) :
  c = false -> revertIf c e = Ok tt.
Proof. intros ->. reflexivity. Qed.

Lemma uadd_Ok (a b c : N) :
  uadd a b = Ok c -> c = a + b /\ a + b <= MAX_UINT256.
Proof.
  unfold uadd. destruct (N.leb_spec (a + b) MAX_UINT256); [|discriminate].
  intros [= <-]. split; [reflexivity | assumption].
Qed.

Lemma usub_Ok (a b c : N) : usub a b = Ok c -> c = a - b /\ b <= a.
Proof.
  unfold usub. destruct (N.leb_spec b a); [|discriminate].
  intros [= <-]. split; [reflexivity | assumption].
Qed.

Lemma umul_Ok (a b c : N) :
  umul a b = Ok c -> c = a * b /\ a * b <= MAX_UINT256.
Proof.
  unfold umul. destruct (N.leb_spec (a * b) MAX_UINT256); [|discriminate].
  intros [= <-]. split; [reflexivity | assumption].
Qed.

Lemma uadd_in_range (a b : N) : a + b <= MAX_UINT256 -> uadd a b = Ok (a + b).
Proof. intros H. unfold uadd. destruct (N.leb_spec (a + b) MAX_UINT256); [reflexivity | lia]. Qed.

Lemma usub_in_range (a b : N) : b <= a -> usub a b = Ok (a - b).
Proof. intros H. unfold usub. destruct (N.leb_spec b a); [reflexivity | lia]. Qed.

Lemma umul_in_range (a b : N) : a * b <= MAX_UINT256 -> umul a b = Ok (a * b).
Proof. intros H. unfold umul. destruct (N.leb_spec (a * b) MAX_UINT256); [reflexivity | lia]. Qed.

(** Peel one layer of a successful monadic computation. *)
Ltac inv_ok1 :=
  match goal with
  | H : bind _ _ = Ok _ |- _ =>
      let a := fresh "v" in
      let Ha := fresh "Hv" in
      apply bind_Ok in H; destruct H as (a & Ha & H)
  | H : revertIf _ _ = Ok _ |- _ => apply revertIf_Ok in H
  | H : uadd _ _ = Ok _ |- _ => apply uadd_Ok in H; destruct H as [? ?]
  | H : usub _ _ = Ok _ |- _ => apply usub_Ok in H; destruct H as [? ?]
  | H : umul _ _ = Ok _ |- _ => apply umul_Ok in H; destruct H as [? ?]
  | H : Ok _ = Ok ?b |- _ => injection H as H; try subst b
  | H : Revert _ = Ok _ |- _ => discriminate H
  end.

Ltac inv_ok := repeat inv_ok1.

(** Turn the boolean tests left by the guards into propositions. *)
Ltac bool_to_prop :=
  repeat match goal with
  | H : (_ =? _) = false |- _ => apply N.eqb_neq in H
  | H : (_ =? _) = true |- _ => apply N.eqb_eq in H
  | H : (_ <=? _) = false |- _ => apply N.leb_gt in H
  | H : (_ <=? _) = true |- _ => apply N.leb_le in H
  | H : (_ <? _) = false |- _ => apply N.ltb_ge in H
  | H : (_ <? _) = true |- _ => apply N.ltb_lt in H
  | H : negb _ = false |- _ => apply negb_false_iff in H
  | H : negb _ = true |- _ => apply negb_true_iff in H
  | H : _ && _ = true |- _ => apply andb_true_iff in H; destruct H
  | H : _ || _ = false |- _ => apply orb_false_iff in H; destruct H
  | u : unit |- _ => destruct u
  end.

(** ** What each section of [bid] does to the storage *)

Lemma set_currentRound_same s : set_currentRound (currentRound s) s = s.
Proof. destruct s; reflexivity. Qed.

Lemma set_playerSlotCount_same s : set_playerSlotCount (playerSlotCount s) s = s.
Proof. destruct s; reflexivity. Qed.

Lemma set_slots_same s : set_slots (slots s) s = s.
Proof. destruct s; reflexivity. Qed.

Lemma with_endTime_same r : with_endTime (endTime r) r = r.
Proof. destruct r; reflexivity. Qed.

Lemma startClock_Ok env s s' :
  startClock env s = Ok s' ->
  s' = set_currentRound (clockStarted env s) s
  /\ (startedAt (currentRound s) = 0 ->
        timestamp env + roundDuration s <= MAX_UINT256).
Proof.
  unfold startClock, clockStarted. intros H.
  destruct (N.eqb_spec (startedAt (currentRound s)) 0) as [E|E]; inv_ok; subst.
  - split; [reflexivity | intros _; assumption].
  - split; [symmetry; apply set_currentRound_same | tauto].
Qed.

Lemma antiSnipe_Ok env s s' :
  antiSnipe env s = Ok s' ->
  timestamp env <= endTime (currentRound s)
  /\ s' = set_currentRound
            (with_endTime (extended env (currentRound s)) (currentRound s)) s.
Proof.
  unfold antiSnipe, extended. intros H. inv_ok. subst. split; [assumption|].
  destruct (endTime (currentRound s) - timestamp env <=? ANTI_SNIPE_WINDOW); inv_ok.
  - subst. reflexivity.
  - subst. rewrite with_endTime_same. symmetry. apply set_currentRound_same.
Qed.

Lemma updateCumulative_Ok roundId slotIndex sender amount s s' :
  updateCumulative roundId slotIndex sender amount s = Ok s' ->
  s' = set_totalSpent
         (upd2 (totalSpent s) roundId sender (totalSpent s roundId sender + amount))
         (set_cumulativeBids
            (upd3 (cumulativeBids s) roundId slotIndex sender
               (cumulativeBids s roundId slotIndex sender + amount)) s)
  /\ cumulativeBids s roundId slotIndex sender + amount <= MAX_UINT256
  /\ totalSpent s roundId sender + amount <= MAX_UINT256.
Proof.
  unfold updateCumulative. intros H. inv_ok. simpl in *. subst. auto.
Qed.

Lemma bidSplit_Ok amount s s' :
  bidSplit amount s = Ok s' ->
  toCurrentPot amount s <= amount
  /\ s' = set_nextPrizePool (nextPrizePool s + (amount - toCurrentPot amount s))
            (set_currentRound
               (with_prizePool (prizePool (currentRound s) + toCurrentPot amount s)
                  (currentRound s)) s).
Proof.
  unfold bidSplit, toCurrentPot. intros H. inv_ok. simpl in *. subst. auto.
Qed.

(** ** Reads after writes on the mappings *)

Lemma upd2_same_round {V} (m : N -> address -> V) r a v :
  upd2 m r a v r = <[a := v]> (m r).
Proof. unfold upd2. apply fn_lookup_insert. Qed.

Lemma upd2_eq {V} (m : N -> address -> V) r a v : upd2 m r a v r a = v.
Proof. rewrite upd2_same_round. apply fn_lookup_insert. Qed.

Lemma upd2_ne {V} (m : N -> address -> V) r a v b :
  a <> b -> upd2 m r a v r b = m r b.
Proof. intros. rewrite upd2_same_round. by apply fn_lookup_insert_ne. Qed.

Lemma upd2_other_round {V} (m : N -> address -> V) r a v r' :
  r <> r' -> upd2 m r a v r' = m r'.
Proof. intros. unfold upd2. by apply fn_lookup_insert_ne. Qed.

Lemma upd3_eq m r i a v : upd3 m r i a v r i a = v.
Proof. unfold upd3. by rewrite !fn_lookup_insert. Qed.

Lemma upd3_ne_addr m r i a v b : a <> b -> upd3 m r i a v r i b = m r i b.
Proof. intros. unfold upd3. by rewrite !fn_lookup_insert, fn_lookup_insert_ne. Qed.

Lemma upd3_ne_slot m r i a v j b : i <> j -> upd3 m r i a v r j b = m r j b.
Proof. intros. unfold upd3. by rewrite fn_lookup_insert, fn_lookup_insert_ne. Qed.

Lemma upd3_other_round m r i a v r' : r <> r' -> upd3 m r i a v r' = m r'.
Proof. intros. unfold upd3. by apply fn_lookup_insert_ne. Qed.

Lemma enforceCap_Ok roundId sender prev s s' :
  enforceCap roundId sender prev s = Ok s' ->
  playerSlotCount s roundId sender < maxSlotsPerPlayer s
  /\ (prev <> 0 -> prev <> sender -> 1 <= playerSlotCount s roundId prev)
  /\ s' = set_playerSlotCount (capUpdate (playerSlotCount s) roundId sender prev) s.
Proof.
  unfold enforceCap, capUpdate. intros H. inv_ok.
  apply N.leb_gt in Hv. split; [assumption|].
  destruct (N.eqb_spec prev 0) as [E|E]; simpl in H.
  - inv_ok. subst. split; [tauto | reflexivity].
  - inv_ok. simpl in *. subst. split; [|reflexivity].
    intros _ Hne.
    match goal with
    | Hge : 1 <= upd2 _ _ _ _ _ _ |- _ =>
        rewrite upd2_same_round, fn_lookup_insert_ne in Hge by congruence; exact Hge
    end.
Qed.

Lemma updateSlot_Ok roundId slotIndex sender w s s' :
  updateSlot roundId slotIndex sender w s = Ok s' ->
  let c := cumulativeBids s roundId slotIndex sender in
  is_Some (slots s !! N.to_nat slotIndex)
  /\ s' = set_slots (bidSlots sender slotIndex w c (slots s))
            (set_playerSlotCount
               (bidCounts roundId sender slotIndex c (slots s) (playerSlotCount s)) s)
  /\ (highestTotal (slotOf s slotIndex) < c ->
      owner (slotOf s slotIndex) <> sender ->
      playerSlotCount s roundId sender < maxSlotsPerPlayer s
      /\ (owner (slotOf s slotIndex) <> 0 ->
          1 <= playerSlotCount s roundId (owner (slotOf s slotIndex)))).
Proof.
  unfold updateSlot, slotAt, bidSlots, bidCounts, slotOf, slotIn. intros H.
  destruct (slots s !! N.to_nat slotIndex) as [slot|] eqn:Hs; simpl in *; [|discriminate].
  split; [eauto|].
  destruct (N.ltb_spec (highestTotal slot) (cumulativeBids s roundId slotIndex sender)).
  - destruct (N.eqb_spec (owner slot) sender) as [E|E]; simpl in *; inv_ok.
    + rewrite set_playerSlotCount_same. split; [reflexivity | tauto].
    + match goal with
      | Hc : enforceCap _ _ _ _ = Ok _ |- _ =>
          apply enforceCap_Ok in Hc; destruct Hc as (Hlt & Hprev & ->)
      end.
      split; [reflexivity|]. intros _ _. split; [assumption|].
      intros Hz. apply Hprev; assumption.
  - inv_ok. simpl.
    rewrite set_playerSlotCount_same, set_slots_same. split; [reflexivity | lia].
Qed.

Lemma trackPlayer_eq roundId sender s :
  trackPlayer roundId sender s
  = set_roundPlayers (playersAfter roundId sender s)
      (set_isPlayer (isPlayerAfter roundId sender s) s).
Proof.
  unfold trackPlayer, playersAfter, isPlayerAfter.
  destruct (_isPlayer s roundId sender); simpl; [destruct s|]; reflexivity.
Qed.

Lemma bid_Ok env sender slotIndex w amount s s' :
  bid env sender slotIndex w amount s = Ok s' ->
  let roundId := id (currentRound s) in
  bidChecks env slotIndex w amount s = Ok tt
  /\ exists s1 s2 s3 s4 s6,
       startClock env s = Ok s1
       /\ antiSnipe env s1 = Ok s2
       /\ updateCumulative roundId slotIndex sender amount s2 = Ok s3
       /\ bidSplit amount s3 = Ok s4
       /\ updateSlot roundId slotIndex sender w (trackPlayer roundId sender s4) = Ok s6
       /\ usdcPullOk env sender amount = true
       /\ s' = log (UsdcIn sender amount) s6.
Proof.
  unfold bid, bidChecks. intros H. simpl.
  repeat (apply bind_Ok in H; destruct H as (? & ?Hc & H)).
  repeat match goal with u : unit |- _ => destruct u end.
  rewrite Hc, Hc0, Hc1, Hc2, Hc3, Hc4, Hc5. simpl. split; [reflexivity|].
  unfold safeTransferFrom in H.
  destruct (usdcPullOk env sender amount) eqn:Hp; [|discriminate]. injection H as <-.
  do 5 eexists. repeat split; eassumption.
Qed.

(** What the checks of [bid] establish. *)
Lemma bidChecks_Ok env slotIndex w amount s :
  bidChecks env slotIndex w amount s = Ok tt ->
  id (currentRound s) <> 0
  /\ resolved (currentRound s) = false
  /\ (startedAt (currentRound s) <> 0 -> timestamp env < endTime (currentRound s))
  /\ _paused s = false
  /\ slotIndex < NUM_SLOTS
  /\ minBid s <= amount.
Proof.
  unfold bidChecks, roundOpen, whenNotPaused. intros H. inv_ok. bool_to_prop.
  repeat split; try assumption.
  intros Hst.
  match goal with
  | Hb : _ && _ = false |- _ => apply andb_false_iff in Hb; destruct Hb; bool_to_prop; lia
  end.
Qed.

(** ** The model on the scenarios of the specification *)

Module ScenarioChecks.
Import Scenario.

(** Prize 100; A bids 10 on slot 0, B bids 20 on slot 0: B owns slot 0 with
    cumulative 20; A rebids 15 (cumulative 25) and reclaims the slot. *)
Example outbid_and_reclaim :
  let s2 := execs [call 1001 alice (Bid 0 "a" 10); call 1002 bob (Bid 0 "b" 20)] seeded in
  let s3 := exec (call 1003 alice (Bid 0 "a2" 15)) s2 in
  owner (slotOf s2 0) = bob /\ highestTotal (slotOf s2 0) = 20
  /\ owner (slotOf s3 0) = alice /\ highestTotal (slotOf s3 0) = 25
  /\ word (slotOf s3 0) = "a2"%string.
Proof. vm_compute. repeat split. Qed.

(** Split 50%, seed 100, a single bid of 7: current pool 103, next pool 4. *)
Example split_of_seven :
  let s1 := exec (call 1001 alice (Bid 0 "w" 7)) seeded in
  prizePool (currentRound s1) = 103 /\ nextPrizePool s1 = 4.
Proof. vm_compute. split; reflexivity. Qed.

(** A word with a space, an empty word and a 23-byte word are refused. *)
Example words_refused :
  step (call 1001 alice (Bid 0 "two words" 7)) seeded = Revert WordContainsSpace
  /\ step (call 1001 alice (Bid 0 "" 7)) seeded = Revert WordEmpty
  /\ step (call 1001 alice (Bid 0 "aaaaaaaaaaaaaaaaaaaaaaa" 7)) seeded
     = Revert WordTooLong
  /\ step (call 1001 alice (Bid 12 "w" 7)) seeded = Revert InvalidSlot
  /\ step (call 1001 alice (Bid 0 "w" 0)) seeded = Revert BidTooLow.
Proof. vm_compute. repeat split. Qed.
End ScenarioChecks.

(** ** The storage after a successful bid *)

Lemma bid_state env sender slotIndex w amount s s' :
  bid env sender slotIndex w amount s = Ok s' ->
  s' = bidState env sender slotIndex w amount s.
Proof.
  intros H. apply bid_Ok in H. simpl in H.
  destruct H as (_ & s1 & s2 & s3 & s4 & s6 & H1 & H2 & H3 & H4 & H6 & _ & ->).
  apply startClock_Ok in H1. destruct H1 as (-> & _).
  apply antiSnipe_Ok in H2. destruct H2 as (_ & ->).
  apply updateCumulative_Ok in H3. destruct H3 as (-> & _).
  apply bidSplit_Ok in H4. destruct H4 as (_ & ->).
  apply updateSlot_Ok in H6. destruct H6 as (_ & -> & _).
  rewrite trackPlayer_eq. unfold bidState, bidRound, toCurrentPot. simpl.
  rewrite upd3_eq. reflexivity.
Qed.
(** ** C7: the anti-snipe extension *)

(** C7, amended.  A successful bid on a round whose clock is already running
    (startedAt > 0) moves endTime forward by exactly 60 when
    endTime - now <= 60 held before the bid, and leaves endTime unchanged
    when endTime - now > 60; nothing in the storage counts the extensions.
    The first bid of a pending round (startedAt = 0, endTime = 0) instead
    starts the clock: startedAt becomes now and endTime becomes
    now + roundDuration, extended by 60 at once when roundDuration <= 60. *)
Theorem bid_endTime env sender slotIndex w amount s s' :
  bid env sender slotIndex w amount s = Ok s' ->
  (startedAt (currentRound s) <> 0 ->
     timestamp env < endTime (currentRound s)
     /\ startedAt (currentRound s') = startedAt (currentRound s)
     /\ (endTime (currentRound s) - timestamp env <= ANTI_SNIPE_WINDOW ->
           endTime (currentRound s')
           = endTime (currentRound s) + ANTI_SNIPE_EXTENSION)
     /\ (ANTI_SNIPE_WINDOW < endTime (currentRound s) - timestamp env ->
           endTime (currentRound s') = endTime (currentRound s)))
  /\ (startedAt (currentRound s) = 0 ->
        startedAt (currentRound s') = timestamp env
        /\ endTime (currentRound s')
           = timestamp env + roundDuration s
             + (if roundDuration s <=? ANTI_SNIPE_WINDOW
                then ANTI_SNIPE_EXTENSION else 0)).
Proof.
  intros H. pose proof (bid_state _ _ _ _ _ _ _ H) as ->.
  apply bid_Ok in H. destruct H as (Hc & _). apply bidChecks_Ok in Hc.
  destruct Hc as (_ & _ & Hopen & _).
  unfold bidState, bidRound, clockStarted, extended. simpl. split.
  - intros Hst. specialize (Hopen Hst).
    destruct (N.eqb_spec (startedAt (currentRound s)) 0) as [E|_]; [contradiction|].
    split; [assumption|]. split; [reflexivity|].
    destruct (N.leb_spec (endTime (currentRound s) - timestamp env) ANTI_SNIPE_WINDOW);
      simpl; split; intros; solve [reflexivity | lia].
  - intros ->. simpl. split; [reflexivity|].
    replace (timestamp env + roundDuration s - timestamp env) with (roundDuration s) by lia.
    destruct (roundDuration s <=? ANTI_SNIPE_WINDOW); simpl; lia.
Qed.

(** The extension at work: Alice's first bid at 1001 ends the round at 4601;
    Bob's bid at 4571, thirty seconds before the end, moves it by 60. *)
Lemma bid_endTime_witness :
  let s1 := exec (Scenario.call 1001 Scenario.alice (Bid 0 "a" 10)) Scenario.seeded in
  let s2 := exec (Scenario.call 4571 Scenario.bob (Bid 1 "b" 10)) s1 in
  startedAt (currentRound s1) <> 0
  /\ endTime (currentRound s1) - timestamp (Scenario.at_ 4571) <= ANTI_SNIPE_WINDOW
  /\ endTime (currentRound s2) = endTime (currentRound s1) + ANTI_SNIPE_EXTENSION.
Proof.
  intros s1 s2.
  assert (Hb : bid (Scenario.at_ 4571) Scenario.bob 1 "b" 10 s1 = Ok s2)
    by (vm_compute; reflexivity).
  assert (Hs : startedAt (currentRound s1) <> 0) by (vm_compute; discriminate).
  assert (Hw : endTime (currentRound s1) - timestamp (Scenario.at_ 4571)
               <= ANTI_SNIPE_WINDOW) by (vm_compute; discriminate).
  split; [exact Hs|]. split; [exact Hw|].
  destruct (bid_endTime _ _ _ _ _ _ _ Hb) as [Hrun _].
  destruct (Hrun Hs) as (_ & _ & Hin & _). exact (Hin Hw).
Defined.

(** C7 as stated fails on the first bid of a round.  The round is pending
    (endTime = 0) at time 1001, so endTime - now <= 60 holds before the bid
    (as integers, and also with the subtraction truncated at 0); the bid
    succeeds and leaves endTime = 4601, which is neither the old value
    plus 60 nor the old value. *)
Lemma first_bid_sets_endTime_counterexample :
  exists s',
    bid (Scenario.at_ 1001) Scenario.alice 0 "a" 10 Scenario.seeded = Ok s'
    /\ endTime (currentRound Scenario.seeded) = 0
    /\ (Z.of_N (endTime (currentRound Scenario.seeded))
        - Z.of_N (timestamp (Scenario.at_ 1001)) <= 60)%Z
    /\ endTime (currentRound Scenario.seeded) - timestamp (Scenario.at_ 1001)
       <= ANTI_SNIPE_WINDOW
    /\ endTime (currentRound s') = 4601
    /\ endTime (currentRound s') <> endTime (currentRound Scenario.seeded) + 60
    /\ endTime (currentRound s') <> endTime (currentRound Scenario.seeded).
Proof.
  eexists. split; [vm_compute; reflexivity|].
  repeat split; vm_compute; congruence.
Qed.

(** ** The payout loops and the round roll-over *)

Lemma payUsdc_Ok env winners amounts s s' :
  payUsdc env winners amounts s = Ok s' ->
  s' = set_ledger (ledger s ++ usdcPayouts winners amounts) s.
Proof.
  revert amounts s. induction winners as [|w ws IH]; intros amounts s H.
  - simpl in H. injection H as H. subst s'. simpl. rewrite app_nil_r. by destruct s.
  - destruct amounts as [|a rest]; simpl in H; [discriminate|].
    apply bind_Ok in H. destruct H as (s1 & H1 & H).
    apply IH in H. subst s'. simpl.
    destruct (0 <? a).
    + unfold safeTransfer in H1. destruct (usdcPushOk env w a); [|discriminate].
      injection H1 as <-. unfold log. simpl. by rewrite <- app_assoc.
    + injection H1 as <-. reflexivity.
Qed.

Lemma payEthOne_Ok env w a s s' :
  payEthOne env w a s = Ok s' ->
  s' = set_ledger (ledger s ++ ethPayout env w a)
         (set_unclaimedEth (parkOne env w a (unclaimedEth s)) s).
Proof.
  unfold payEthOne, ethPayout, parkOne. intros H.
  destruct (0 <? a); simpl.
  - destruct (ethAccepts env w a); simpl; inv_ok; subst.
    + by destruct s.
    + rewrite app_nil_r. by destruct s.
  - inv_ok. subst. rewrite app_nil_r. by destruct s.
Qed.

Lemma payEth_Ok env winners amounts s s' :
  payEth env winners amounts s = Ok s' ->
  s' = set_ledger (ledger s ++ ethPayouts env winners amounts)
         (set_unclaimedEth (parked env winners amounts (unclaimedEth s)) s).
Proof.
  revert amounts s. induction winners as [|w ws IH]; intros amounts s H.
  - simpl in H. injection H as H. subst s'. simpl. rewrite app_nil_r. by destruct s.
  - destruct amounts as [|a rest]; simpl in H; [discriminate|].
    apply bind_Ok in H. destruct H as (s1 & H1 & H).
    apply IH in H. apply payEthOne_Ok in H1. subst s' s1. simpl.
    by rewrite <- app_assoc.
Qed.

Lemma payBoth_Ok env winners us es s s' :
  payBoth env winners us es s = Ok s' ->
  s' = set_ledger (ledger s ++ bothPayouts env winners us es)
         (set_unclaimedEth (parked env winners es (unclaimedEth s)) s).
Proof.
  revert us es s. induction winners as [|w ws IH]; intros us es s H.
  - simpl in H. injection H as H. subst s'. simpl. rewrite app_nil_r. by destruct s.
  - destruct us as [|u us]; [discriminate|].
    destruct es as [|e es]; [discriminate|]. simpl in H.
    apply bind_Ok in H. destruct H as (s1 & H1 & H).
    apply bind_Ok in H. destruct H as (s2 & H2 & H).
    apply IH in H. apply payEthOne_Ok in H2. subst s' s2. simpl.
    destruct (0 <? u).
    + unfold safeTransfer in H1. destruct (usdcPushOk env w u); [|discriminate].
      injection H1 as <-. unfold log. simpl. by rewrite <- !app_assoc.
    + injection H1 as <-. simpl. by rewrite <- !app_assoc.
Qed.

Lemma _createRound_Ok env usdcPrize ethPrize s s' :
  _createRound env usdcPrize ethPrize s = Ok s' ->
  s' = set_currentRound (freshRound env usdcPrize ethPrize s)
         (set_slots (clearSlots (slots s)) s)
  /\ id (currentRound s) + 1 <= MAX_UINT256.
Proof.
  unfold _createRound, freshRound. intros H. inv_ok. simpl in *. subst. auto.
Qed.

Lemma _autoAdvance_Ok env s s' :
  _autoAdvance env s = Ok s' ->
  (nextPrizePool s < MIN_AUTO_START /\ s' = s)
  \/ (MIN_AUTO_START <= nextPrizePool s /\ s' = advanced env s).
Proof.
  unfold _autoAdvance, advanced. intros H.
  destruct (N.leb_spec MIN_AUTO_START (nextPrizePool s)).
  - right. split; [assumption|]. inv_ok.
    match goal with Hc : _createRound _ _ _ _ = Ok _ |- _ =>
      apply _createRound_Ok in Hc; destruct Hc as (-> & _) end.
    subst. reflexivity.
  - left. inv_ok. auto.
Qed.

(** ** Sums *)

Lemma usum_from_Ok xs : forall acc t,
  usum_from acc xs = Ok t ->
  t = acc + sumN xs /\ (acc <= MAX_UINT256 -> t <= MAX_UINT256).
Proof.
  induction xs as [|x xs IH]; intros acc t H; simpl in *.
  - injection H as <-. rewrite N.add_0_r. auto.
  - inv_ok. subst. apply IH in H. destruct H as [-> Hr]. split; [lia | auto].
Qed.

Lemma usum_Ok xs t : usum xs = Ok t -> t = sumN xs /\ sumN xs <= MAX_UINT256.
Proof.
  unfold usum. intros H. apply usum_from_Ok in H. destruct H as [-> Hr].
  simpl in *. split; [reflexivity|]. apply Hr. unfold MAX_UINT256. lia.
Qed.

Lemma usum_from_in_range xs : forall acc,
  acc + sumN xs <= MAX_UINT256 -> usum_from acc xs = Ok (acc + sumN xs).
Proof.
  induction xs as [|x xs IH]; intros acc H; simpl in *.
  - by rewrite N.add_0_r.
  - rewrite uadd_in_range by lia. simpl. rewrite IH by lia. f_equal. lia.
Qed.

Lemma usum_in_range xs : sumN xs <= MAX_UINT256 -> usum xs = Ok (sumN xs).
Proof. intros H. unfold usum. by rewrite usum_from_in_range. Qed.

(** A sum that leaves the range makes the loop revert with [Panic]. *)
Lemma usum_from_overflow xs : forall acc,
  MAX_UINT256 < acc + sumN xs -> acc <= MAX_UINT256 -> usum_from acc xs = Revert Panic.
Proof.
  induction xs as [|x xs IH]; intros acc H Hacc; simpl in *.
  - lia.
  - unfold uadd. destruct (N.leb_spec (acc + x) MAX_UINT256); simpl; [|reflexivity].
    apply IH; lia.
Qed.

Lemma sumN_app xs ys : sumN (xs ++ ys) = sumN xs + sumN ys.
Proof. induction xs as [|x xs IH]; simpl; [reflexivity | rewrite IH; lia]. Qed.

Lemma sumN_alter_add (xs : list N) (i : nat) (x d : N) :
  xs !! i = Some x -> sumN (alter (fun y => y + d) i xs) = sumN xs + d.
Proof.
  revert i. induction xs as [|y ys IH]; intros [|i] H; simpl in *; try discriminate.
  - injection H as ->. lia.
  - change (list_alter (fun y0 => y0 + d) i ys) with (alter (fun y0 => y0 + d) i ys).
    rewrite (IH _ H). lia.
Qed.

(** ** The proportional allocation of [emergencyResolve] *)

Lemma share_div totalBids pool spend :
  share totalBids pool spend = pool * spend / totalBids.
Proof.
  unfold share. destruct (N.ltb_spec 0 totalBids) as [H|H]; [reflexivity|].
  assert (totalBids = 0) as -> by lia. by destruct (pool * spend).
Qed.

Lemma proportional_Ok totalBids distributable ethPool sps : forall ud ed r,
  proportional totalBids distributable ethPool sps ud ed = Ok r ->
  r = (map (share totalBids distributable) sps, map (share totalBids ethPool) sps,
       ud + sumN (map (share totalBids distributable) sps),
       ed + sumN (map (share totalBids ethPool) sps)).
Proof.
  induction sps as [|sp rest IH]; intros ud ed r H; simpl in H.
  - injection H as <-. simpl. by rewrite !N.add_0_r.
  - apply bind_Ok in H. destruct H as (ua & Hua & H).
    apply bind_Ok in H. destruct H as (ea & Hea & H).
    apply bind_Ok in H. destruct H as (ud1 & Hud & H).
    apply bind_Ok in H. destruct H as (ed1 & Hed & H).
    apply bind_Ok in H. destruct H as (r1 & Hr & H).
    apply IH in Hr. subst r1. injection H as <-.
    assert (ua = share totalBids distributable sp) as ->.
    { unfold share. destruct (0 <? totalBids); inv_ok; by subst. }
    assert (ea = share totalBids ethPool sp) as ->.
    { unfold share. destruct (0 <? totalBids); inv_ok; by subst. }
    clear Hua Hea. apply uadd_Ok in Hud, Hed.
    destruct Hud as [-> _], Hed as [-> _]. simpl. by rewrite !N.add_assoc.
Qed.

Lemma addAt_Ok allocs i dust l :
  addAt allocs i dust = Ok l ->
  is_Some (allocs !! i) /\ l = alter (fun x => x + dust) i allocs.
Proof.
  unfold addAt. intros H. destruct (allocs !! i) as [x|] eqn:E; [|discriminate].
  inv_ok. subst. split; [eauto|].
  apply list_eq. intros j. destruct (decide (i = j)) as [<-|Hne].
  - rewrite list_lookup_insert_eq by (eapply lookup_lt_Some; eauto).
    by rewrite list_lookup_alter_eq, E.
  - by rewrite list_lookup_insert_ne, list_lookup_alter_ne.
Qed.

(** The floors never add up to more than the pool. *)
Lemma sum_shares_le totalBids pool sps :
  sumN (map (share totalBids pool) sps) * totalBids <= pool * sumN sps.
Proof.
  induction sps as [|sp rest IH]; simpl; [lia|].
  rewrite share_div.
  assert (pool * sp / totalBids * totalBids <= pool * sp).
  { destruct (N.eq_dec totalBids 0) as [->|Hz]; [lia|].
    rewrite N.mul_comm. apply N.Div0.mul_div_le. }
  lia.
Qed.

Lemma sum_shares_le_pool pool sps :
  sumN (map (share (sumN sps) pool) sps) <= pool.
Proof.
  destruct (N.eq_dec (sumN sps) 0) as [Hz|Hz].
  - rewrite Hz. unfold share. simpl. clear Hz.
    induction sps as [|sp rest IH]; simpl; lia.
  - pose proof (sum_shares_le (sumN sps) pool sps). nia.
Qed.

(** After the dust, the allocations add up to the pool exactly. *)
Lemma emergencyAllocs_sum pool sps :
  sps <> [] -> sumN (emergencyAllocs (sumN sps) pool sps) = pool.
Proof.
  intros Hne. unfold emergencyAllocs, withDust.
  pose proof (sum_shares_le_pool pool sps) as Hle.
  set (base := map (share (sumN sps) pool) sps) in *.
  destruct (N.ltb_spec (sumN base) pool) as [Hlt|Hge]; simpl.
  - assert (Hlen : (0 < length base)%nat).
    { subst base. rewrite length_map. destruct sps; [congruence | simpl; lia]. }
    destruct (Nat.ltb_spec 0 (length base)); [|lia].
    destruct (lookup_lt_is_Some_2 base (length base - 1)) as [x Hx]; [lia|].
    rewrite (sumN_alter_add _ _ _ _ Hx). lia.
  - lia.
Qed.

(** ** Resolution: what a successful call went through *)

Lemma _validateResolution_Ok env s u :
  _validateResolution env s = Ok u ->
  id (currentRound s) <> 0
  /\ resolved (currentRound s) = false
  /\ startedAt (currentRound s) <> 0
  /\ endTime (currentRound s) <= timestamp env.
Proof.
  unfold _validateResolution. intros H. inv_ok. bool_to_prop. auto.
Qed.

Lemma rake_Ok s scaled distributable :
  umul (prizePool (currentRound s)) (rakeBps s) = Ok scaled ->
  usub (prizePool (currentRound s)) (scaled / 10000) = Ok distributable ->
  scaled / 10000 = rakeOf s /\ distributable = distributableOf s
  /\ rakeOf s <= prizePool (currentRound s).
Proof.
  unfold distributableOf, rakeOf. intros H1 H2. inv_ok. subst. auto.
Qed.

Lemma dust_Ok pool allocs n l :
  n = length allocs ->
  (if (sumN allocs <? pool) && Nat.ltb 0 n
   then addAt allocs (n - 1) (pool - sumN allocs)
   else Ok allocs) = Ok l ->
  l = withDust pool allocs.
Proof.
  intros -> H. unfold withDust. destruct (_ && _).
  - apply addAt_Ok in H. by destruct H as [_ ->].
  - by injection H.
Qed.

Lemma emergencyResolve_Ok env sender s s' :
  emergencyResolve env sender s = Ok s' ->
  (2 <= length (players s))%nat ->
  sender = _owner s
  /\ _validateResolution env s = Ok tt
  /\ endTime (currentRound s) + EMERGENCY_TIMEOUT <= timestamp env
  /\ rakeOf s <= prizePool (currentRound s)
  /\ _autoAdvance env (markResolved (emergencyPaid env s)) = Ok s'.
Proof.
  unfold emergencyResolve. fold (players s). intros H Hlen.
  apply bind_Ok in H. destruct H as ([] & Hown & H).
  apply bind_Ok in H. destruct H as ([] & Hval & H).
  apply bind_Ok in H. destruct H as (ready & Hready & H).
  apply bind_Ok in H. destruct H as ([] & Hnotyet & H).
  destruct (Nat.ltb_spec (length (players s)) 2) as [Hlt|_]; [lia|].
  apply bind_Ok in H. destruct H as (totalBids & Htot & H).
  apply bind_Ok in H. destruct H as (scaled & Hsc & H).
  apply bind_Ok in H. destruct H as (distributable & Hdis & H).
  apply bind_Ok in H. destruct H as (acc & Hacc & H).
  apply bind_Ok in H. destruct H as (r & Hprop & H).
  fold (spends s) in Htot, Hprop.
  apply usum_Ok in Htot. destruct Htot as [-> _].
  destruct (rake_Ok _ _ _ Hsc Hdis) as (Hrk & -> & Hle). rewrite Hrk in *.
  apply proportional_Ok in Hprop. subst r. simpl in H. rewrite !N.add_0_l in H.
  fold (spends s) in H.
  apply bind_Ok in H. destruct H as (usdcAllocs & Hua & H).
  apply bind_Ok in H. destruct H as (ethAllocs & Hea & H).
  apply bind_Ok in H. destruct H as (s1 & Hpay & H).
  assert (Hl : forall pool, length (map (share (sumN (spends s)) pool) (spends s))
                            = length (players s)).
  { intros. unfold spends. by rewrite !length_map. }
  apply dust_Ok in Hua; [|by rewrite Hl]. apply dust_Ok in Hea; [|by rewrite Hl].
  subst usdcAllocs ethAllocs.
  change (withDust ?pool (map (share ?t ?pool) ?sps))
    with (emergencyAllocs t pool sps) in Hpay.
  apply payBoth_Ok in Hpay. subst s1.
  unfold onlyOwner in Hown. inv_ok. bool_to_prop.
  subst. repeat split; try assumption; try lia.
Qed.

(** ** C1: the emergency path pays the distributable pool exactly *)

Lemma usdcPaid_app l1 l2 : usdcPaid (l1 ++ l2) = usdcPaid l1 + usdcPaid l2.
Proof. unfold usdcPaid. by rewrite map_app, sumN_app. Qed.

Lemma ethPaid_app l1 l2 : ethPaid (l1 ++ l2) = ethPaid l1 + ethPaid l2.
Proof. unfold ethPaid. by rewrite map_app, sumN_app. Qed.

Lemma usdcPaid_ethPayout env w a : usdcPaid (ethPayout env w a) = 0.
Proof. unfold ethPayout. by destruct (_ && _). Qed.

Lemma bothPayouts_usdcPaid env ws : forall us es,
  length us = length ws -> length es = length ws ->
  usdcPaid (bothPayouts env ws us es) = sumN us.
Proof.
  induction ws as [|w ws IH]; intros [|u us] [|e es] Hu He; simpl in *; try lia.
  - reflexivity.
  - rewrite !usdcPaid_app, usdcPaid_ethPayout, IH by lia.
    destruct (N.ltb_spec 0 u); unfold usdcPaid; simpl; lia.
Qed.

Lemma bothPayouts_ethPaid env ws : forall us es,
  length us = length ws -> length es = length ws ->
  ethPaid (bothPayouts env ws us es) + ethParked env ws es = sumN es.
Proof.
  induction ws as [|w ws IH]; intros [|u us] [|e es] Hu He; simpl in *; try lia.
  - reflexivity.
  - rewrite !ethPaid_app. specialize (IH us es ltac:(lia) ltac:(lia)).
    assert (ethPaid (if 0 <? u then [UsdcOut w u] else []) = 0) as ->
      by (by destruct (0 <? u)).
    unfold ethPayout.
    destruct (N.ltb_spec 0 e); destruct (ethAccepts env w e); unfold ethPaid in *;
      simpl in *; lia.
Qed.

Lemma length_emergencyAllocs totalBids pool sps :
  length (emergencyAllocs totalBids pool sps) = length sps.
Proof.
  unfold emergencyAllocs, withDust.
  destruct (_ && _); by rewrite ?length_alter, length_map.
Qed.

(** Entry [i] of the allocations: the floor, plus the whole remainder on
    the last entry. *)
Lemma emergencyAllocs_lookup pool sps i sp :
  sps !! i = Some sp ->
  emergencyAllocs (sumN sps) pool sps !! i
  = Some (pool * sp / sumN sps
          + (if decide (i = (length sps - 1)%nat)
             then pool - sumN (map (fun x => pool * x / sumN sps) sps)
             else 0)).
Proof.
  intros Hi. unfold emergencyAllocs, withDust.
  pose proof (sum_shares_le_pool pool sps) as Hle.
  assert (Hfl : map (share (sumN sps) pool) sps
                = map (fun x => pool * x / sumN sps) sps).
  { apply map_ext. intros. apply share_div. }
  rewrite <- Hfl.
  set (base := map (share (sumN sps) pool) sps) in *.
  assert (Hb : base !! i = Some (pool * sp / sumN sps)).
  { subst base. by rewrite list_lookup_fmap, Hi, <- share_div. }
  assert (Hlen : length base = length sps) by (subst base; apply length_map).
  rewrite Hlen.
  destruct (N.ltb_spec (sumN base) pool) as [Hlt|Hge]; simpl.
  - destruct (Nat.ltb_spec 0 (length sps)) as [_|Hz].
    + destruct (decide (i = (length sps - 1)%nat)) as [->|Hne].
      * by rewrite list_lookup_alter_eq, Hb.
      * rewrite list_lookup_alter_ne, Hb by congruence. by rewrite N.add_0_r.
    + apply lookup_lt_Some in Hi. lia.
  - rewrite Hb. f_equal. destruct (decide _); lia.
Qed.

Lemma _autoAdvance_frame env s s' :
  _autoAdvance env s = Ok s' ->
  ledger s' = ledger s /\ unclaimedEth s' = unclaimedEth s
  /\ accumulatedRake s' = accumulatedRake s.
Proof.
  intros H. apply _autoAdvance_Ok in H. destruct H as [[_ ->]|[_ ->]]; auto.
Qed.

(** C1.  When [emergencyResolve] succeeds on a round with at least two
    participants, with D = prizePool - floor(prizePool * rakeBps / 10000),
    E the ETH pool and T the sum of the participants' totalSpent:
    participant i (in registration order) is allocated
    floor(D * totalSpent_i / T) USDC, the last participant receives in
    addition the whole remainder D - sum of the floors, and likewise for ETH
    with E; the ledger grows by exactly these payouts, the USDC paid out
    adds up to D, and the ETH allocations add up to E, each being either
    sent or parked in unclaimedEth.  (The division is the one of [N]: when
    T = 0, which needs minBid = 0, every floor is 0, as in the code.) *)
Theorem emergencyResolve_proportional env sender s s' :
  emergencyResolve env sender s = Ok s' ->
  (2 <= length (players s))%nat ->
  let T := sumN (spends s) in
  let D := distributableOf s in
  let E := ethPrizePool (currentRound s) in
  let usdcAllocs := emergencyAllocs T D (spends s) in
  let ethAllocs := emergencyAllocs T E (spends s) in
  let payouts := bothPayouts env (players s) usdcAllocs ethAllocs in
  let spent := totalSpent s (id (currentRound s)) in
  (forall i p, players s !! i = Some p ->
     usdcAllocs !! i
     = Some (D * spent p / T
             + (if decide (i = (length (players s) - 1)%nat)
                then D - sumN (map (fun x => D * x / T) (spends s)) else 0))
     /\ ethAllocs !! i
        = Some (E * spent p / T
                + (if decide (i = (length (players s) - 1)%nat)
                   then E - sumN (map (fun x => E * x / T) (spends s)) else 0)))
  /\ ledger s' = ledger s ++ payouts
  /\ usdcPaid payouts = D
  /\ sumN usdcAllocs = D
  /\ sumN ethAllocs = E
  /\ ethPaid payouts + ethParked env (players s) ethAllocs = E
  /\ unclaimedEth s' = parked env (players s) ethAllocs (unclaimedEth s)
  /\ accumulatedRake s' = accumulatedRake s + rakeOf s.
Proof.
  intros H Hlen T D E usdcAllocs ethAllocs payouts spent.
  apply emergencyResolve_Ok in H; [|assumption].
  destruct H as (_ & _ & _ & _ & H).
  apply _autoAdvance_frame in H. destruct H as (Hl & Hu & Hr). simpl in *.
  assert (Hsl : length (spends s) = length (players s))
    by (unfold spends; apply length_map).
  assert (Hne : spends s <> []).
  { intros E0. rewrite E0 in Hsl. simpl in Hsl. lia. }
  assert (HsD : sumN usdcAllocs = D) by (by apply emergencyAllocs_sum).
  assert (HsE : sumN ethAllocs = E) by (by apply emergencyAllocs_sum).
  assert (HlD : length usdcAllocs = length (players s))
    by (subst usdcAllocs; by rewrite length_emergencyAllocs).
  assert (HlE : length ethAllocs = length (players s))
    by (subst ethAllocs; by rewrite length_emergencyAllocs).
  split.
  { intros i p Hp.
    assert (Hsp : spends s !! i = Some (spent p)).
    { unfold spends. by rewrite list_lookup_fmap, Hp. }
    rewrite <- Hsl. subst usdcAllocs ethAllocs T.
    split; by apply emergencyAllocs_lookup. }
  split; [exact Hl|].
  split; [subst payouts; rewrite bothPayouts_usdcPaid by assumption; exact HsD|].
  split; [exact HsD|]. split; [exact HsE|].
  split; [subst payouts; rewrite bothPayouts_ethPaid by assumption; exact HsE|].
  split; [exact Hu | exact Hr].
Qed.

(** Spends 3 and 1 on a pool of 101: floors 75 and 25, the remainder 1 goes
    to Bob, the last player; 101 is paid out. *)
Lemma emergencyResolve_proportional_witness :
  let s := Scenario.threeToOne in
  let env := Scenario.at_ 91001 in
  let s' := exec (mkCall env Scenario.deployer EmergencyResolve) s in
  (2 <= length (players s))%nat
  /\ ledger s' = ledger s ++ [UsdcOut Scenario.alice 75; UsdcOut Scenario.bob 26]
  /\ usdcPaid (bothPayouts env (players s)
                 (emergencyAllocs (sumN (spends s)) (distributableOf s) (spends s))
                 (emergencyAllocs (sumN (spends s)) (ethPrizePool (currentRound s))
                    (spends s)))
     = distributableOf s.
Proof.
  intros s env s'.
  assert (Hr : emergencyResolve env Scenario.deployer s = Ok s')
    by (vm_compute; reflexivity).
  assert (Hl : (2 <= length (players s))%nat) by (vm_compute; lia).
  split; [exact Hl|].
  split; [vm_compute; reflexivity|].
  exact (proj1 (proj2 (proj2 (emergencyResolve_proportional _ _ _ _ Hr Hl)))).
Defined.

(** ** The other entry points: what a successful call went through *)

Lemma resolveRound_Ok env sender winners usdcAmounts ethAmounts s s' :
  resolveRound env sender winners usdcAmounts ethAmounts s = Ok s' ->
  sender = oracleAddress s
  /\ _validateResolution env s = Ok tt
  /\ (2 <= length (players s))%nat
  /\ length winners = length usdcAmounts
  /\ sumN usdcAmounts = distributableOf s
  /\ (0 < ethPrizePool (currentRound s) ->
        length ethAmounts = length winners
        /\ sumN ethAmounts = ethPrizePool (currentRound s))
  /\ _autoAdvance env
       (markResolved (resolvePaid env winners usdcAmounts ethAmounts s)) = Ok s'.
Proof.
  unfold resolveRound. fold (players s). intros H.
  apply bind_Ok in H. destruct H as ([] & Hor & H).
  apply bind_Ok in H. destruct H as ([] & Hval & H).
  apply bind_Ok in H. destruct H as ([] & Hpl & H).
  apply bind_Ok in H. destruct H as (scaled & Hsc & H).
  apply bind_Ok in H. destruct H as (distributable & Hdis & H).
  apply bind_Ok in H. destruct H as (acc & Hacc & H).
  apply bind_Ok in H. destruct H as ([] & Hlen & H).
  apply bind_Ok in H. destruct H as (usdcTotal & Htot & H).
  apply bind_Ok in H. destruct H as ([] & Heq & H).
  apply bind_Ok in H. destruct H as (s1 & Hpay & H).
  apply bind_Ok in H. destruct H as (s2 & Heth & H).
  destruct (rake_Ok _ _ _ Hsc Hdis) as (Hrk & -> & Hle). rewrite Hrk in *.
  apply usum_Ok in Htot. destruct Htot as [-> _].
  apply payUsdc_Ok in Hpay. subst s1. simpl in Heth.
  apply uadd_Ok in Hacc. destruct Hacc as [-> _].
  unfold onlyOracle in Hor. apply revertIf_Ok in Hor, Hpl, Hlen, Heq.
  bool_to_prop. apply Nat.ltb_ge in Hpl. apply Nat.eqb_eq in Hlen.
  repeat (split; [assumption|]).
  unfold resolvePaid.
  destruct (N.ltb_spec 0 (ethPrizePool (currentRound s))) as [Hpos|Hz].
  - apply bind_Ok in Heth. destruct Heth as ([] & Hl2 & Heth).
    apply bind_Ok in Heth. destruct Heth as (ethTotal & Het & Heth).
    apply bind_Ok in Heth. destruct Heth as ([] & He2 & Heth).
    apply usum_Ok in Het. destruct Het as [-> _].
    apply revertIf_Ok in Hl2, He2. bool_to_prop. apply Nat.eqb_eq in Hl2.
    apply payEth_Ok in Heth. subst s2. simpl in H.
    split; [tauto|]. rewrite <- app_assoc in H. exact H.
  - injection Heth as <-. split; [lia|]. simpl. rewrite app_nil_r. exact H.
Qed.

Lemma soloCarry_Ok env s s' :
  soloCarry env (id (currentRound s)) (players s) s = Ok s' ->
  (length (players s) < 2)%nat ->
  s' = soloCarried s
  /\ soloSpent s <= nextPrizePool s + prizePool (currentRound s).
Proof.
  unfold soloCarry, soloCarried, soloRefund, soloSpent. intros H Hlen.
  destruct (players s) as [|p [|q rest]] eqn:Hp; simpl in *; try lia.
  - inv_ok. subst. rewrite app_nil_r, N.sub_0_r. split; [reflexivity | lia].
  - inv_ok. subst. simpl in *.
    destruct (0 <? totalSpent s (id (currentRound s)) p).
    + unfold safeTransfer in H.
      destruct (usdcPushOk env p _); [|discriminate]. inv_ok. auto.
    + inv_ok. rewrite app_nil_r. auto.
Qed.

Lemma refundSoloRound_Ok env s s' :
  refundSoloRound env s = Ok s' ->
  _validateResolution env s = Ok tt
  /\ (length (players s) < 2)%nat
  /\ soloSpent s <= nextPrizePool s + prizePool (currentRound s)
  /\ _autoAdvance env (markResolved (soloCarried s)) = Ok s'.
Proof.
  unfold refundSoloRound. fold (players s). intros H.
  apply bind_Ok in H. destruct H as ([] & Hval & H).
  apply bind_Ok in H. destruct H as ([] & Hpl & H).
  apply bind_Ok in H. destruct H as (s1 & Hs1 & H).
  apply revertIf_Ok in Hpl. apply Nat.leb_gt in Hpl.
  apply soloCarry_Ok in Hs1; [|assumption]. destruct Hs1 as [-> Hle]. auto.
Qed.

Lemma emergencyResolve_solo_Ok env sender s s' :
  emergencyResolve env sender s = Ok s' ->
  (length (players s) < 2)%nat ->
  sender = _owner s
  /\ _validateResolution env s = Ok tt
  /\ endTime (currentRound s) + EMERGENCY_TIMEOUT <= timestamp env
  /\ soloSpent s <= nextPrizePool s + prizePool (currentRound s)
  /\ _autoAdvance env (markResolved (soloCarried s)) = Ok s'.
Proof.
  unfold emergencyResolve, _emergencySoloRefund. fold (players s). intros H Hlen.
  apply bind_Ok in H. destruct H as ([] & Hown & H).
  apply bind_Ok in H. destruct H as ([] & Hval & H).
  apply bind_Ok in H. destruct H as (ready & Hready & H).
  apply bind_Ok in H. destruct H as ([] & Hnotyet & H).
  destruct (Nat.ltb_spec (length (players s)) 2) as [_|Hge]; [|lia].
  apply bind_Ok in H. destruct H as (s1 & Hs1 & H).
  apply soloCarry_Ok in Hs1; [|assumption]. destruct Hs1 as [-> Hle].
  unfold onlyOwner in Hown. inv_ok. bool_to_prop. subst. auto.
Qed.

Lemma startRound_Ok env sender topUp s s' :
  startRound env sender topUp s = Ok s' ->
  _paused s = false
  /\ (id (currentRound s) = 0 \/ resolved (currentRound s) = true)
  /\ nextPrizePool s + topUp <> 0
  /\ s' = started env sender topUp s.
Proof.
  unfold startRound, started. intros H.
  apply bind_Ok in H. destruct H as ([] & Hp & H).
  apply bind_Ok in H. destruct H as ([] & Hprev & H).
  apply bind_Ok in H. destruct H as (s1 & Hs1 & H).
  apply bind_Ok in H. destruct H as (prize & Hprize & H).
  apply bind_Ok in H. destruct H as ([] & Hz & H).
  apply bind_Ok in H. destruct H as (s2 & Hs2 & H).
  injection H as <-.
  unfold whenNotPaused in Hp. apply revertIf_Ok in Hp, Hprev, Hz.
  apply _createRound_Ok in Hs2. destruct Hs2 as [-> _].
  assert (Hs : s1 = if 0 <? topUp then log (UsdcIn sender topUp) s else s).
  { destruct (0 <? topUp); [|by injection Hs1].
    unfold safeTransferFrom in Hs1. destruct (usdcPullOk env sender topUp); [|discriminate].
    by injection Hs1. }
  assert (Hn : nextPrizePool s1 = nextPrizePool s /\ pendingEth s1 = pendingEth s
               /\ slots s1 = slots s /\ currentRound s1 = currentRound s).
  { rewrite Hs. destruct (0 <? topUp); auto. }
  destruct Hn as (Hn1 & Hn2 & Hn3 & Hn4).
  apply uadd_Ok in Hprize. destruct Hprize as [-> _]. rewrite Hn1 in *.
  split; [assumption|]. split.
  { apply andb_false_iff in Hprev. destruct Hprev; bool_to_prop; [left; lia | tauto]. }
  split; [by apply N.eqb_neq|].
  unfold freshRound. simpl. rewrite Hn2, Hn3, Hn4, <- Hs. reflexivity.
Qed.

Lemma fund_Ok env sender amount s s' :
  fund env sender amount s = Ok s' ->
  _paused s = false
  /\ id (currentRound s) <> 0
  /\ resolved (currentRound s) = false
  /\ s' = set_currentRound
            (with_prizePool (prizePool (currentRound s) + amount) (currentRound s))
            (log (UsdcIn sender amount) s).
Proof.
  unfold fund, whenNotPaused, safeTransferFrom. intros H.
  apply bind_Ok in H. destruct H as ([] & Hp & H).
  apply bind_Ok in H. destruct H as ([] & Hr & H).
  apply bind_Ok in H. destruct H as ([] & He & H).
  apply bind_Ok in H. destruct H as (s1 & Hs1 & H).
  destruct (usdcPullOk env sender amount); [|discriminate].
  injection Hs1 as <-. simpl in H. inv_ok. bool_to_prop. subst. auto.
Qed.

Lemma receive_Ok sender value s s' :
  receive sender value s = Ok s' ->
  (id (currentRound s) <> 0 /\ resolved (currentRound s) = false
   /\ s' = set_currentRound
             (with_ethPrizePool (ethPrizePool (currentRound s) + value)
                (currentRound s))
             (log (EthIn sender value) s))
  \/ ((id (currentRound s) = 0 \/ resolved (currentRound s) = true)
      /\ s' = set_pendingEth (pendingEth s + value) (log (EthIn sender value) s)).
Proof.
  unfold receive. simpl. intros H.
  destruct (N.ltb_spec 0 (id (currentRound s)));
    destruct (resolved (currentRound s)) eqn:Hr; simpl in H; inv_ok; subst.
  - right. auto.
  - left. split; [lia | auto].
  - right. auto.
  - right. split; [left; lia | reflexivity].
Qed.

Lemma claimEth_Ok env sender s s' :
  claimEth env sender s = Ok s' ->
  unclaimedEth s sender <> 0
  /\ ethAccepts env sender (unclaimedEth s sender) = true
  /\ s' = log (EthOut sender (unclaimedEth s sender))
            (set_unclaimedEth (<[sender := 0]> (unclaimedEth s)) s).
Proof.
  unfold claimEth. intros H.
  apply bind_Ok in H. destruct H as ([] & Hz & H).
  apply revertIf_Ok in Hz. bool_to_prop.
  destruct (ethAccepts env sender (unclaimedEth s sender)); [|discriminate].
  injection H as <-. auto.
Qed.

(** ** Case analysis on a successful call *)

(** Replace a successful [step] by the explicit storage it returns, one
    goal per entry point (two for [emergencyResolve], and a further split
    on whether [_autoAdvance] created the next round). *)
Ltac admin_inv H :=
  unfold setOracle, setMinBid, setRoundDuration, setRake, setSplit,
    setMaxSlotsPerPlayer, withdrawRake, pause, unpause, onlyOwner,
    whenNotPaused, whenPaused, safeTransfer in H;
  simpl in H;
  repeat (apply bind_Ok in H;
          let u := fresh "u" in
          let Hu := fresh "Hu" in
          destruct H as (u & Hu & H); apply revertIf_Ok in Hu);
  repeat match type of H with
         | (if ?b then _ else _) = Ok _ => destruct b eqn:?; [|discriminate H]
         end;
  injection H as H; subst.

Ltac advance_inv H :=
  apply _autoAdvance_Ok in H; destruct H as [[? ->]|[? ->]].

Ltac step_inv H :=
  let s := match type of H with step _ ?s = _ => s end in
  unfold step in H;
  match type of H with
  | context [op ?c] => destruct (op c) eqn:?Hop
  end;
  [ apply startRound_Ok in H; destruct H as (? & ? & ? & ->)
  | apply fund_Ok in H; destruct H as (? & ? & ? & ->)
  | apply receive_Ok in H; destruct H as [(? & ? & ->)|(? & ->)]
  | apply bid_state in H; subst
  | apply resolveRound_Ok in H; destruct H as (? & ? & ? & ? & ? & ? & H);
    advance_inv H
  | apply refundSoloRound_Ok in H; destruct H as (? & ? & ? & H); advance_inv H
  | destruct (Nat.lt_ge_cases (length (players s)) 2);
    [ apply emergencyResolve_solo_Ok in H; [|assumption];
      destruct H as (? & ? & ? & ? & H); advance_inv H
    | apply emergencyResolve_Ok in H; [|assumption];
      destruct H as (? & ? & ? & ? & H); advance_inv H ]
  | apply claimEth_Ok in H; destruct H as (? & ? & ->)
  | admin_inv H | admin_inv H | admin_inv H | admin_inv H | admin_inv H
  | admin_inv H | admin_inv H | admin_inv H | admin_inv H ].

(** Round ids only grow, by one at a time, and within one id the resolved
    flag is never cleared. *)
Lemma step_round c s s' :
  step c s = Ok s' ->
  (id (currentRound s') = id (currentRound s)
   /\ (resolved (currentRound s) = true -> resolved (currentRound s') = true))
  \/ id (currentRound s') = id (currentRound s) + 1.
Proof.
  intros H. step_inv H; simpl; auto.
  unfold bidState, bidRound, clockStarted. simpl.
  destruct (startedAt (currentRound s) =? 0); simpl; auto.
Qed.

(** ** C4: the gate in front of the three resolution paths *)

Lemma _validateResolution_cases env s :
  let r := currentRound s in
  (id r = 0 -> _validateResolution env s = Revert NoActiveRound)
  /\ (id r <> 0 -> resolved r = true ->
        _validateResolution env s = Revert RoundAlreadyResolved)
  /\ (id r <> 0 -> resolved r = false -> startedAt r = 0 ->
        _validateResolution env s = Revert RoundNotStarted)
  /\ (id r <> 0 -> resolved r = false -> startedAt r <> 0 ->
        timestamp env < endTime r ->
        _validateResolution env s = Revert RoundStillActive)
  /\ (id r <> 0 -> resolved r = false -> startedAt r <> 0 ->
        endTime r <= timestamp env ->
        _validateResolution env s = Ok tt).
Proof.
  unfold _validateResolution. simpl.
  destruct (N.eqb_spec (id (currentRound s)) 0);
    destruct (resolved (currentRound s));
    destruct (N.eqb_spec (startedAt (currentRound s)) 0);
    destruct (N.ltb_spec (timestamp env) (endTime (currentRound s)));
    simpl; repeat split; intros; solve [reflexivity | congruence | lia].
Qed.

(** A resolution call that goes through passed [_validateResolution]. *)
Lemma resolution_validated c s s' :
  isResolution (op c) = true -> step c s = Ok s' ->
  _validateResolution (env c) s = Ok tt.
Proof.
  intros Hres H. step_inv H; try discriminate Hres; assumption.
Qed.

(** Behind the access check, a failed [_validateResolution] is the error of
    the call. *)
Lemma resolution_rejected c s e :
  isResolution (op c) = true -> authorised c s ->
  _validateResolution (env c) s = Revert e -> step c s = Revert e.
Proof.
  unfold step, authorised. intros Hres Hauth Hval.
  destruct (op c); try discriminate Hres.
  - unfold resolveRound, onlyOracle. rewrite Hauth, N.eqb_refl, Hval. reflexivity.
  - unfold refundSoloRound. rewrite Hval. reflexivity.
  - unfold emergencyResolve, onlyOwner. rewrite Hauth, N.eqb_refl, Hval. reflexivity.
Qed.

(** A resolution that goes through leaves the round resolved, or already
    replaced by its successor. *)
Lemma resolution_marks c s s' :
  isResolution (op c) = true -> step c s = Ok s' ->
  (id (currentRound s') = id (currentRound s) /\ resolved (currentRound s') = true)
  \/ id (currentRound s') = id (currentRound s) + 1.
Proof.
  intros Hres H. step_inv H; try discriminate Hres; simpl; auto.
Qed.

Lemma exec_cases c s :
  (exists s', step c s = Ok s' /\ exec c s = s')
  \/ (exists e, step c s = Revert e /\ exec c s = s).
Proof. unfold exec. destruct (step c s); eauto. Qed.

Lemma exec_over r c s : over r s -> over r (exec c s).
Proof.
  unfold over. intros Hov.
  destruct (exec_cases c s) as [(s' & H & ->)|(e & _ & ->)]; [|assumption].
  apply step_round in H. destruct H as [[Hid Hres]|Hid]; rewrite Hid.
  - destruct Hov as [?|[? ?]]; auto.
  - destruct Hov as [?|[? ?]]; left; lia.
Qed.

Lemma execs_over r cs : forall s, over r s -> over r (execs cs s).
Proof.
  induction cs as [|c cs IH]; intros s H; simpl; [assumption|].
  apply IH. by apply exec_over.
Qed.

(** On a round that is over, no resolution call goes through. *)
Lemma over_rejects r c s :
  isResolution (op c) = true -> over r s -> id (currentRound s) = r ->
  exists e, step c s = Revert e.
Proof.
  intros Hres Hov Hid. destruct (step c s) as [s'|e] eqn:H; [|eauto].
  apply resolution_validated in H; [|assumption].
  apply _validateResolution_Ok in H. destruct H as (_ & Hr & _).
  destruct Hov as [?|[_ ?]]; [lia | congruence].
Qed.

Lemma resolutionsOf_over r cs : forall s, over r s -> resolutionsOf r cs s = 0%nat.
Proof.
  induction cs as [|c cs IH]; intros s Hov; simpl; [reflexivity|].
  rewrite IH by (by apply exec_over).
  destruct (isResolution (op c)) eqn:Hres; [|reflexivity].
  destruct (N.eqb_spec (id (currentRound s)) r) as [Hid|]; [|reflexivity].
  destruct (over_rejects r c s Hres Hov Hid) as [e ->]. reflexivity.
Qed.

Lemma resolutionsOf_le_1 r cs : forall s, (resolutionsOf r cs s <= 1)%nat.
Proof.
  induction cs as [|c cs IH]; intros s; simpl; [lia|].
  destruct (isResolution (op c)) eqn:Hres; simpl; [|apply IH].
  destruct (N.eqb_spec (id (currentRound s)) r) as [Hid|]; simpl; [|apply IH].
  destruct (step c s) as [s'|e] eqn:H; simpl; [|apply IH].
  rewrite resolutionsOf_over; [lia|].
  unfold exec. rewrite H. unfold over.
  destruct (resolution_marks c s s' Hres H) as [[? ?]|?]; [right; split; congruence | left; lia].
Qed.

Lemma resolveRound_NeedMorePlayers env who winners usdcAmounts ethAmounts s :
  who = oracleAddress s -> _validateResolution env s = Ok tt ->
  (length (players s) < 2)%nat ->
  resolveRound env who winners usdcAmounts ethAmounts s = Revert NeedMorePlayers.
Proof.
  intros -> Hval Hlen. unfold resolveRound, onlyOracle. fold (players s).
  rewrite N.eqb_refl, Hval. cbn [negb revertIf bind].
  destruct (Nat.ltb_spec (length (players s)) 2); [reflexivity | lia].
Qed.

Lemma refundSoloRound_HasMultiplePlayers env s :
  _validateResolution env s = Ok tt -> (2 <= length (players s))%nat ->
  refundSoloRound env s = Revert HasMultiplePlayers.
Proof.
  intros Hval Hlen. unfold refundSoloRound. fold (players s). rewrite Hval.
  cbn [bind]. destruct (Nat.leb_spec 2 (length (players s))); [reflexivity | lia].
Qed.

(** C4.  (1) A resolution call ([resolveRound], [refundSoloRound],
    [emergencyResolve]) goes through only if the current round exists
    (id > 0), has started (startedAt > 0), its timer has expired
    (now >= endTime) and it is not resolved.  (2) Behind the access check of
    the path, a missing round rejects with NoActiveRound, a resolved one
    with RoundAlreadyResolved, a pending one with RoundNotStarted and a
    running one with RoundStillActive.  (3) After a resolution went through
    the round is over (resolved, or replaced by its successor), (4) a round
    that is over stays over, (5) every resolution call on a round that is
    over rejects, so (6) in any history at most one resolution call goes
    through per round id.  (7) [resolveRound], called by the oracle on an
    ended round with fewer than 2 participants, rejects with
    NeedMorePlayers; (8) [refundSoloRound] on an ended round with 2 or more
    participants rejects with HasMultiplePlayers. *)
Theorem resolution_gate :
  (forall c s s', isResolution (op c) = true -> step c s = Ok s' ->
     id (currentRound s) <> 0 /\ startedAt (currentRound s) <> 0
     /\ endTime (currentRound s) <= timestamp (env c)
     /\ resolved (currentRound s) = false)
  /\ (forall c s, isResolution (op c) = true -> authorised c s ->
        let r := currentRound s in
        (id r = 0 -> step c s = Revert NoActiveRound)
        /\ (id r <> 0 -> resolved r = true -> step c s = Revert RoundAlreadyResolved)
        /\ (id r <> 0 -> resolved r = false -> startedAt r = 0 ->
              step c s = Revert RoundNotStarted)
        /\ (id r <> 0 -> resolved r = false -> startedAt r <> 0 ->
              timestamp (env c) < endTime r -> step c s = Revert RoundStillActive))
  /\ (forall c s s', isResolution (op c) = true -> step c s = Ok s' ->
        over (id (currentRound s)) s')
  /\ (forall r cs s, over r s -> over r (execs cs s))
  /\ (forall r c s, isResolution (op c) = true -> over r s ->
        id (currentRound s) = r -> exists e, step c s = Revert e)
  /\ (forall r cs s, (resolutionsOf r cs s <= 1)%nat)
  /\ (forall env who winners usdcAmounts ethAmounts s,
        who = oracleAddress s -> _validateResolution env s = Ok tt ->
        (length (players s) < 2)%nat ->
        resolveRound env who winners usdcAmounts ethAmounts s = Revert NeedMorePlayers)
  /\ (forall env s,
        _validateResolution env s = Ok tt -> (2 <= length (players s))%nat ->
        refundSoloRound env s = Revert HasMultiplePlayers).
Proof.
  split.
  { intros c s s' Hres H. apply resolution_validated in H; [|assumption].
    apply _validateResolution_Ok in H. tauto. }
  split.
  { intros c s Hres Hauth r.
    destruct (_validateResolution_cases (env c) s) as (H0 & H1 & H2 & H3 & _).
    repeat split; intros; apply resolution_rejected; auto. }
  split.
  { intros c s s' Hres H. unfold over.
    destruct (resolution_marks c s s' Hres H) as [[? ?]|?]; [right; auto | left; lia]. }
  split; [intros; by apply execs_over|].
  split; [intros; by eapply over_rejects|].
  split; [intros; apply resolutionsOf_le_1|].
  split; [intros; by apply resolveRound_NeedMorePlayers|].
  intros; by apply refundSoloRound_HasMultiplePlayers.
Qed.

(** Round 1 with Alice and Bob, timer expired at 5000: the solo refund is
    refused, the oracle's resolution goes through, and a second one is
    refused with RoundAlreadyResolved. *)
Lemma resolution_gate_witness :
  let s := Scenario.threeToOne in
  let c := Scenario.call 5000 Scenario.oracle (ResolveRound [Scenario.alice] [101] []) in
  let s' := exec c s in
  refundSoloRound (Scenario.at_ 5000) s = Revert HasMultiplePlayers
  /\ endTime (currentRound s) <= 5000
  /\ over 1 s'
  /\ step c s' = Revert RoundAlreadyResolved.
Proof.
  intros s c s'.
  destruct resolution_gate as (G1 & G2 & G3 & _ & _ & _ & _ & G8).
  assert (Hstep : step c s = Ok s') by (vm_compute; reflexivity).
  assert (Hres : isResolution (op c) = true) by reflexivity.
  assert (Hval : _validateResolution (Scenario.at_ 5000) s = Ok tt)
    by (vm_compute; reflexivity).
  assert (Hlen : (2 <= length (players s))%nat) by (vm_compute; lia).
  split; [exact (G8 _ _ Hval Hlen)|].
  split; [exact (proj1 (proj2 (proj2 (G1 c s s' Hres Hstep))))|].
  split; [exact (G3 c s s' Hres Hstep)|].
  assert (Hauth : authorised c s') by (vm_compute; reflexivity).
  assert (Hid : id (currentRound s') <> 0) by (vm_compute; discriminate).
  assert (Hr : resolved (currentRound s') = true) by (vm_compute; reflexivity).
  exact (proj1 (proj2 (G2 c s' Hres Hauth)) Hid Hr).
Defined.

(** ** What a successful bid had to satisfy *)

Lemma bid_conditions env who slotIndex w amount s s' :
  bid env who slotIndex w amount s = Ok s' ->
  let roundId := id (currentRound s) in
  let c := cumulativeBids s roundId slotIndex who + amount in
  bidChecks env slotIndex w amount s = Ok tt
  /\ is_Some (slots s !! N.to_nat slotIndex)
  /\ (highestTotal (slotOf s slotIndex) < c ->
      owner (slotOf s slotIndex) <> who ->
      playerSlotCount s roundId who < maxSlotsPerPlayer s
      /\ (owner (slotOf s slotIndex) <> 0 ->
          1 <= playerSlotCount s roundId (owner (slotOf s slotIndex))))
  /\ usdcPullOk env who amount = true.
Proof.
  intros H. apply bid_Ok in H. simpl in H.
  destruct H as (Hc & s1 & s2 & s3 & s4 & s6 & H1 & H2 & H3 & H4 & H6 & Hp & ->).
  apply startClock_Ok in H1. destruct H1 as (-> & _).
  apply antiSnipe_Ok in H2. destruct H2 as (_ & ->).
  apply updateCumulative_Ok in H3. destruct H3 as (-> & _).
  apply bidSplit_Ok in H4. destruct H4 as (_ & ->).
  apply updateSlot_Ok in H6. destruct H6 as (Hs & _ & Hcap).
  rewrite trackPlayer_eq in Hs, Hcap. unfold slotOf in *. simpl in *.
  rewrite upd3_eq in Hcap. auto.
Qed.

(** ** C5: slots only move up, and only on a strictly higher cumulative *)

Lemma slotIn_bidSlots who i w c sl j :
  slotIn (bidSlots who i w c sl) j
  = if (highestTotal (slotIn sl i) <? c) && (j =? i)
       && bool_decide (is_Some (sl !! N.to_nat i))
    then mkWordSlot w who c
    else slotIn sl j.
Proof.
  unfold bidSlots, slotIn.
  destruct (highestTotal (default emptySlot (sl !! N.to_nat i)) <? c); simpl;
    [|reflexivity].
  destruct (N.eqb_spec j i) as [->|Hne]; simpl.
  - destruct (decide (is_Some (sl !! N.to_nat i))) as [Hs|Hs].
    + rewrite bool_decide_eq_true_2 by assumption.
      rewrite list_lookup_insert_eq; [reflexivity|].
      by apply lookup_lt_is_Some.
    + rewrite bool_decide_eq_false_2 by assumption.
      rewrite list_insert_ge; [reflexivity|].
      apply Nat.le_ngt. intros Hlt. apply Hs. by apply lookup_lt_is_Some.
  - rewrite list_lookup_insert_ne; [reflexivity|]. lia.
Qed.

Lemma bid_slotOf env who i w a s s' j :
  bid env who i w a s = Ok s' ->
  let c := cumulativeBids s (id (currentRound s)) i who + a in
  cumulativeBids s' (id (currentRound s)) i who = c
  /\ slotOf s' j
     = if (highestTotal (slotOf s i) <? c) && (j =? i)
       then mkWordSlot w who c
       else slotOf s j.
Proof.
  intros H. pose proof (bid_conditions _ _ _ _ _ _ _ H) as (_ & Hs & _).
  apply bid_state in H. subst s'. unfold bidState, slotOf. simpl.
  split; [by rewrite upd3_eq|].
  rewrite slotIn_bidSlots. by rewrite (bool_decide_eq_true_2 _ Hs), andb_true_r.
Qed.

Lemma bid_highestTotal_mono env who i w a s s' j :
  bid env who i w a s = Ok s' ->
  highestTotal (slotOf s j) <= highestTotal (slotOf s' j).
Proof.
  intros H. destruct (bid_slotOf _ _ _ _ _ _ _ j H) as [_ ->].
  destruct (N.ltb_spec (highestTotal (slotOf s i))
              (cumulativeBids s (id (currentRound s)) i who + a)); simpl; [|lia].
  destruct (N.eqb_spec j i) as [->|]; simpl; lia.
Qed.

Lemma step_highestTotal_mono c s s' j :
  step c s = Ok s' -> id (currentRound s') = id (currentRound s) ->
  highestTotal (slotOf s j) <= highestTotal (slotOf s' j).
Proof.
  intros H Hid. destruct (op c) eqn:Hop;
    try (unfold step in H; rewrite Hop in H; by eapply bid_highestTotal_mono).
  all: step_inv H; try discriminate Hop; simpl in Hid; try lia; reflexivity.
Qed.

Lemma exec_id_mono c s : id (currentRound s) <= id (currentRound (exec c s)).
Proof.
  destruct (exec_cases c s) as [(s' & H & ->)|(e & _ & ->)]; [|lia].
  apply step_round in H. lia.
Qed.

Lemma execs_id_mono cs : forall s, id (currentRound s) <= id (currentRound (execs cs s)).
Proof.
  induction cs as [|c cs IH]; intros s; simpl; [lia|].
  pose proof (exec_id_mono c s). pose proof (IH (exec c s)). lia.
Qed.

Lemma execs_highestTotal_mono cs : forall s j,
  id (currentRound (execs cs s)) = id (currentRound s) ->
  highestTotal (slotOf s j) <= highestTotal (slotOf (execs cs s) j).
Proof.
  induction cs as [|c cs IH]; intros s j Hid; simpl in *; [lia|].
  pose proof (exec_id_mono c s) as H1.
  pose proof (execs_id_mono cs (exec c s)) as H2.
  assert (Hc : id (currentRound (exec c s)) = id (currentRound s)) by lia.
  transitivity (highestTotal (slotOf (exec c s) j)).
  - destruct (exec_cases c s) as [(s' & H & Hs')|(e & _ & ->)]; [|lia].
    rewrite Hs' in *. by apply step_highestTotal_mono with c.
  - apply IH. congruence.
Qed.

Lemma step_slots_unchanged c s s' :
  step c s = Ok s' -> id (currentRound s') = id (currentRound s) ->
  (forall i w a, op c <> Bid i w a) -> slots s' = slots s.
Proof.
  intros H Hid Hnb. step_inv H; simpl in Hid; try lia; try reflexivity.
  exfalso. eapply Hnb. reflexivity.
Qed.

(** C5.  (1) Over any history of calls that stays in one round (the round id
    at the end is the one at the start), highestTotal of every slot never
    decreases.  (2) A successful bid by [who] on slot [i] changes the owner
    or the word of a slot [j] only if [j = i] and the bidder's new
    cumulative total [c] for the slot is strictly above the slot's
    highestTotal before the bid; the slot then holds the bidder's word, the
    bidder as owner and [c].  (3) When [c] is at most the old highestTotal,
    in particular on a tie, every slot (owner, word, highestTotal) is
    unchanged.  (4) A successful call other than a bid that stays in the
    round leaves all slots unchanged. *)
Theorem slot_ownership_monotone :
  (forall cs s j,
     id (currentRound (execs cs s)) = id (currentRound s) ->
     highestTotal (slotOf s j) <= highestTotal (slotOf (execs cs s) j))
  /\ (forall env who i w a s s',
        bid env who i w a s = Ok s' ->
        let c := cumulativeBids s' (id (currentRound s)) i who in
        (forall j,
           owner (slotOf s' j) <> owner (slotOf s j)
           \/ word (slotOf s' j) <> word (slotOf s j) ->
           j = i /\ highestTotal (slotOf s i) < c
           /\ slotOf s' i = mkWordSlot w who c)
        /\ (c <= highestTotal (slotOf s i) -> forall j, slotOf s' j = slotOf s j))
  /\ (forall c s s',
        step c s = Ok s' -> id (currentRound s') = id (currentRound s) ->
        (forall i w a, op c <> Bid i w a) -> slots s' = slots s).
Proof.
  split; [intros; by apply execs_highestTotal_mono|].
  split; [|intros; by eapply step_slots_unchanged].
  intros env who i w a s s' H c.
  assert (Hc : c = cumulativeBids s (id (currentRound s)) i who + a)
    by (subst c; apply (bid_slotOf _ _ _ _ _ _ _ i H)).
  split.
  - intros j Hch. destruct (bid_slotOf _ _ _ _ _ _ _ j H) as [_ Hj].
    simpl in Hj. rewrite <- Hc in Hj.
    destruct (N.ltb_spec (highestTotal (slotOf s i)) c) as [Hlt|Hge]; simpl in Hj.
    + destruct (N.eqb_spec j i) as [->|Hne]; simpl in Hj.
      * auto.
      * rewrite Hj in Hch. tauto.
    + rewrite Hj in Hch. tauto.
  - intros Hle j. destruct (bid_slotOf _ _ _ _ _ _ _ j H) as [_ Hj].
    simpl in Hj. rewrite <- Hc in Hj.
    destruct (N.ltb_spec (highestTotal (slotOf s i)) c); [lia | exact Hj].
Qed.

(** Alice holds slot 0 with 10; Bob bids 10 on it: a tie, the slot stays
    Alice's. *)
Lemma slot_ownership_monotone_witness :
  let s := exec (Scenario.call 1001 Scenario.alice (Bid 0 "a" 10)) Scenario.seeded in
  let s' := exec (Scenario.call 1002 Scenario.bob (Bid 0 "b" 10)) s in
  cumulativeBids s' (id (currentRound s)) 0 Scenario.bob = highestTotal (slotOf s 0)
  /\ slotOf s' 0 = slotOf s 0
  /\ owner (slotOf s' 0) = Scenario.alice.
Proof.
  intros s s'.
  assert (Hb : bid (Scenario.at_ 1002) Scenario.bob 0 "b" 10 s = Ok s')
    by (vm_compute; reflexivity).
  assert (Htie : cumulativeBids s' (id (currentRound s)) 0 Scenario.bob
                 = highestTotal (slotOf s 0)) by (vm_compute; reflexivity).
  destruct slot_ownership_monotone as (_ & G2 & _).
  destruct (G2 _ _ _ _ _ _ _ Hb) as [_ Hsame].
  assert (Hle : cumulativeBids s' (id (currentRound s)) 0 Scenario.bob
                <= highestTotal (slotOf s 0)) by (rewrite Htie; reflexivity).
  split; [exact Htie|]. split; [exact (Hsame Hle 0)|].
  rewrite (Hsame Hle 0). vm_compute. reflexivity.
Defined.

(** ** C8: two bids of X then Y against one bid of X + Y *)

(** C8.  From the same storage, let a participant bid X and then Y on a
    slot (two successful bids, any words, any times, nothing in between),
    or bid X + Y once (successfully).  Both ways end with the same
    cumulative total for (round, slot, participant), the same owner of the
    slot and the same highestTotal. *)
Theorem bid_twice_as_once env1 env2 env3 who i w1 w2 w3 x y s s1 s2 s3 :
  bid env1 who i w1 x s = Ok s1 ->
  bid env2 who i w2 y s1 = Ok s2 ->
  bid env3 who i w3 (x + y) s = Ok s3 ->
  let r := id (currentRound s) in
  cumulativeBids s2 r i who = cumulativeBids s3 r i who
  /\ owner (slotOf s2 i) = owner (slotOf s3 i)
  /\ highestTotal (slotOf s2 i) = highestTotal (slotOf s3 i).
Proof.
  intros H1 H2 H3 r.
  assert (Hid : id (currentRound s1) = r).
  { apply bid_state in H1. subst s1. unfold bidState, bidRound, clockStarted. simpl.
    destruct (startedAt (currentRound s) =? 0); reflexivity. }
  destruct (bid_slotOf _ _ _ _ _ _ _ i H1) as [Hc1 Hs1].
  destruct (bid_slotOf _ _ _ _ _ _ _ i H2) as [Hc2 Hs2].
  destruct (bid_slotOf _ _ _ _ _ _ _ i H3) as [Hc3 Hs3].
  simpl in *. rewrite Hid in *. fold r in Hc1, Hs1, Hc3, Hs3.
  rewrite N.eqb_refl, andb_true_r in Hs1, Hs2, Hs3.
  rewrite Hc1 in Hc2, Hs2. rewrite Hc2, Hc3, Hs2, Hs3, Hs1.
  split; [lia|].
  destruct (N.ltb_spec (highestTotal (slotOf s i)) (cumulativeBids s r i who + x));
    destruct (N.ltb_spec (highestTotal (slotOf s i)) (cumulativeBids s r i who + (x + y)));
    simpl;
    repeat match goal with
           | |- context [?a <? ?b] => destruct (N.ltb_spec a b); simpl
           end;
    split; solve [reflexivity | lia].
Qed.

(** Bob holds slot 0 with 20.  Alice (cumulative 10) bids 5 then 10, or 15
    at once: cumulative 25 and the slot either way. *)
Lemma bid_twice_as_once_witness :
  let s := execs [Scenario.call 1001 Scenario.alice (Bid 0 "a" 10);
                  Scenario.call 1002 Scenario.bob (Bid 0 "b" 20)] Scenario.seeded in
  let s1 := exec (Scenario.call 1003 Scenario.alice (Bid 0 "x" 5)) s in
  let s2 := exec (Scenario.call 1004 Scenario.alice (Bid 0 "y" 10)) s1 in
  let s3 := exec (Scenario.call 1003 Scenario.alice (Bid 0 "z" 15)) s in
  cumulativeBids s2 (id (currentRound s)) 0 Scenario.alice = 25
  /\ cumulativeBids s2 (id (currentRound s)) 0 Scenario.alice
     = cumulativeBids s3 (id (currentRound s)) 0 Scenario.alice
  /\ owner (slotOf s2 0) = owner (slotOf s3 0).
Proof.
  intros s s1 s2 s3.
  assert (H1 : bid (Scenario.at_ 1003) Scenario.alice 0 "x" 5 s = Ok s1)
    by (vm_compute; reflexivity).
  assert (H2 : bid (Scenario.at_ 1004) Scenario.alice 0 "y" 10 s1 = Ok s2)
    by (vm_compute; reflexivity).
  assert (H3 : bid (Scenario.at_ 1003) Scenario.alice 0 "z" (5 + 10) s = Ok s3)
    by (vm_compute; reflexivity).
  destruct (bid_twice_as_once _ _ _ _ _ _ _ _ _ _ _ _ _ _ H1 H2 H3) as (Hc & Ho & _).
  split; [vm_compute; reflexivity|]. split; [exact Hc | exact Ho].
Defined.

(** ** C6: the slot cap *)

Lemma bid_prefix env who slotIndex w amount s :
  bid env who slotIndex w amount s
  = (let! s5 := bidPrefix env who slotIndex w amount s in
     let! s6 := updateSlot (id (currentRound s)) slotIndex who w s5 in
     safeTransferFrom env who amount s6).
Proof.
  unfold bid, bidPrefix, bidChecks.
  repeat match goal with
         | |- context [bind ?r _] =>
             lazymatch r with
             | bind _ _ => fail
             | _ => destruct r; simpl; try reflexivity
             end
         end.
Qed.

Lemma bidPrefix_Ok env who slotIndex w amount s s5 :
  bidPrefix env who slotIndex w amount s = Ok s5 ->
  bidChecks env slotIndex w amount s = Ok tt
  /\ slots s5 = slots s
  /\ playerSlotCount s5 = playerSlotCount s
  /\ maxSlotsPerPlayer s5 = maxSlotsPerPlayer s
  /\ cumulativeBids s5 (id (currentRound s)) slotIndex who
     = cumulativeBids s (id (currentRound s)) slotIndex who + amount.
Proof.
  unfold bidPrefix. intros H.
  apply bind_Ok in H. destruct H as ([] & Hc & H). simpl in H.
  apply bind_Ok in H. destruct H as (s1 & H1 & H).
  apply bind_Ok in H. destruct H as (s2 & H2 & H).
  apply bind_Ok in H. destruct H as (s3 & H3 & H).
  apply bind_Ok in H. destruct H as (s4 & H4 & H).
  injection H as <-.
  apply startClock_Ok in H1. destruct H1 as (-> & _).
  apply antiSnipe_Ok in H2. destruct H2 as (_ & ->).
  apply updateCumulative_Ok in H3. destruct H3 as (-> & _).
  apply bidSplit_Ok in H4. destruct H4 as (_ & ->).
  rewrite trackPlayer_eq. simpl. rewrite upd3_eq. auto.
Qed.

(** A bid that reaches the slot update, would take the slot from another
    owner, and finds the bidder at the cap, reverts with SlotCapReached. *)
Lemma bid_SlotCapReached env who slotIndex w amount s s5 :
  bidPrefix env who slotIndex w amount s = Ok s5 ->
  is_Some (slots s !! N.to_nat slotIndex) ->
  highestTotal (slotOf s slotIndex)
  < cumulativeBids s (id (currentRound s)) slotIndex who + amount ->
  owner (slotOf s slotIndex) <> who ->
  maxSlotsPerPlayer s <= playerSlotCount s (id (currentRound s)) who ->
  bid env who slotIndex w amount s = Revert SlotCapReached.
Proof.
  intros H5 [slot Hs] Hhi Hown Hcap. rewrite bid_prefix, H5. simpl.
  apply bidPrefix_Ok in H5. destruct H5 as (_ & Hsl & Hpsc & Hmax & Hcum).
  unfold updateSlot, slotAt, enforceCap. rewrite Hsl, Hs, Hcum, Hpsc, Hmax. simpl.
  unfold slotOf, slotIn in Hhi, Hown. rewrite Hs in Hhi, Hown. simpl in Hhi, Hown.
  destruct (N.ltb_spec (highestTotal slot)
              (cumulativeBids s (id (currentRound s)) slotIndex who + amount)); [|lia].
  destruct (N.eqb_spec (owner slot) who); [contradiction|]. simpl.
  destruct (N.leb_spec (maxSlotsPerPlayer s)
              (playerSlotCount s (id (currentRound s)) who)); [reflexivity | lia].
Qed.

(** Counting owners through a slot write. *)
Lemma ownedIn_insert p sl : forall i old new,
  sl !! i = Some old ->
  ownedIn p (<[i := new]> sl) + (if owner old =? p then 1 else 0)
  = ownedIn p sl + (if owner new =? p then 1 else 0).
Proof.
  induction sl as [|x sl IH]; intros [|i] old new H; simpl in *; try discriminate.
  - injection H as ->. lia.
  - specialize (IH _ _ new H). lia.
Qed.

Lemma ownedIn_replicate_empty p n : p <> 0 -> ownedIn p (replicate n emptySlot) = 0.
Proof.
  intros Hp. induction n as [|n IH]; [reflexivity|].
  cbn [replicate ownedIn owner emptySlot]. rewrite IH.
  destruct (N.eqb_spec 0 p); [congruence | reflexivity].
Qed.

Lemma clearSlots_twelve sl :
  length sl = N.to_nat NUM_SLOTS ->
  clearSlots sl = replicate (N.to_nat NUM_SLOTS) emptySlot.
Proof.
  intros H. unfold clearSlots.
  do 13 (destruct sl as [|? sl]; [try discriminate H|]); [reflexivity|discriminate H].
Qed.

Lemma ownedIn_pos p sl i w :
  sl !! i = Some w -> owner w = p -> 1 <= ownedIn p sl.
Proof.
  revert i. induction sl as [|x sl IH]; intros [|i] H Ho; simpl in *; try discriminate.
  - injection H as ->. rewrite Ho, N.eqb_refl. lia.
  - specialize (IH _ H Ho). lia.
Qed.

Lemma id_bidState env who i w a s :
  id (currentRound (bidState env who i w a s)) = id (currentRound s).
Proof.
  unfold bidState, bidRound, clockStarted. simpl.
  destruct (startedAt (currentRound s) =? 0); reflexivity.
Qed.

Lemma capUpdate_lookup psc r who prev p :
  prev <> who ->
  capUpdate psc r who prev r p
  = if p =? who then psc r who + 1
    else if (p =? prev) && negb (prev =? 0) then psc r prev - 1
    else psc r p.
Proof.
  intros Hne. unfold capUpdate.
  destruct (N.eqb_spec prev 0) as [Hz|Hz]; simpl.
  - rewrite andb_false_r. destruct (N.eqb_spec p who) as [->|Hp].
    + by rewrite upd2_eq.
    + by rewrite upd2_ne.
  - rewrite andb_true_r. destruct (N.eqb_spec p who) as [->|Hp].
    + by rewrite upd2_ne, upd2_eq.
    + destruct (N.eqb_spec p prev) as [->|Hp'].
      * by rewrite upd2_eq, upd2_ne.
      * by rewrite !upd2_ne.
Qed.

Lemma capUpdate_other_round psc r who prev r' :
  r <> r' -> capUpdate psc r who prev r' = psc r'.
Proof.
  intros Hne. unfold capUpdate.
  destruct (prev =? 0); by rewrite ?upd2_other_round.
Qed.

Lemma bid_preserves_SlotInv env who i w a s s' :
  bid env who i w a s = Ok s' ->
  SlotInv s -> SlotInv s' /\ (CapOk s -> CapOk s').
Proof.
  intros H (Hlen & Hcnt & Hfresh).
  pose proof (bid_conditions _ _ _ _ _ _ _ H) as (_ & [old Hold] & Hcap & _).
  apply bid_state in H. subst s'.
  unfold SlotInv, CapOk, ownedSlots in *. rewrite id_bidState.
  unfold bidState. simpl. unfold bidSlots, bidCounts.
  unfold slotOf, slotIn in *. rewrite Hold in *. simpl in *.
  set (r := id (currentRound s)) in *.
  set (c := cumulativeBids s r i who + a) in *.
  destruct (N.ltb_spec (highestTotal old) c) as [Hhi|Hlo]; simpl.
  2:{ split; [|auto]. repeat split; auto. }
  assert (Hins : forall p,
            ownedIn p (<[N.to_nat i := mkWordSlot w who c]> (slots s))
            + (if owner old =? p then 1 else 0)
            = ownedIn p (slots s) + (if who =? p then 1 else 0)).
  { intros p. by apply ownedIn_insert. }
  destruct (N.eqb_spec (owner old) who) as [Heq|Hne]; simpl.
  - (* the bidder already owns the slot *)
    assert (Hsame : forall p,
              ownedIn p (<[N.to_nat i := mkWordSlot w who c]> (slots s))
              = ownedIn p (slots s)).
    { intros p. specialize (Hins p). rewrite Heq in Hins. lia. }
    split.
    + split; [by rewrite length_insert|]. split; [|assumption].
      intros p Hp. rewrite Hsame. by apply Hcnt.
    + intros Hc p Hp. rewrite Hsame. by apply Hc.
  - (* the slot changes hands *)
    destruct (Hcap Hhi Hne) as [Hlt Hprev].
    assert (Hown : forall p, owner old = p -> 1 <= ownedIn p (slots s))
      by (intros p; by apply ownedIn_pos with (N.to_nat i)).
    assert (Hnew : forall p, p <> 0 ->
              capUpdate (playerSlotCount s) r who (owner old) r p
              = ownedIn p (<[N.to_nat i := mkWordSlot w who c]> (slots s))).
    { intros p Hp. rewrite capUpdate_lookup by assumption.
      specialize (Hins p). specialize (Hown p).
      destruct (N.eqb_spec p who) as [->|Hpw].
      - rewrite N.eqb_refl in Hins. rewrite (Hcnt who Hp).
        destruct (N.eqb_spec (owner old) who); [contradiction | lia].
      - destruct (N.eqb_spec who p); [congruence|].
        destruct (N.eqb_spec p (owner old)) as [->|Hpo]; simpl.
        + rewrite N.eqb_refl in Hins.
          destruct (N.eqb_spec (owner old) 0); [contradiction|]. simpl.
          rewrite (Hcnt (owner old) Hp). specialize (Hown eq_refl). lia.
        + destruct (N.eqb_spec (owner old) p); [congruence|].
          rewrite (Hcnt p Hp). lia. }
    split.
    + split; [by rewrite length_insert|]. split; [assumption|].
      intros r' p Hr'. rewrite capUpdate_other_round by lia. by apply Hfresh.
    + intros Hc p Hp. rewrite <- (Hnew p Hp), capUpdate_lookup by assumption.
      specialize (Hc p Hp). rewrite <- (Hcnt p Hp) in Hc.
      destruct (N.eqb_spec p who) as [->|Hpw]; [lia|].
      destruct ((p =? owner old) && negb (owner old =? 0)) eqn:E; [|assumption].
      apply andb_true_iff in E. destruct E as [E _]. apply N.eqb_eq in E. subst p. lia.
Qed.

Lemma SlotInv_frame s s' :
  slots s' = slots s -> playerSlotCount s' = playerSlotCount s ->
  id (currentRound s') = id (currentRound s) ->
  SlotInv s -> SlotInv s'.
Proof.
  unfold SlotInv, ownedSlots. intros -> -> ->. auto.
Qed.

Lemma SlotInv_next s s' :
  slots s' = clearSlots (slots s) -> playerSlotCount s' = playerSlotCount s ->
  id (currentRound s') = id (currentRound s) + 1 ->
  SlotInv s -> SlotInv s'.
Proof.
  unfold SlotInv, ownedSlots. intros -> -> -> (Hlen & _ & Hfresh).
  rewrite clearSlots_twelve by assumption.
  split; [apply length_replicate|]. split.
  - intros p Hp. rewrite ownedIn_replicate_empty by assumption.
    apply Hfresh. lia.
  - intros r p Hr. apply Hfresh. lia.
Qed.

Lemma CapOk_frame s s' :
  slots s' = slots s -> maxSlotsPerPlayer s <= maxSlotsPerPlayer s' ->
  CapOk s -> CapOk s'.
Proof.
  unfold CapOk, ownedSlots. intros -> Hle H p Hp. specialize (H p Hp). lia.
Qed.

Lemma CapOk_next s s' :
  slots s' = clearSlots (slots s) -> SlotInv s -> CapOk s'.
Proof.
  unfold CapOk, ownedSlots. intros -> (Hlen & _) p Hp.
  rewrite clearSlots_twelve, ownedIn_replicate_empty by assumption. lia.
Qed.

Lemma step_preserves_SlotInv c s s' :
  step c s = Ok s' -> SlotInv s -> SlotInv s'.
Proof.
  intros H Hinv. destruct (op c) eqn:Hop;
    try (unfold step in H; rewrite Hop in H;
         by apply (bid_preserves_SlotInv _ _ _ _ _ _ _ H)).
  all: step_inv H; try discriminate Hop;
    try (unfold started; destruct (0 <? _));
    first [ apply (SlotInv_frame s); [reflexivity | reflexivity | reflexivity | assumption]
          | apply (SlotInv_next s); [reflexivity | reflexivity | reflexivity | assumption] ].
Qed.

Lemma step_preserves_CapOk c s s' :
  step c s = Ok s' -> SlotInv s -> CapOk s ->
  (forall cap, op c = SetMaxSlotsPerPlayer cap -> maxSlotsPerPlayer s <= cap) ->
  CapOk s'.
Proof.
  intros H Hinv Hcap Hlow. destruct (op c) eqn:Hop;
    try (unfold step in H; rewrite Hop in H;
         by apply (bid_preserves_SlotInv _ _ _ _ _ _ _ H)).
  all: step_inv H; try discriminate Hop;
    try (unfold started; destruct (0 <? _));
    first [ apply (CapOk_frame s); [reflexivity | reflexivity | assumption]
          | apply (CapOk_next s); [reflexivity | assumption]
          | apply (CapOk_frame s); [reflexivity | simpl; by apply Hlow | assumption] ].
Qed.

Lemma constructor_SlotInv who _oracle _minBid _roundDuration _rakeBps _splitBps s :
  constructor who _oracle _minBid _roundDuration _rakeBps _splitBps = Ok s ->
  SlotInv s /\ CapOk s.
Proof.
  unfold constructor. intros H. inv_ok.
  unfold SlotInv, CapOk, ownedSlots.
  cbn [slots playerSlotCount currentRound id maxSlotsPerPlayer].
  split; [split; [reflexivity | split; [|reflexivity]]|].
  - intros p Hp. symmetry. by apply (ownedIn_replicate_empty p 12).
  - intros p Hp. pose proof (ownedIn_replicate_empty p 12 Hp) as E.
    simpl in E. simpl. lia.
Qed.

Lemma exec_preserves_SlotInv c s : SlotInv s -> SlotInv (exec c s).
Proof.
  intros H. destruct (exec_cases c s) as [(s' & Hs & ->)|(e & _ & ->)]; [|assumption].
  by apply (step_preserves_SlotInv c s).
Qed.

Lemma execs_preserves_SlotInv cs : forall s, SlotInv s -> SlotInv (execs cs s).
Proof.
  induction cs as [|c cs IH]; intros s H; simpl; [assumption|].
  apply IH. by apply exec_preserves_SlotInv.
Qed.

Lemma execs_preserves_CapOk cs : forall s,
  Forall (fun c => forall cap, op c <> SetMaxSlotsPerPlayer cap) cs ->
  SlotInv s -> CapOk s -> CapOk (execs cs s).
Proof.
  induction cs as [|c cs IH]; intros s Hcs Hinv Hcap; simpl; [assumption|].
  inversion Hcs as [|? ? Hc Hrest]; subst.
  apply IH; [assumption | by apply exec_preserves_SlotInv |].
  destruct (exec_cases c s) as [(s' & Hs & ->)|(e & _ & ->)]; [|assumption].
  apply (step_preserves_CapOk c s); try assumption.
  intros cap Hop. exfalso. by apply (Hc cap).
Qed.

(** C6, amended.  The cap is enforced when a slot changes hands, against
    the value of maxSlotsPerPlayer in force at that bid.
    (1) A bid that reaches the slot update and would transfer the slot to a
    participant different from its current owner rejects with
    SlotCapReached, leaving the storage as it was, when that participant
    already owns maxSlotsPerPlayer slots or more this round.
    (2) Otherwise, when such a bid succeeds, the bidder owned fewer than
    maxSlotsPerPlayer slots, the bidder's slot count is incremented and the
    previous owner's, if there was one, decremented.
    (3) The bookkeeping [SlotInv] (playerSlotCount of the round = slots
    owned) holds after the constructor and after every call.
    (4) "No participant owns more than maxSlotsPerPlayer slots" holds after
    the constructor and is preserved by every call except a
    setMaxSlotsPerPlayer that lowers the cap, hence (5) over any history
    that does not change the cap.  Lowering the cap takes no slot away. *)
Theorem slot_cap_enforced :
  (forall env who i w a s s5,
     bidPrefix env who i w a s = Ok s5 -> SlotInv s -> who <> 0 ->
     highestTotal (slotOf s i) < cumulativeBids s (id (currentRound s)) i who + a ->
     owner (slotOf s i) <> who ->
     maxSlotsPerPlayer s <= ownedSlots s who ->
     bid env who i w a s = Revert SlotCapReached
     /\ exec (mkCall env who (Bid i w a)) s = s)
  /\ (forall env who i w a s s',
        bid env who i w a s = Ok s' ->
        let r := id (currentRound s) in
        let prev := owner (slotOf s i) in
        highestTotal (slotOf s i) < cumulativeBids s r i who + a ->
        prev <> who ->
        playerSlotCount s r who < maxSlotsPerPlayer s
        /\ owner (slotOf s' i) = who
        /\ playerSlotCount s' r who = playerSlotCount s r who + 1
        /\ (prev <> 0 ->
              1 <= playerSlotCount s r prev
              /\ playerSlotCount s' r prev = playerSlotCount s r prev - 1))
  /\ (forall who _oracle _minBid _roundDuration _rakeBps _splitBps s,
        constructor who _oracle _minBid _roundDuration _rakeBps _splitBps = Ok s ->
        SlotInv s /\ CapOk s)
  /\ (forall c s, SlotInv s -> SlotInv (exec c s))
  /\ (forall c s s',
        step c s = Ok s' -> SlotInv s -> CapOk s ->
        (forall cap, op c = SetMaxSlotsPerPlayer cap -> maxSlotsPerPlayer s <= cap) ->
        CapOk s')
  /\ (forall cs s,
        Forall (fun c => forall cap, op c <> SetMaxSlotsPerPlayer cap) cs ->
        SlotInv s -> CapOk s -> CapOk (execs cs s)).
Proof.
  split.
  { intros env who i w a s s5 H5 Hinv Hwho Hhi Hown Hcap.
    assert (Hrev : bid env who i w a s = Revert SlotCapReached).
    { pose proof (bidPrefix_Ok _ _ _ _ _ _ _ H5) as (Hc & _).
      apply bidChecks_Ok in Hc. destruct Hc as (_ & _ & _ & _ & Hi & _).
      destruct Hinv as (Hlen & Hcnt & _).
      apply (bid_SlotCapReached _ _ _ _ _ _ s5); try assumption.
      - apply lookup_lt_is_Some. rewrite Hlen. unfold NUM_SLOTS in *. lia.
      - by rewrite Hcnt. }
    split; [exact Hrev|]. unfold exec, step. simpl. by rewrite Hrev. }
  split.
  { intros env who i w a s s' H r prev Hhi Hne.
    pose proof (bid_conditions _ _ _ _ _ _ _ H) as (_ & _ & Hcap & _).
    destruct (Hcap Hhi Hne) as [Hlt Hprev].
    destruct (bid_slotOf _ _ _ _ _ _ _ i H) as [_ Hslot].
    apply bid_state in H. subst s'. simpl in Hslot.
    fold r in Hslot. rewrite Hslot.
    destruct (N.ltb_spec (highestTotal (slotOf s i)) (cumulativeBids s r i who + a));
      [|lia].
    rewrite N.eqb_refl. simpl. split; [assumption|]. split; [reflexivity|].
    unfold bidCounts. fold (slotOf s i) r prev.
    destruct (N.ltb_spec (highestTotal (slotOf s i)) (cumulativeBids s r i who + a));
      [|lia].
    destruct (N.eqb_spec prev who); [contradiction|]. simpl.
    rewrite !capUpdate_lookup by assumption. rewrite N.eqb_refl.
    split; [reflexivity|]. intros Hz. split; [by apply Hprev|].
    destruct (N.eqb_spec prev who); [contradiction|].
    destruct (N.eqb_spec prev 0); [contradiction|]. by rewrite N.eqb_refl. }
  split; [apply constructor_SlotInv|].
  split; [intros; by apply exec_preserves_SlotInv|].
  split; [intros; by eapply step_preserves_CapOk|].
  intros; by apply execs_preserves_CapOk.
Qed.

Lemma deploy_SlotInv a b c d :
  c <= MAX_RAKE_BPS -> d <= 10000 ->
  SlotInv (Scenario.deploy a b c d) /\ CapOk (Scenario.deploy a b c d).
Proof.
  intros Hc Hd. apply (constructor_SlotInv Scenario.deployer Scenario.oracle a b c d).
  unfold Scenario.deploy, constructor.
  destruct (N.ltb_spec MAX_RAKE_BPS c); [lia|].
  destruct (N.ltb_spec 10000 d); [lia|]. reflexivity.
Qed.

(** Alice holds six slots, the cap; her bid on a seventh is refused and
    changes nothing. *)
Lemma slot_cap_enforced_witness :
  let s := Scenario.sixSlots in
  ownedSlots s Scenario.alice = 6
  /\ bid (Scenario.at_ 1007) Scenario.alice 6 "g" 1 s = Revert SlotCapReached
  /\ exec (Scenario.call 1007 Scenario.alice (Bid 6 "g" 1)) s = s.
Proof.
  intros s.
  assert (H5 : exists s5, bidPrefix (Scenario.at_ 1007) Scenario.alice 6 "g" 1 s = Ok s5)
    by (eexists; vm_compute; reflexivity).
  destruct H5 as [s5 H5].
  assert (Hinv : SlotInv s).
  { apply execs_preserves_SlotInv. apply exec_preserves_SlotInv.
    apply deploy_SlotInv; vm_compute; discriminate. }
  assert (Hwho : Scenario.alice <> 0) by discriminate.
  assert (Hhi : highestTotal (slotOf s 6)
                < cumulativeBids s (id (currentRound s)) 6 Scenario.alice + 1)
    by (vm_compute; reflexivity).
  assert (Hown : owner (slotOf s 6) <> Scenario.alice) by (vm_compute; discriminate).
  assert (Hcap : maxSlotsPerPlayer s <= ownedSlots s Scenario.alice)
    by (vm_compute; discriminate).
  split; [vm_compute; reflexivity|].
  exact (proj1 slot_cap_enforced _ _ _ _ _ _ _ H5 Hinv Hwho Hhi Hown Hcap).
Defined.

(** C6 as stated fails once the owner lowers the cap during a round.  In
    round 1 Alice holds slots 0 and 1 under the cap of 6; the owner's
    [setMaxSlotsPerPlayer(1)] goes through; the round is still running and
    Alice owns 2 slots, more than maxSlotsPerPlayer = 1. *)
Lemma cap_lowered_counterexample :
  step (Scenario.call 1003 Scenario.deployer (SetMaxSlotsPerPlayer 1)) Scenario.twoSlots
  = Ok Scenario.capLowered
  /\ id (currentRound Scenario.capLowered) = 1
  /\ resolved (currentRound Scenario.capLowered) = false
  /\ 1003 < endTime (currentRound Scenario.capLowered)
  /\ maxSlotsPerPlayer Scenario.capLowered = 1
  /\ ownedSlots Scenario.capLowered Scenario.alice = 2
  /\ playerSlotCount Scenario.capLowered 1 Scenario.alice = 2
  /\ ~ (ownedSlots Scenario.capLowered Scenario.alice
        <= maxSlotsPerPlayer Scenario.capLowered).
Proof.
  repeat split; try (vm_compute; reflexivity).
  vm_compute. intros H. apply H. reflexivity.
Qed.

(** ** C2: the solo refund and the carried seed *)

Lemma sumN_map_insert_notin (f : address -> N) who v l :
  ~ In who l -> sumN (map (<[who := v]> f) l) = sumN (map f l).
Proof.
  induction l as [|x l IH]; intros Hn; simpl; [reflexivity|].
  rewrite fn_lookup_insert_ne by (intros ->; apply Hn; by left).
  rewrite IH; [reflexivity|]. intros Hin. apply Hn. by right.
Qed.

Lemma sumN_map_insert_in (f : address -> N) who v l :
  List.NoDup l -> In who l ->
  sumN (map (<[who := v]> f) l) + f who = sumN (map f l) + v.
Proof.
  induction l as [|x l IH]; intros Hnd Hin; simpl; [contradiction|].
  apply NoDup_cons_iff in Hnd. destruct Hnd as [Hx Hnd].
  destruct Hin as [->|Hin].
  - rewrite fn_lookup_insert, sumN_map_insert_notin by assumption. lia.
  - rewrite fn_lookup_insert_ne by (intros ->; contradiction).
    specialize (IH Hnd Hin). lia.
Qed.

(** A successful bid adds its amount to the sum of the players' spends, and
    keeps the books. *)
Lemma bid_Books env who i w a s s' :
  bid env who i w a s = Ok s' -> Books s ->
  Books s' /\ sumN (spends s') = sumN (spends s) + a.
Proof.
  intros H (Hnd & Hip & Hz & Hfresh). apply bid_state in H. subst s'.
  unfold Books, spends, players in *. rewrite id_bidState.
  unfold bidState, playersAfter, isPlayerAfter. simpl.
  set (r := id (currentRound s)) in *.
  destruct (_isPlayer s r who) eqn:Hwho.
  - (* already a player *)
    assert (Hin : In who (_roundPlayers s r)) by (by apply Hip).
    split.
    + split; [assumption|]. split; [assumption|]. split.
      * intros p Hp. destruct (N.eq_dec who p) as [<-|Hne]; [congruence|].
        rewrite upd2_ne by assumption. by apply Hz.
      * intros r' Hr'. destruct (Hfresh r' Hr') as [Hpl Hrest].
        split; [assumption|]. intros p. rewrite upd2_other_round by lia. apply Hrest.
    + rewrite upd2_same_round.
      pose proof (sumN_map_insert_in (totalSpent s r) who
                    (totalSpent s r who + a) _ Hnd Hin). lia.
  - (* first bid of this participant in the round *)
    assert (Hnin : ~ In who (_roundPlayers s r)).
    { intros Hin. apply Hip in Hin. congruence. }
    rewrite fn_lookup_insert. split.
    + split.
      { apply NoDup_app; [assumption | |].
        - apply NoDup_cons; [intros [] | apply NoDup_nil].
        - intros x Hx [<-|[]]. contradiction. }
      split.
      { intros p. rewrite in_app_iff. destruct (N.eq_dec who p) as [<-|Hne].
        - rewrite upd2_eq. simpl. tauto.
        - rewrite upd2_ne by assumption. rewrite Hip. simpl. intuition congruence. }
      split.
      { intros p. destruct (N.eq_dec who p) as [<-|Hne].
        - rewrite upd2_eq. discriminate.
        - rewrite !upd2_ne by assumption. apply Hz. }
      intros r' Hr'. destruct (Hfresh r' Hr') as [Hpl Hrest].
      rewrite fn_lookup_insert_ne by lia. split; [assumption|].
      intros p. rewrite !upd2_other_round by lia. apply Hrest.
    + rewrite upd2_same_round, map_app, sumN_app. simpl.
      rewrite fn_lookup_insert, sumN_map_insert_notin by assumption.
      rewrite (Hz who Hwho). lia.
Qed.

Lemma bid_split_le env who i w a s s' :
  bid env who i w a s = Ok s' -> toCurrentPot a s <= a.
Proof.
  intros H. apply bid_Ok in H. simpl in H.
  destruct H as (_ & s1 & s2 & s3 & s4 & s6 & H1 & H2 & H3 & H4 & _).
  apply startClock_Ok in H1. destruct H1 as (-> & _).
  apply antiSnipe_Ok in H2. destruct H2 as (_ & ->).
  apply updateCumulative_Ok in H3. destruct H3 as (-> & _).
  apply bidSplit_Ok in H4. destruct H4 as (Hle & _). exact Hle.
Qed.

Lemma Books_frame s s' :
  _roundPlayers s' = _roundPlayers s -> _isPlayer s' = _isPlayer s ->
  totalSpent s' = totalSpent s -> id (currentRound s') = id (currentRound s) ->
  Books s -> Books s'.
Proof. unfold Books, players. intros -> -> -> ->. auto. Qed.

(** Along a round, pool and next-round pool together hold the seed, the
    direct funding and what the players spent. *)
Lemma InRound_accounts s0 F s :
  created s0 -> InRound s0 F s ->
  Books s
  /\ id (currentRound s) = id (currentRound s0)
  /\ resolved (currentRound s) = false
  /\ prizePool (currentRound s) + nextPrizePool s
     = prizePool (currentRound s0) + F + sumN (spends s).
Proof.
  intros (Hb0 & Hp0 & Hn0 & Hr0) Hin.
  induction Hin as [|F s c s' Hin IH Hstep Hid Hres].
  - split; [assumption|]. split; [reflexivity|]. split; [assumption|].
    unfold spends. rewrite Hp0, Hn0. simpl. lia.
  - destruct IH as (Hb & Hids & Hrs & Hacc).
    rewrite <- Hids in Hid.
    destruct (op c) eqn:Hop; unfold fundedBy; rewrite Hop.
    4:{ (* bid *)
        unfold step in Hstep. rewrite Hop in Hstep.
        destruct (bid_Books _ _ _ _ _ _ _ Hstep Hb) as [Hb' Hsum].
        pose proof (bid_split_le _ _ _ _ _ _ _ Hstep) as Hle.
        split; [assumption|]. split; [congruence|]. split; [assumption|].
        rewrite Hsum. apply bid_state in Hstep. subst s'.
        unfold bidState, bidRound, clockStarted. simpl.
        destruct (startedAt (currentRound s) =? 0); simpl; lia. }
    all: step_inv Hstep; try discriminate Hop; simpl in Hid, Hres;
      try lia; try discriminate Hres;
      (split; [apply (Books_frame s); [reflexivity.. | assumption]|]);
      (split; [simpl; congruence|]); (split; [assumption|]);
      unfold spends, players; simpl; fold (players s) (spends s);
      try (injection Hop as <-); lia.
Qed.

(** * Further properties of the contract and of the oracle bot *)

(** ** Configuration bounds and who may change the configuration *)

Lemma exec_invariant (P : State -> Prop) :
  (forall c s s', step c s = Ok s' -> P s -> P s') ->
  forall cs s, P s -> P (execs cs s).
Proof.
  intros Hstep cs. induction cs as [|c cs IH]; intros s H; simpl; [assumption|].
  apply IH. destruct (exec_cases c s) as [(s' & Hs & ->)|(e & _ & ->)]; eauto.
Qed.

Lemma step_preserves_ConfigInv c s s' :
  step c s = Ok s' -> ConfigInv s -> ConfigInv s'.
Proof.
  unfold ConfigInv. intros H Hinv.
  step_inv H; try (unfold started; destruct (0 <? _)); simpl; try assumption;
    bool_to_prop; unfold MAX_RAKE_BPS, NUM_SLOTS in *; lia.
Qed.

(** X1.  The rake and split bounds hold after the constructor and after every
    call, so in every storage reached by a history [cs] from a deployment:
    rakeBps <= 2000, splitBps <= 10000 and 1 <= maxSlotsPerPlayer <= 12.
    Hence the rake of a pool is at most a fifth of it and the share of a
    bid that goes to the current pot is at most the bid. *)
Theorem config_bounds who _oracle _minBid _roundDuration _rakeBps _splitBps s0 cs :
  constructor who _oracle _minBid _roundDuration _rakeBps _splitBps = Ok s0 ->
  let s := execs cs s0 in
  ConfigInv s
  /\ rakeOf s <= prizePool (currentRound s) / 5
  /\ prizePool (currentRound s) - prizePool (currentRound s) / 5 <= distributableOf s
  /\ forall amount, toCurrentPot amount s <= amount.
Proof.
  intros H s.
  assert (Hinv : ConfigInv s).
  { apply (exec_invariant ConfigInv step_preserves_ConfigInv).
    unfold constructor in H. inv_ok. bool_to_prop.
    unfold ConfigInv, NUM_SLOTS. simpl. lia. }
  split; [exact Hinv|]. destruct Hinv as (Hr & Hs & _).
  unfold MAX_RAKE_BPS in Hr.
  assert (Hrake : rakeOf s <= prizePool (currentRound s) / 5).
  { unfold rakeOf. set (p := prizePool (currentRound s)).
    transitivity (p * 2000 / 10000); [apply N.Div0.div_le_mono; nia|].
    change 10000 with (5 * 2000). by rewrite N.Div0.div_mul_cancel_r. }
  split; [exact Hrake|]. split; [unfold distributableOf; lia|].
  intros amount. unfold toCurrentPot.
  apply N.Div0.div_le_upper_bound. nia.
Qed.

Lemma config_bounds_witness :
  let s := execs [Scenario.call 1000 Scenario.deployer (StartRound 100);
                  Scenario.call 1001 Scenario.alice (Bid 0 "a" 3);
                  Scenario.call 1002 Scenario.bob (Bid 1 "b" 1)]
             (Scenario.deploy 1 3600 0 5000) in
  ConfigInv s /\ rakeOf s <= prizePool (currentRound s) / 5.
Proof.
  intros s.
  assert (H : constructor Scenario.deployer Scenario.oracle 1 3600 0 5000
              = Ok (Scenario.deploy 1 3600 0 5000)) by reflexivity.
  destruct (config_bounds _ _ _ _ _ _ _
              [Scenario.call 1000 Scenario.deployer (StartRound 100);
               Scenario.call 1001 Scenario.alice (Bid 0 "a" 3);
               Scenario.call 1002 Scenario.bob (Bid 1 "b" 1)] H) as (Hc & Hr & _).
  split; [exact Hc | exact Hr].
Defined.

(** X2.  A call from anyone but the owner to an owner-only entry point (the
    setters, [withdrawRake], [pause], [unpause], [emergencyResolve]) rejects
    with OwnableUnauthorizedAccount; and whatever a non-owner calls, the
    configuration (minBid, oracle, duration, rake, split, slot cap, pause
    flag) stays as it was and no rake leaves [accumulatedRake]. *)
Theorem only_owner_configures c s :
  sender c <> _owner s ->
  (ownerOnly (op c) = true -> step c s = Revert OwnableUnauthorizedAccount)
  /\ config (exec c s) = config s
  /\ accumulatedRake s <= accumulatedRake (exec c s).
Proof.
  intros Hne.
  assert (Hb : negb (sender c =? _owner s) = true).
  { apply negb_true_iff. by apply N.eqb_neq. }
  split.
  { intros Ho. unfold step.
    destruct (op c); try discriminate Ho;
      unfold emergencyResolve, setOracle, setMinBid, setRoundDuration, setRake,
        setSplit, setMaxSlotsPerPlayer, withdrawRake, pause, unpause, onlyOwner;
      rewrite Hb; reflexivity. }
  destruct (exec_cases c s) as [(s' & H & ->)|(e & _ & ->)];
    [|split; [reflexivity | lia]].
  unfold config.
  step_inv H; try (unfold started; destruct (0 <? _)); simpl;
    try congruence; try (split; [reflexivity | lia]).
Qed.

(** Alice is not the owner: her [setRake] is refused and changes nothing. *)
Lemma only_owner_configures_witness :
  let c := Scenario.call 1001 Scenario.alice (SetRake 2000) in
  step c Scenario.seeded = Revert OwnableUnauthorizedAccount
  /\ config (exec c Scenario.seeded) = config Scenario.seeded.
Proof.
  intros c.
  assert (Hne : sender c <> _owner Scenario.seeded) by (vm_compute; discriminate).
  destruct (only_owner_configures c Scenario.seeded Hne) as (H1 & H2 & _).
  split; [exact (H1 eq_refl) | exact H2].
Defined.

(** ** USDC: what came in is paid out or still on the books *)

Lemma usdcReceived_app l1 l2 :
  usdcReceived (l1 ++ l2) = usdcReceived l1 + usdcReceived l2.
Proof. unfold usdcReceived. by rewrite map_app, sumN_app. Qed.

Lemma usdcPayouts_paid ws : forall us,
  length ws = length us -> usdcPaid (usdcPayouts ws us) = sumN us.
Proof.
  induction ws as [|w ws IH]; intros [|u us] Hl; simpl in *; try lia; [reflexivity|].
  rewrite usdcPaid_app, IH by lia.
  destruct (N.ltb_spec 0 u); unfold usdcPaid; simpl; lia.
Qed.

Lemma usdcPayouts_received ws : forall us, usdcReceived (usdcPayouts ws us) = 0.
Proof.
  induction ws as [|w ws IH]; intros [|u us]; simpl; try reflexivity.
  rewrite usdcReceived_app, IH. by destruct (0 <? u).
Qed.

Lemma ethPayouts_usdc env ws : forall es,
  usdcPaid (ethPayouts env ws es) = 0 /\ usdcReceived (ethPayouts env ws es) = 0.
Proof.
  induction ws as [|w ws IH]; intros [|e es]; simpl; try (split; reflexivity).
  rewrite usdcPaid_app, usdcReceived_app. destruct (IH es) as [-> ->].
  unfold ethPayout. by destruct (_ && _).
Qed.

Lemma bothPayouts_received env ws : forall us es,
  usdcReceived (bothPayouts env ws us es) = 0.
Proof.
  induction ws as [|w ws IH]; intros [|u us] [|e es]; simpl; try reflexivity.
  rewrite !usdcReceived_app, IH. unfold ethPayout.
  destruct (0 <? u); destruct (_ && _); reflexivity.
Qed.

Lemma resolveRound_rake_le env who winners usdcAmounts ethAmounts s s' :
  resolveRound env who winners usdcAmounts ethAmounts s = Ok s' ->
  rakeOf s <= prizePool (currentRound s).
Proof.
  unfold resolveRound. intros H.
  apply bind_Ok in H. destruct H as ([] & _ & H).
  apply bind_Ok in H. destruct H as ([] & _ & H).
  apply bind_Ok in H. destruct H as ([] & _ & H).
  apply bind_Ok in H. destruct H as (scaled & Hsc & H).
  apply bind_Ok in H. destruct H as (distributable & Hdis & _).
  by destruct (rake_Ok _ _ _ Hsc Hdis) as (_ & _ & Hle).
Qed.

Lemma soloRefund_paid s :
  usdcPaid (soloRefund s) = soloSpent s /\ usdcReceived (soloRefund s) = 0.
Proof.
  unfold soloRefund, soloSpent. destruct (players s) as [|p [|q rest]]; try (split; reflexivity).
  destruct (N.ltb_spec 0 (totalSpent s (id (currentRound s)) p)); unfold usdcPaid; simpl;
    split; try reflexivity; lia.
Qed.

Ltac ledger_sums :=
  unfold log; simpl;
  rewrite ?usdcReceived_app, ?usdcPaid_app, ?usdcPayouts_received,
    ?bothPayouts_received;
  repeat match goal with
         | |- context [ethPayouts ?env ?ws ?es] =>
             let H1 := fresh in let H2 := fresh in
             destruct (ethPayouts_usdc env ws es) as [H1 H2]; rewrite ?H1, ?H2;
             clear H1 H2
         | |- context [soloRefund ?s] =>
             let H1 := fresh in let H2 := fresh in
             destruct (soloRefund_paid s) as [H1 H2]; rewrite ?H1, ?H2;
             clear H1 H2
         end.

Lemma step_preserves_Solvent c s s' :
  step c s = Ok s' -> Solvent s -> Solvent s'.
Proof.
  unfold Solvent, liabilities. intros H (Hbal & Hzero).
  destruct (op c) eqn:Hop.
  1:{ (* startRound *)
      unfold step in H. rewrite Hop in H. apply startRound_Ok in H.
      destruct H as (_ & Hprev & _ & ->). unfold started.
      assert (Hpool : (if resolved (currentRound s) then 0
                       else prizePool (currentRound s)) = 0).
      { destruct Hprev as [Hz|Hr]; [destruct (Hzero Hz) as [-> ->] | rewrite Hr];
          reflexivity. }
      rewrite Hpool in Hbal.
      destruct (N.ltb_spec 0 topUp); ledger_sums;
        unfold usdcReceived, usdcPaid in *; simpl;
        (split; [lia | intros; lia]). }
  3:{ (* bid *)
      unfold step in H. rewrite Hop in H.
      pose proof (bid_split_le _ _ _ _ _ _ _ H) as Hle.
      pose proof (bid_conditions _ _ _ _ _ _ _ H) as (Hc & _).
      apply bidChecks_Ok in Hc. destruct Hc as (Hid & Hres & _).
      apply bid_state in H. subst s'.
      unfold bidState, bidRound, clockStarted. ledger_sums. rewrite Hres in *.
      split; [|destruct (startedAt (currentRound s) =? 0); simpl; intros; lia].
      destruct (startedAt (currentRound s) =? 0); simpl;
        unfold usdcReceived, usdcPaid in *; simpl; rewrite ?Hres; lia. }
  3:{ (* resolveRound *)
      unfold step in H. rewrite Hop in H.
      pose proof (resolveRound_rake_le _ _ _ _ _ _ _ H) as Hle.
      apply resolveRound_Ok in H.
      destruct H as (_ & Hval & _ & Hlen & Hsum & _ & H).
      apply _validateResolution_Ok in Hval. destruct Hval as (Hid & Hres & _).
      rewrite Hres in *. unfold distributableOf in Hsum.
      advance_inv H; unfold resolvePaid; ledger_sums;
        rewrite usdcPayouts_paid by assumption;
        (split; [|intros; lia]);
        destruct (0 <? ethPrizePool (currentRound s)); ledger_sums;
        unfold usdcReceived, usdcPaid in *; simpl; rewrite ?Hres; lia. }
  all: step_inv H; try discriminate Hop.
  all: try match goal with
           | Hv : _validateResolution _ _ = Ok _ |- _ =>
               apply _validateResolution_Ok in Hv; destruct Hv as (? & Hres & _);
               rewrite Hres in *
           end.
  all: unfold soloCarried, emergencyPaid; ledger_sums.
  all: try rewrite bothPayouts_usdcPaid
         by (rewrite length_emergencyAllocs; unfold spends; by rewrite length_map).
  all: try match goal with
           | Hl : (2 <= length (players ?st))%nat |- _ =>
               rewrite emergencyAllocs_sum
                 by (unfold spends; destruct (players st); simpl in *;
                     [lia | discriminate])
           end.
  all: unfold usdcReceived, usdcPaid, distributableOf in *; simpl.
  all: repeat match goal with
              | Hr : resolved (currentRound _) = _ |- _ => rewrite Hr in *
              end.
  all: try (split; [|intros; try lia; tauto]).
  all: lia.
Qed.


Lemma constructor_Solvent who _oracle _minBid _roundDuration _rakeBps _splitBps s0 :
  constructor who _oracle _minBid _roundDuration _rakeBps _splitBps = Ok s0 ->
  Solvent s0.
Proof.
  unfold constructor. intros H. inv_ok.
  unfold Solvent, liabilities, usdcReceived, usdcPaid. simpl. split; [reflexivity|].
  intros _. split; reflexivity.
Qed.

(** X3.  After the constructor and any history of calls, the USDC the contract
    pulled in with [safeTransferFrom] equals the USDC it sent out with
    [safeTransfer] plus what its books still hold: the pool of the current
    round while that round is unresolved, [nextPrizePool] and
    [accumulatedRake].  So the payouts, refunds and rake withdrawals never
    exceed what was received, and the three book entries are always backed
    by USDC that came in. *)
Theorem usdc_books_balance who _oracle _minBid _roundDuration _rakeBps _splitBps s0 cs :
  constructor who _oracle _minBid _roundDuration _rakeBps _splitBps = Ok s0 ->
  let s := execs cs s0 in
  usdcReceived (ledger s) = usdcPaid (ledger s) + liabilities s
  /\ usdcPaid (ledger s) <= usdcReceived (ledger s).
Proof.
  intros H s.
  assert (Hs : Solvent s).
  { apply (exec_invariant Solvent step_preserves_Solvent).
    exact (constructor_Solvent _ _ _ _ _ _ _ H). }
  destruct Hs as (Hbal & _). split; [exact Hbal | lia].
Qed.

(** Round 1 seeded with 100, bids of 3 and 1: 104 came in, nothing went out,
    and the books hold 104. *)
Lemma usdc_books_balance_witness :
  let s := execs [Scenario.call 1000 Scenario.deployer (StartRound 100);
                  Scenario.call 1001 Scenario.alice (Bid 0 "a" 3);
                  Scenario.call 1002 Scenario.bob (Bid 1 "b" 1)]
             (Scenario.deploy 1 3600 0 5000) in
  usdcReceived (ledger s) = usdcPaid (ledger s) + liabilities s
  /\ usdcReceived (ledger s) = 104.
Proof.
  intros s.
  assert (H : constructor Scenario.deployer Scenario.oracle 1 3600 0 5000
              = Ok (Scenario.deploy 1 3600 0 5000)) by reflexivity.
  destruct (usdc_books_balance _ _ _ _ _ _ _
              [Scenario.call 1000 Scenario.deployer (StartRound 100);
               Scenario.call 1001 Scenario.alice (Bid 0 "a" 3);
               Scenario.call 1002 Scenario.bob (Bid 1 "b" 1)] H) as (Hb & _).
  split; [exact Hb | vm_compute; reflexivity].
Defined.

(** ** The pause flag *)

Section PauseBlind.
Variable b : bool.

Lemma safeTransfer_paused env to a s :
  safeTransfer env to a (set_paused b s) = rmap (set_paused b) (safeTransfer env to a s).
Proof. unfold safeTransfer. simpl. by destruct (usdcPushOk env to a). Qed.

Lemma payEthOne_paused env w a s :
  payEthOne env w a (set_paused b s) = rmap (set_paused b) (payEthOne env w a s).
Proof.
  unfold payEthOne. simpl.
  destruct (0 <? a); [|reflexivity]. destruct (ethAccepts env w a); [reflexivity|].
  by destruct (uadd _ _).
Qed.

Lemma payUsdc_paused env ws : forall amounts s,
  payUsdc env ws amounts (set_paused b s) = rmap (set_paused b) (payUsdc env ws amounts s).
Proof.
  induction ws as [|w ws IH]; intros [|a rest] s; simpl; try reflexivity.
  destruct (0 <? a); simpl; [|apply IH].
  rewrite safeTransfer_paused. destruct (safeTransfer env w a s); simpl; [apply IH | reflexivity].
Qed.

Lemma payEth_paused env ws : forall amounts s,
  payEth env ws amounts (set_paused b s) = rmap (set_paused b) (payEth env ws amounts s).
Proof.
  induction ws as [|w ws IH]; intros [|a rest] s; simpl; try reflexivity.
  rewrite payEthOne_paused. destruct (payEthOne env w a s); simpl; [apply IH | reflexivity].
Qed.

Lemma payBoth_paused env ws : forall us es s,
  payBoth env ws us es (set_paused b s) = rmap (set_paused b) (payBoth env ws us es s).
Proof.
  induction ws as [|w ws IH]; intros [|u us] [|e es] s; simpl; try reflexivity.
  destruct (0 <? u); simpl.
  - rewrite safeTransfer_paused. destruct (safeTransfer env w u s); simpl; [|reflexivity].
    rewrite payEthOne_paused. destruct (payEthOne env w e _); simpl; [apply IH | reflexivity].
  - rewrite payEthOne_paused. destruct (payEthOne env w e _); simpl; [apply IH | reflexivity].
Qed.

Lemma _autoAdvance_paused env s :
  _autoAdvance env (set_paused b s) = rmap (set_paused b) (_autoAdvance env s).
Proof.
  unfold _autoAdvance, _createRound. simpl.
  destruct (MIN_AUTO_START <=? nextPrizePool s); [|reflexivity].
  by destruct (uadd _ _).
Qed.

Lemma soloCarry_paused env roundId ps s :
  soloCarry env roundId ps (set_paused b s) = rmap (set_paused b) (soloCarry env roundId ps s).
Proof.
  unfold soloCarry, safeTransfer. simpl.
  destruct (Nat.eqb (length ps) 1); [destruct (ps !! 0%nat); [|reflexivity]|];
    repeat match goal with
           | |- bind ?r _ = rmap _ (bind ?r _) => destruct r; simpl; [|reflexivity]
           end; try reflexivity.
  destruct (0 <? _); [destruct (usdcPushOk _ _ _)|]; reflexivity.
Qed.

(** The same computation on both sides, the flag set before or after. *)
Ltac known r' :=
  lazymatch r' with
  | safeTransfer ?e ?w ?a ?t => exact (safeTransfer_paused e w a t)
  | payEthOne ?e ?w ?a ?t => exact (payEthOne_paused e w a t)
  | payUsdc ?e ?w ?a ?t => exact (payUsdc_paused e w a t)
  | payEth ?e ?w ?a ?t => exact (payEth_paused e w a t)
  | payBoth ?e ?w ?u ?a ?t => exact (payBoth_paused e w u a t)
  | _autoAdvance ?e ?t => exact (_autoAdvance_paused e t)
  | soloCarry ?e ?r ?ps ?t => exact (soloCarry_paused e r ps t)
  end.

Ltac head r :=
  lazymatch r with
  | bind ?r' _ => head r'
  | _ => constr:(r)
  end.

Ltac peel :=
  simpl;
  lazymatch goal with
  | |- bind ?r _ = rmap _ (bind ?r' _) =>
      let h := head r in
      let h' := head r' in
      first
        [ constr_eq h h'; destruct h; simpl; [|reflexivity]
        | lazymatch h with
          | if ?c then _ else _ => destruct c
          | match ?x with _ => _ end => destruct x
          end
        | replace h with (rmap (set_paused b) h') by (symmetry; known h');
          destruct h'; simpl; [|reflexivity] ]
  | |- (if ?c then _ else _) = _ => destruct c
  | |- match ?x with _ => _ end = _ => destruct x
  | |- Ok _ = _ => reflexivity
  | |- Revert _ = _ => reflexivity
  | |- _ = rmap _ ?r' => known r'
  end.

Lemma refundSoloRound_paused env s :
  refundSoloRound env (set_paused b s) = rmap (set_paused b) (refundSoloRound env s).
Proof.
  unfold refundSoloRound, _validateResolution. repeat peel.
Qed.

Lemma resolveRound_paused env who winners usdcAmounts ethAmounts s :
  resolveRound env who winners usdcAmounts ethAmounts (set_paused b s)
  = rmap (set_paused b) (resolveRound env who winners usdcAmounts ethAmounts s).
Proof.
  unfold resolveRound, onlyOracle, _validateResolution. repeat peel.
Qed.

Lemma emergencyResolve_paused env who s :
  emergencyResolve env who (set_paused b s)
  = rmap (set_paused b) (emergencyResolve env who s).
Proof.
  unfold emergencyResolve, onlyOwner, _validateResolution, _emergencySoloRefund.
  repeat peel.
Qed.

Lemma claimEth_paused env who s :
  claimEth env who (set_paused b s) = rmap (set_paused b) (claimEth env who s).
Proof. unfold claimEth. repeat peel. Qed.

Lemma receive_paused who value s :
  receive who value (set_paused b s) = rmap (set_paused b) (receive who value s).
Proof. unfold receive. repeat peel. Qed.

End PauseBlind.

(** X4.  Only [startRound], [fund] and [bid] look at the pause flag.  While the
    contract is paused, [startRound] and [fund] reject with EnforcedPause and
    no [bid] goes through; every other entry point except [pause] and
    [unpause] themselves (the three resolution paths, [claimEth], [receive],
    the setters and [withdrawRake]) does exactly what it does when the
    contract is not paused: it rejects with the same error or leaves the
    same storage, up to the flag. *)
Theorem pause_scope c s :
  (_paused s = true ->
   match op c with
   | StartRound _ | Fund _ => step c s = Revert EnforcedPause
   | Bid _ _ _ => isOk (step c s) = false
   | _ => True
   end)
  /\ (ignoresPause (op c) = true ->
      forall b, step c (set_paused b s) = rmap (set_paused b) (step c s)).
Proof.
  split.
  - intros Hp. unfold step.
    destruct (op c); try exact I.
    + unfold startRound, whenNotPaused. by rewrite Hp.
    + unfold fund, whenNotPaused. by rewrite Hp.
    + unfold bid, whenNotPaused. rewrite Hp.
      destruct (roundOpen (env c) s) as [[]|]; reflexivity.
  - intros Hi b. unfold step.
    destruct (op c); try discriminate Hi.
    + apply receive_paused.
    + apply resolveRound_paused.
    + apply refundSoloRound_paused.
    + apply emergencyResolve_paused.
    + apply claimEth_paused.
    + unfold setOracle, onlyOwner. simpl. by destruct (revertIf _ _).
    + unfold setMinBid, onlyOwner. simpl. by destruct (revertIf _ _).
    + unfold setRoundDuration, onlyOwner. simpl. by destruct (revertIf _ _).
    + unfold setRake, onlyOwner. simpl. destruct (revertIf _ _); [|reflexivity].
      simpl. by destruct (revertIf _ _).
    + unfold setSplit, onlyOwner. simpl. destruct (revertIf _ _); [|reflexivity].
      simpl. by destruct (revertIf _ _).
    + unfold setMaxSlotsPerPlayer, onlyOwner. simpl.
      destruct (revertIf _ _); [|reflexivity]. simpl. by destruct (revertIf _ _).
    + unfold withdrawRake, onlyOwner, safeTransfer. simpl.
      destruct (revertIf _ _); [|reflexivity]. simpl.
      by destruct (usdcPushOk _ _ _).
Qed.

(** While the contract is paused, the oracle's [resolveRound] on the ended
    two-player round goes through as it does unpaused, and a bid does not. *)
Lemma pause_scope_witness :
  let s := set_paused true Scenario.threeToOne in
  let c := Scenario.call 5000 Scenario.oracle
             (ResolveRound [Scenario.alice] [101] []) in
  isOk (step (Scenario.call 1003 Scenario.bob (Bid 2 "c" 1)) s) = false
  /\ step c s = rmap (set_paused true) (step c Scenario.threeToOne).
Proof.
  intros s c.
  assert (Hp : _paused s = true) by reflexivity.
  split.
  - exact (proj1 (pause_scope (Scenario.call 1003 Scenario.bob (Bid 2 "c" 1)) s) Hp).
  - exact (proj2 (pause_scope c Scenario.threeToOne) eq_refl true).
Defined.

(** ** The clock of a round *)

Lemma step_clock c s s' :
  step c s = Ok s' ->
  id (currentRound s') = id (currentRound s) ->
  createdAt (currentRound s') = createdAt (currentRound s)
  /\ (startedAt (currentRound s) <> 0 ->
      startedAt (currentRound s') = startedAt (currentRound s)
      /\ endTime (currentRound s) <= endTime (currentRound s')
      /\ (endTime (currentRound s) <= timestamp (env c) ->
          endTime (currentRound s') = endTime (currentRound s))).
Proof.
  intros H Hid.
  destruct (op c) eqn:Hop.
  4:{ unfold step in H. rewrite Hop in H.
      pose proof (bid_conditions _ _ _ _ _ _ _ H) as (Hc & _).
      apply bidChecks_Ok in Hc. destruct Hc as (_ & _ & Hopen & _).
      apply bid_state in H. subst s'.
      unfold bidState, bidRound, clockStarted, extended. simpl.
      destruct (N.eqb_spec (startedAt (currentRound s)) 0) as [E|E]; simpl.
      - split; [reflexivity | intros; contradiction].
      - specialize (Hopen E). split; [reflexivity|]. intros _.
        split; [reflexivity|].
        destruct (_ <=? ANTI_SNIPE_WINDOW); simpl; split; intros; lia. }
  all: step_inv H; try discriminate Hop; simpl in *;
    try (unfold started in *; destruct (0 <? _)); simpl in *;
    try lia; repeat split; intros; reflexivity || lia.
Qed.

(** X5.  Over any history of calls that stays in one round (the round id is the
    same before and after), [createdAt] does not change; and once the clock
    of the round runs (startedAt is set), [startedAt] does not change,
    [endTime] never moves back, and [endTime] does not move at all when
    every call of the history comes at or after it: a round that has ended
    cannot be extended or reopened. *)
Theorem round_clock cs : forall s,
  id (currentRound (execs cs s)) = id (currentRound s) ->
  createdAt (currentRound (execs cs s)) = createdAt (currentRound s)
  /\ (startedAt (currentRound s) <> 0 ->
      startedAt (currentRound (execs cs s)) = startedAt (currentRound s)
      /\ endTime (currentRound s) <= endTime (currentRound (execs cs s))
      /\ (Forall (fun c => endTime (currentRound s) <= timestamp (env c)) cs ->
          endTime (currentRound (execs cs s)) = endTime (currentRound s))).
Proof.
  induction cs as [|c cs IH]; intros s Hid; simpl in *.
  { split; [reflexivity|]. intros _. split; [reflexivity|]. split; [lia | reflexivity]. }
  pose proof (exec_id_mono c s) as H1.
  pose proof (execs_id_mono cs (exec c s)) as H2.
  assert (Hid1 : id (currentRound (exec c s)) = id (currentRound s)) by lia.
  assert (Hid2 : id (currentRound (execs cs (exec c s)))
                 = id (currentRound (exec c s))) by lia.
  destruct (IH _ Hid2) as (Hc2 & Hs2).
  assert (Hone : createdAt (currentRound (exec c s)) = createdAt (currentRound s)
                 /\ (startedAt (currentRound s) <> 0 ->
                     startedAt (currentRound (exec c s)) = startedAt (currentRound s)
                     /\ endTime (currentRound s) <= endTime (currentRound (exec c s))
                     /\ (endTime (currentRound s) <= timestamp (env c) ->
                         endTime (currentRound (exec c s)) = endTime (currentRound s)))).
  { destruct (exec_cases c s) as [(s1 & Hs & E)|(e & _ & E)]; rewrite E in *.
    - exact (step_clock _ _ _ Hs Hid1).
    - split; [reflexivity|]. intros _. split; [reflexivity|]. split; [lia | reflexivity]. }
  destruct Hone as (Hc1 & Hs1).
  split; [congruence|]. intros Hst.
  destruct (Hs1 Hst) as (Ha & Hb & Hd).
  assert (Hst1 : startedAt (currentRound (exec c s)) <> 0) by congruence.
  destruct (Hs2 Hst1) as (Ha2 & Hb2 & Hd2).
  split; [congruence|]. split; [lia|].
  intros HF. inversion HF as [|? ? Hnow HF']; subst.
  specialize (Hd Hnow). rewrite Hd2; [exact Hd|]. by rewrite Hd.
Qed.

(** Round 1 ended at 4600.  At 5000 a bid is refused and ETH is still
    taken: the clock stays where it was. *)
Lemma round_clock_witness :
  let cs := [Scenario.call 5000 Scenario.bob (Bid 2 "c" 1);
             Scenario.call 5001 Scenario.charlie (Receive 5)] in
  startedAt (currentRound (execs cs Scenario.threeToOne)) = 1001
  /\ endTime (currentRound (execs cs Scenario.threeToOne)) = 4601.
Proof.
  intros cs.
  assert (Hid : id (currentRound (execs cs Scenario.threeToOne))
                = id (currentRound Scenario.threeToOne)) by (vm_compute; reflexivity).
  assert (Hst : startedAt (currentRound Scenario.threeToOne) <> 0)
    by (vm_compute; discriminate).
  assert (HF : Forall (fun c => endTime (currentRound Scenario.threeToOne)
                                <= timestamp (env c)) cs).
  { repeat constructor; apply N.leb_le; vm_compute; reflexivity. }
  destruct (round_clock cs Scenario.threeToOne Hid) as (_ & H).
  destruct (H Hst) as (Ha & _ & Hd).
  split.
  - rewrite Ha. vm_compute. reflexivity.
  - rewrite (Hd HF). vm_compute. reflexivity.
Defined.

(** ** The flags of [getRoundInfo] and the gates *)

(** X6.  [getRoundInfo] returns the round with two flags.  The flags are never
    both set; the [roundOpen] modifier in front of [bid] passes exactly when
    one of them is set; and [_validateResolution] passes exactly when a
    round exists, is unresolved and neither flag is set (its clock was
    started and has run out). *)
Theorem round_info_flags env s :
  let '(r, pending, active) := getRoundInfo env s in
  r = currentRound s
  /\ pending && active = false
  /\ isOk (roundOpen env s) = pending || active
  /\ isOk (_validateResolution env s)
     = (0 <? id r) && negb (resolved r) && negb (pending || active).
Proof.
  unfold getRoundInfo, isPending, isActive, roundOpen, _validateResolution.
  split; [reflexivity|].
  destruct (N.eqb_spec (id (currentRound s)) 0), (N.ltb_spec 0 (id (currentRound s)));
    try lia; simpl; try (repeat split; reflexivity).
  destruct (resolved (currentRound s)); simpl; try (repeat split; reflexivity).
  destruct (N.eqb_spec (startedAt (currentRound s)) 0),
    (N.ltb_spec 0 (startedAt (currentRound s))); try lia; simpl;
    try (repeat split; reflexivity).
  destruct (N.ltb_spec (timestamp env) (endTime (currentRound s))),
    (N.leb_spec (endTime (currentRound s)) (timestamp env)); try lia; simpl;
    repeat split; reflexivity.
Qed.

(** ** Players, slots and the creation of a round *)

Lemma Books_next s s' :
  _roundPlayers s' = _roundPlayers s -> _isPlayer s' = _isPlayer s ->
  totalSpent s' = totalSpent s -> id (currentRound s') = id (currentRound s) + 1 ->
  Books s -> Books s'.
Proof.
  unfold Books, players. intros -> -> -> -> (_ & _ & _ & Hnext).
  destruct (Hnext (id (currentRound s) + 1)) as (Hp & Hq); [lia|].
  rewrite Hp. split; [apply NoDup_nil; exact I|]. split.
  - intros p. destruct (Hq p) as (-> & _). split; [discriminate | intros []].
  - split; [intros p _; apply Hq|]. intros r' Hr. apply Hnext. lia.
Qed.

Lemma step_preserves_Books c s s' :
  step c s = Ok s' -> Books s -> Books s'.
Proof.
  intros H Hinv. destruct (op c) eqn:Hop;
    try (unfold step in H; rewrite Hop in H;
         by apply (bid_Books _ _ _ _ _ _ _ H)).
  all: step_inv H; try discriminate Hop;
    try (unfold started; destruct (0 <? _));
    first [ apply (Books_frame s);
            [reflexivity | reflexivity | reflexivity | reflexivity | assumption]
          | apply (Books_next s);
            [reflexivity | reflexivity | reflexivity | reflexivity | assumption] ].
Qed.

Lemma constructor_Books who _oracle _minBid _roundDuration _rakeBps _splitBps s :
  constructor who _oracle _minBid _roundDuration _rakeBps _splitBps = Ok s ->
  Books s.
Proof.
  unfold constructor. intros H. inv_ok. unfold Books, players. simpl.
  split; [apply NoDup_nil; exact I|]. split.
  - intros p. split; [discriminate | intros []].
  - split; [reflexivity|]. intros r' _. split; [reflexivity|]. intros p. by split.
Qed.



(** X8.  In every storage reached by a history [cs] from a deployment, the
    player list of the current round holds nobody twice and holds exactly
    the addresses flagged in [_isPlayer]; an address that is not in the list
    has spent nothing in the round; and the rounds to come have no players
    yet.  So [playerCount], which the resolution paths compare with 2, is
    the number of distinct bidders of the round. *)
Theorem players_registered_once
    who _oracle _minBid _roundDuration _rakeBps _splitBps s0 cs :
  constructor who _oracle _minBid _roundDuration _rakeBps _splitBps = Ok s0 ->
  let s := execs cs s0 in
  let r := id (currentRound s) in
  List.NoDup (getRoundPlayers r s)
  /\ (forall p, In p (getRoundPlayers r s) <-> _isPlayer s r p = true)
  /\ (forall p, ~ In p (getRoundPlayers r s) -> totalSpent s r p = 0)
  /\ (forall r', r < r' -> playerCount r' s = 0).
Proof.
  intros H0 s r.
  assert (Hbooks : Books s).
  { apply (exec_invariant Books step_preserves_Books).
    exact (constructor_Books _ _ _ _ _ _ _ H0). }
  subst r. clearbody s. unfold getRoundPlayers, playerCount.
  destruct Hbooks as (Hnd & Hflag & Hspent & Hnext). unfold players in *.
  split; [exact Hnd|]. split; [intros p; symmetry; apply Hflag|]. split.
  - intros p Hp. apply Hspent.
    destruct (_isPlayer s (id (currentRound s)) p) eqn:E; [|reflexivity].
    exfalso. apply Hp. by apply Hflag.
  - intros r' Hr. destruct (Hnext r' Hr) as (-> & _). reflexivity.
Qed.

(** Alice bids twice and Bob once: two players, Alice listed once. *)
Lemma players_registered_once_witness :
  let s := execs [Scenario.call 1000 Scenario.deployer (StartRound 100);
                  Scenario.call 1001 Scenario.alice (Bid 0 "a" 3);
                  Scenario.call 1002 Scenario.bob (Bid 1 "b" 1);
                  Scenario.call 1003 Scenario.alice (Bid 1 "c" 5)]
             (Scenario.deploy 1 3600 0 5000) in
  List.NoDup (getRoundPlayers (id (currentRound s)) s)
  /\ playerCount (id (currentRound s)) s = 2.
Proof.
  intros s.
  assert (H0 : constructor Scenario.deployer Scenario.oracle 1 3600 0 5000
               = Ok (Scenario.deploy 1 3600 0 5000)) by reflexivity.
  destruct (players_registered_once _ _ _ _ _ _ _
              [Scenario.call 1000 Scenario.deployer (StartRound 100);
               Scenario.call 1001 Scenario.alice (Bid 0 "a" 3);
               Scenario.call 1002 Scenario.bob (Bid 1 "b" 1);
               Scenario.call 1003 Scenario.alice (Bid 1 "c" 5)] H0) as (Hnd & _).
  split; [exact Hnd | vm_compute; reflexivity].
Defined.

Lemma ownedIn_le_length p sl : ownedIn p sl <= N.of_nat (length sl).
Proof.
  induction sl as [|w sl IH]; simpl; [lia|].
  destruct (owner w =? p); lia.
Qed.

(** X9.  In every storage reached by a history [cs] from a deployment the array
    has its twelve slots, so [getSlot] rejects an index of 12 or more with
    InvalidSlot and returns [slots[index]] otherwise, without an array
    bounds failure; [getBuffer] and [getSlotOwners] list the word and the
    owner of each of the twelve slots; and [playerSlotCount] of the current
    round is, for every participant, the number of slots they own, at most
    twelve. *)
Theorem slot_views who _oracle _minBid _roundDuration _rakeBps _splitBps s0 cs :
  constructor who _oracle _minBid _roundDuration _rakeBps _splitBps = Ok s0 ->
  let s := execs cs s0 in
  (forall index,
     getSlot index s
     = if index <? NUM_SLOTS then Ok (slotOf s index) else Revert InvalidSlot)
  /\ getBuffer s = map word (slots s)
  /\ getSlotOwners s = map owner (slots s)
  /\ (forall p, p <> 0 ->
        playerSlotCount s (id (currentRound s)) p = ownedSlots s p
        /\ ownedSlots s p <= NUM_SLOTS).
Proof.
  intros H0 s.
  assert (Hinv : SlotInv s).
  { apply execs_preserves_SlotInv. exact (proj1 (constructor_SlotInv _ _ _ _ _ _ _ H0)). }
  clearbody s. destruct Hinv as (Hlen & Hcount & _).
  split; [|split; [|split]].
  - intros index. unfold getSlot, slotAt, slotOf, slotIn.
    destruct (N.ltb_spec index NUM_SLOTS), (N.leb_spec NUM_SLOTS index); try lia;
      simpl; [|reflexivity].
    destruct (lookup_lt_is_Some_2 (slots s) (N.to_nat index)) as (w & ->); [lia|].
    reflexivity.
  - unfold getBuffer, slotOf, slotIn.
    destruct (slots s) as [|w0 [|w1 [|w2 [|w3 [|w4 [|w5 [|w6 [|w7 [|w8 [|w9
      [|w10 [|w11 [|]]]]]]]]]]]]]; try discriminate Hlen. reflexivity.
  - unfold getSlotOwners, slotOf, slotIn.
    destruct (slots s) as [|w0 [|w1 [|w2 [|w3 [|w4 [|w5 [|w6 [|w7 [|w8 [|w9
      [|w10 [|w11 [|]]]]]]]]]]]]]; try discriminate Hlen. reflexivity.
  - intros p Hp. split; [by apply Hcount|].
    unfold ownedSlots. pose proof (ownedIn_le_length p (slots s)) as Hle.
    rewrite Hlen in Hle. lia.
Qed.

(** Alice holds slot 0 and Bob slot 1 in round 1. *)
Lemma slot_views_witness :
  let s := execs [Scenario.call 1000 Scenario.deployer (StartRound 100);
                  Scenario.call 1001 Scenario.alice (Bid 0 "a" 3);
                  Scenario.call 1002 Scenario.bob (Bid 1 "b" 1)]
             (Scenario.deploy 1 3600 0 5000) in
  getSlot 12 s = Revert InvalidSlot
  /\ playerSlotCount s (id (currentRound s)) Scenario.alice
     = ownedSlots s Scenario.alice.
Proof.
  intros s.
  assert (H0 : constructor Scenario.deployer Scenario.oracle 1 3600 0 5000
               = Ok (Scenario.deploy 1 3600 0 5000)) by reflexivity.
  destruct (slot_views _ _ _ _ _ _ _
              [Scenario.call 1000 Scenario.deployer (StartRound 100);
               Scenario.call 1001 Scenario.alice (Bid 0 "a" 3);
               Scenario.call 1002 Scenario.bob (Bid 1 "b" 1)] H0)
    as (Hget & _ & _ & Hcount).
  split; [exact (Hget 12)|].
  assert (Hne : Scenario.alice <> 0) by discriminate.
  exact (proj1 (Hcount Scenario.alice Hne)).
Defined.

(** ** Cumulative bids, slot owners and the buffer text *)

Lemma upd3_lookup m r i a v j b :
  upd3 m r i a v r j b = if (j =? i) && (b =? a) then v else m r j b.
Proof.
  destruct (N.eqb_spec j i) as [->|Hj]; simpl.
  - destruct (N.eqb_spec b a) as [->|Hb].
    + apply upd3_eq.
    + apply upd3_ne_addr. congruence.
  - apply upd3_ne_slot. congruence.
Qed.

Lemma upd2_lookup {V} (m : N -> address -> V) r a v b :
  upd2 m r a v r b = if b =? a then v else m r b.
Proof.
  destruct (N.eqb_spec b a) as [->|Hb]; [apply upd2_eq | apply upd2_ne; congruence].
Qed.

Ltac slot_indices :=
  repeat match goal with
         | |- context [N.of_nat ?k] =>
             let v := eval vm_compute in (N.of_nat k) in
             change (N.of_nat k) with v
         end.

Lemma sumSlots_ext f g :
  (forall i, i < NUM_SLOTS -> g i = f i) -> sumSlots g = sumSlots f.
Proof.
  unfold sumSlots, NUM_SLOTS. intros H. simpl. slot_indices.
  rewrite !H by reflexivity. reflexivity.
Qed.

Lemma sumSlots_point f g i a :
  i < NUM_SLOTS -> g i = f i + a -> (forall j, j <> i -> g j = f j) ->
  sumSlots g = sumSlots f + a.
Proof.
  unfold sumSlots, NUM_SLOTS. intros Hi Hg Hother. simpl. slot_indices.
  assert (Hcases : i = 0 \/ i = 1 \/ i = 2 \/ i = 3 \/ i = 4 \/ i = 5 \/ i = 6
                   \/ i = 7 \/ i = 8 \/ i = 9 \/ i = 10 \/ i = 11) by lia.
  repeat (destruct Hcases as [->|Hcases]); try subst i;
    rewrite Hg, !Hother by discriminate; lia.
Qed.

Lemma sumSlots_zero f : (forall i, f i = 0) -> sumSlots f = 0.
Proof. unfold sumSlots. intros H. simpl. rewrite !H. reflexivity. Qed.

Lemma bidChecks_word env slotIndex w amount s :
  bidChecks env slotIndex w amount s = Ok tt -> validWord w.
Proof.
  unfold bidChecks, validWord. intros H. inv_ok.
  repeat match goal with
         | Hb : Nat.eqb _ _ = false |- _ => apply Nat.eqb_neq in Hb
         | Hb : Nat.ltb _ _ = false |- _ => apply Nat.ltb_ge in Hb
         end.
  split; [intros ->; simpl in *; congruence|]. split; [assumption|].
  by destruct (_validateWord w) as [[]|].
Qed.

Lemma slotIn_emptySlot_highest sl i :
  highestTotal (slotIn sl i) = 0 \/ is_Some (sl !! N.to_nat i).
Proof.
  unfold slotIn. destruct (sl !! N.to_nat i); [right; eauto | left; reflexivity].
Qed.

Lemma bid_preserves_BidsInv env who i w a s s' :
  bid env who i w a s = Ok s' -> BidsInv s -> BidsInv s'.
Proof.
  intros H Hinv.
  pose proof (bid_conditions _ _ _ _ _ _ _ H) as (Hc & Hsome & _).
  pose proof (bidChecks_word _ _ _ _ _ Hc) as Hword.
  apply bidChecks_Ok in Hc. destruct Hc as (_ & _ & _ & _ & Hi & _).
  apply bid_state in H. subst s'.
  destruct Hinv as (H1 & H2 & H3 & H4 & H5 & H6 & H7).
  unfold BidsInv. rewrite id_bidState.
  set (r := id (currentRound s)) in *.
  set (c := cumulativeBids s r i who + a).
  assert (Hcum : forall j p,
             cumulativeBids (bidState env who i w a s) r j p
             = if (j =? i) && (p =? who) then c else cumulativeBids s r j p).
  { intros j p. unfold bidState. simpl. apply upd3_lookup. }
  assert (Hslot : forall j,
             slotOf (bidState env who i w a s) j
             = if (highestTotal (slotOf s i) <? c) && (j =? i)
               then mkWordSlot w who c else slotOf s j).
  { intros j. unfold slotOf, bidState. simpl. fold r. fold c.
    rewrite slotIn_bidSlots. by rewrite bool_decide_true, andb_true_r. }
  assert (Hts : forall p,
             totalSpent (bidState env who i w a s) r p
             = if p =? who then totalSpent s r who + a else totalSpent s r p).
  { intros p. unfold bidState. simpl. apply upd2_lookup. }
  split; [|split; [|split; [|split; [|split; [|split]]]]].
  - intros j p. rewrite Hcum, Hslot.
    pose proof (H1 j p) as Hjp. pose proof (H1 i p) as Hip.
    destruct (N.ltb_spec (highestTotal (slotOf s i)) c);
      destruct (N.eqb_spec j i) as [->|Hj]; cbn [andb owner word highestTotal];
      destruct (N.eqb_spec p who) as [->|Hp]; cbn [andb owner word highestTotal]; lia.
  - intros j. rewrite Hslot.
    destruct (N.ltb_spec (highestTotal (slotOf s i)) c);
      destruct (N.eqb_spec j i) as [->|Hj]; cbn [andb owner word highestTotal]; try apply H2.
    intros E. lia.
  - intros j. rewrite Hslot.
    destruct (N.ltb_spec (highestTotal (slotOf s i)) c) as [Hlt|Hge];
      destruct (N.eqb_spec j i) as [->|Hj]; cbn [andb owner word highestTotal].
    + intros _. split; [exact Hword|]. rewrite Hcum.
      by rewrite !N.eqb_refl.
    + intros Hpos. destruct (H3 j Hpos) as (Hw & Ho). split; [exact Hw|].
      rewrite Hcum. destruct (N.eqb_spec j i); [contradiction|]. exact Ho.
    + intros Hpos. destruct (H3 i Hpos) as (Hw & Ho). split; [exact Hw|].
      rewrite Hcum, N.eqb_refl. cbn [andb owner word highestTotal].
      destruct (N.eqb_spec (owner (slotOf s i)) who) as [E|_]; [|exact Ho].
      rewrite E in Ho. unfold c in *. lia.
    + intros Hpos. destruct (H3 j Hpos) as (Hw & Ho). split; [exact Hw|].
      rewrite Hcum. destruct (N.eqb_spec j i); [contradiction|]. exact Ho.
  - intros p. rewrite Hts, H4.
    destruct (N.eqb_spec p who) as [->|Hp].
    + symmetry. apply (sumSlots_point _ _ i a Hi).
      * rewrite Hcum, !N.eqb_refl. reflexivity.
      * intros j Hj. rewrite Hcum. destruct (N.eqb_spec j i); [contradiction|].
        reflexivity.
    + rewrite H4. apply sumSlots_ext. intros j _. rewrite Hcum.
      destruct (N.eqb_spec p who); [contradiction|]. by rewrite andb_false_r.
  - intros j p Hj. rewrite Hcum.
    destruct (N.eqb_spec j i) as [->|_]; [lia|]. cbn [andb owner word highestTotal]. by apply H5.
  - intros r' j p Hr. unfold bidState. simpl. fold r.
    unfold upd3, upd2.
    rewrite !fn_lookup_insert_ne by lia. by apply H6.
  - unfold bidState, bidSlots. simpl. destruct (_ <? _); [|exact H7].
    by rewrite length_insert.
Qed.

Lemma BidsInv_frame s s' :
  slots s' = slots s -> cumulativeBids s' = cumulativeBids s ->
  totalSpent s' = totalSpent s -> id (currentRound s') = id (currentRound s) ->
  BidsInv s -> BidsInv s'.
Proof. unfold BidsInv, slotOf. intros -> -> -> ->. auto. Qed.

Lemma slotIn_replicate_empty n i : slotIn (replicate n emptySlot) i = emptySlot.
Proof.
  unfold slotIn. destruct (replicate n emptySlot !! N.to_nat i) eqn:E; [|reflexivity].
  apply lookup_replicate in E. destruct E as [-> _]. reflexivity.
Qed.

Lemma BidsInv_next s s' :
  slots s' = clearSlots (slots s) -> cumulativeBids s' = cumulativeBids s ->
  totalSpent s' = totalSpent s -> id (currentRound s') = id (currentRound s) + 1 ->
  BidsInv s -> BidsInv s'.
Proof.
  unfold BidsInv, slotOf. intros -> -> -> -> (_ & _ & _ & _ & _ & Hnext & Hlen).
  rewrite clearSlots_twelve by assumption.
  assert (Hzero : forall i p,
             cumulativeBids s (id (currentRound s) + 1) i p = 0
             /\ totalSpent s (id (currentRound s) + 1) p = 0).
  { intros i p. apply Hnext. lia. }
  split; [|split; [|split; [|split; [|split; [|split]]]]].
  - intros i p. destruct (Hzero i p) as [-> _]. lia.
  - intros i _. apply slotIn_replicate_empty.
  - intros i. rewrite slotIn_replicate_empty. simpl. lia.
  - intros p. destruct (Hzero 0 p) as [_ ->]. symmetry. apply sumSlots_zero.
    intros i. apply Hzero.
  - intros i p _. apply Hzero.
  - intros r' i p Hr. apply Hnext. lia.
  - apply length_replicate.
Qed.

Lemma step_preserves_BidsInv c s s' :
  step c s = Ok s' -> BidsInv s -> BidsInv s'.
Proof.
  intros H Hinv. destruct (op c) eqn:Hop;
    try (unfold step in H; rewrite Hop in H;
         by apply (bid_preserves_BidsInv _ _ _ _ _ _ _ H)).
  all: step_inv H; try discriminate Hop;
    try (unfold started; destruct (0 <? _));
    first [ apply (BidsInv_frame s);
            [reflexivity | reflexivity | reflexivity | reflexivity | assumption]
          | apply (BidsInv_next s);
            [reflexivity | reflexivity | reflexivity | reflexivity | assumption] ].
Qed.

Lemma constructor_BidsInv who _oracle _minBid _roundDuration _rakeBps _splitBps s :
  constructor who _oracle _minBid _roundDuration _rakeBps _splitBps = Ok s ->
  BidsInv s.
Proof.
  unfold constructor. intros H. inv_ok. unfold BidsInv, slotOf.
  cbn [slots cumulativeBids totalSpent currentRound id].
  split; [|split; [|split; [|split; [|split; [|split]]]]].
  - intros i p. lia.
  - intros i _. exact (slotIn_replicate_empty 12 i).
  - intros i. change (slotIn _ i) with (slotIn (replicate 12 emptySlot) i).
    rewrite slotIn_replicate_empty. simpl. lia.
  - intros p. symmetry. by apply sumSlots_zero.
  - reflexivity.
  - intros r' i p _. by split.
  - reflexivity.
Qed.

(** X10.  In every storage reached by a history [cs] from a deployment, and for
    the current round: nobody's cumulative total on a slot exceeds the
    slot's [highestTotal]; the owner of a taken slot has a cumulative total
    equal to it, so the owner is a highest cumulative bidder of the slot; a
    slot with [highestTotal] 0 is empty (no word, no owner); and what a
    participant has spent in the round is the sum of their cumulative
    totals over the twelve slots. *)
Theorem slot_owner_leads who _oracle _minBid _roundDuration _rakeBps _splitBps s0 cs :
  constructor who _oracle _minBid _roundDuration _rakeBps _splitBps = Ok s0 ->
  let s := execs cs s0 in
  let r := id (currentRound s) in
  (forall i p, cumulativeBids s r i p <= highestTotal (slotOf s i))
  /\ (forall i, 0 < highestTotal (slotOf s i) ->
        cumulativeBids s r i (owner (slotOf s i)) = highestTotal (slotOf s i))
  /\ (forall i, highestTotal (slotOf s i) = 0 -> slotOf s i = emptySlot)
  /\ (forall p, totalSpent s r p = sumSlots (fun i => cumulativeBids s r i p)).
Proof.
  intros H0 s r.
  assert (Hinv : BidsInv s).
  { apply (exec_invariant BidsInv step_preserves_BidsInv).
    exact (constructor_BidsInv _ _ _ _ _ _ _ H0). }
  subst r. clearbody s. destruct Hinv as (H1 & H2 & H3 & H4 & _).
  split; [exact H1|]. split; [intros i Hi; apply (H3 i Hi)|].
  split; [exact H2 | exact H4].
Qed.

(** Bob outbids Alice on slot 0: he owns it with his total of 5, and has
    spent 5 in the round. *)
Lemma slot_owner_leads_witness :
  let s := execs [Scenario.call 1000 Scenario.deployer (StartRound 100);
                  Scenario.call 1001 Scenario.alice (Bid 0 "a" 3);
                  Scenario.call 1002 Scenario.bob (Bid 0 "b" 5)]
             (Scenario.deploy 1 3600 0 5000) in
  cumulativeBids s (id (currentRound s)) 0 Scenario.alice
  <= highestTotal (slotOf s 0)
  /\ totalSpent s (id (currentRound s)) Scenario.bob
     = sumSlots (fun i => cumulativeBids s (id (currentRound s)) i Scenario.bob).
Proof.
  intros s.
  assert (H0 : constructor Scenario.deployer Scenario.oracle 1 3600 0 5000
               = Ok (Scenario.deploy 1 3600 0 5000)) by reflexivity.
  destruct (slot_owner_leads _ _ _ _ _ _ _
              [Scenario.call 1000 Scenario.deployer (StartRound 100);
               Scenario.call 1001 Scenario.alice (Bid 0 "a" 3);
               Scenario.call 1002 Scenario.bob (Bid 0 "b" 5)] H0)
    as (Hle & _ & _ & Hsum).
  split; [exact (Hle 0 Scenario.alice) | exact (Hsum Scenario.bob)].
Defined.

(** ** The buffer text *)

Lemma append_assoc (a b c : string) :
  String.append (String.append a b) c = String.append a (String.append b c).
Proof. induction a as [|x a IH]; simpl; [reflexivity | by rewrite IH]. Qed.

Lemma append_empty_r (a : string) : String.append a EmptyString = a.
Proof. induction a as [|x a IH]; simpl; [reflexivity | by rewrite IH]. Qed.

Lemma joinLoop_prefix ws : forall result first,
  joinLoop ws result first = String.append result (joinLoop ws EmptyString first).
Proof.
  induction ws as [|w ws IH]; intros result first; simpl.
  { by rewrite append_empty_r. }
  destruct (Nat.ltb 0 (String.length w)); [|apply IH].
  destruct first; simpl.
  - rewrite (IH (String.append result w)), (IH w). by rewrite append_assoc.
  - rewrite (IH (String.append (String.append result " ") w)),
      (IH (String " "%char w)).
    by rewrite !append_assoc.
Qed.

Lemma tokensFrom_word w : forall cur rest,
  _validateWord w = Ok tt ->
  tokensFrom cur (String.append w rest) = tokensFrom (String.append cur w) rest.
Proof.
  induction w as [|x w IH]; intros cur rest Hw; simpl in *.
  { by rewrite append_empty_r. }
  destruct (Ascii.eqb x " "); [discriminate|].
  rewrite IH by assumption. by rewrite append_assoc.
Qed.

Lemma joinLoop_cons w ws result first :
  joinLoop (w :: ws) result first
  = if Nat.ltb 0 (String.length w)
    then joinLoop ws
           (String.append (if first then result else String.append result " ") w)
           false
    else joinLoop ws result first.
Proof. reflexivity. Qed.

Lemma tokensFrom_space cur rest :
  tokensFrom cur (String " "%char rest)
  = (if Nat.ltb 0 (String.length cur) then [cur] else [])
    ++ tokensFrom EmptyString rest.
Proof. reflexivity. Qed.

Lemma validWord_length w : validWord w -> Nat.ltb 0 (String.length w) = true.
Proof. intros (Hne & _). destruct w; [contradiction | reflexivity]. Qed.

Lemma tokens_join_rest ws : forall cur,
  Forall (fun w => w = EmptyString \/ validWord w) ws ->
  tokensFrom cur (joinLoop ws EmptyString false)
  = (if Nat.ltb 0 (String.length cur) then [cur] else [])
    ++ List.filter (fun w => Nat.ltb 0 (String.length w)) ws.
Proof.
  induction ws as [|w ws IH]; intros cur Hws.
  { simpl. by rewrite app_nil_r. }
  inversion Hws as [|? ? Hw Hrest]; subst.
  rewrite joinLoop_cons. cbn [List.filter].
  destruct Hw as [->|Hw]; [by apply IH|].
  pose proof (validWord_length _ Hw) as Hlen. destruct Hw as (_ & _ & Hsp).
  rewrite Hlen, joinLoop_prefix.
  change (String.append (String.append EmptyString " ") w) with (String " "%char w).
  cbn [String.append].
  rewrite tokensFrom_space, tokensFrom_word by assumption.
  cbn [String.append]. rewrite IH, Hlen by assumption. reflexivity.
Qed.

Lemma tokens_join ws :
  Forall (fun w => w = EmptyString \/ validWord w) ws ->
  tokens (joinLoop ws EmptyString true)
  = List.filter (fun w => Nat.ltb 0 (String.length w)) ws.
Proof.
  unfold tokens. induction ws as [|w ws IH]; intros Hws; [reflexivity|].
  inversion Hws as [|? ? Hw Hrest]; subst.
  rewrite joinLoop_cons. cbn [List.filter].
  destruct Hw as [->|Hw]; [by apply IH|].
  pose proof (validWord_length _ Hw) as Hlen. destruct Hw as (_ & _ & Hsp).
  rewrite Hlen, joinLoop_prefix. cbn [String.append].
  rewrite tokensFrom_word by assumption.
  cbn [String.append]. rewrite tokens_join_rest, Hlen by assumption. reflexivity.
Qed.

(** X11.  In every storage reached by a history [cs] from a deployment, a slot
    holds either no word (exactly when its [highestTotal] is 0) or a word
    that [bid] accepted: not empty, at most 22 bytes, no space.  So the text
    of [getBufferAsText], split at its spaces, gives back exactly the
    non-empty words of [getBuffer] in slot order: no word is cut in two and
    no two words run together. *)
Theorem buffer_text_words who _oracle _minBid _roundDuration _rakeBps _splitBps s0 cs :
  constructor who _oracle _minBid _roundDuration _rakeBps _splitBps = Ok s0 ->
  let s := execs cs s0 in
  tokens (getBufferAsText s)
  = List.filter (fun w => Nat.ltb 0 (String.length w)) (getBuffer s)
  /\ (forall i, word (slotOf s i) = EmptyString <-> highestTotal (slotOf s i) = 0)
  /\ (forall i, 0 < highestTotal (slotOf s i) -> validWord (word (slotOf s i))).
Proof.
  intros H0 s.
  assert (Hinv : BidsInv s).
  { apply (exec_invariant BidsInv step_preserves_BidsInv).
    exact (constructor_BidsInv _ _ _ _ _ _ _ H0). }
  clearbody s. destruct Hinv as (_ & H2 & H3 & _).
  assert (Hword : forall i, word (slotOf s i) = EmptyString
                            \/ validWord (word (slotOf s i))).
  { intros i. destruct (N.eq_dec (highestTotal (slotOf s i)) 0) as [E|E].
    - left. by rewrite (H2 i E).
    - right. apply H3. lia. }
  split; [|split].
  - unfold getBufferAsText. apply tokens_join.
    unfold getBuffer. apply Forall_forall. intros w Hw.
    apply in_map_iff in Hw. destruct Hw as (i & <- & _). apply Hword.
  - intros i. split.
    + intros E. destruct (N.eq_dec (highestTotal (slotOf s i)) 0) as [|Hpos];
        [assumption|].
      destruct (H3 i) as ((Hne & _) & _); [lia|]. contradiction.
    + intros E. by rewrite (H2 i E).
  - intros i Hpos. apply (H3 i Hpos).
Qed.

(** Slots 0 and 3 hold words, the others are empty: the text is
    [hello world] and splits into the two words. *)
Lemma buffer_text_words_witness :
  let s := execs [Scenario.call 1000 Scenario.deployer (StartRound 100);
                  Scenario.call 1001 Scenario.alice (Bid 3 "world" 3);
                  Scenario.call 1002 Scenario.bob (Bid 0 "hello" 1)]
             (Scenario.deploy 1 3600 0 5000) in
  getBufferAsText s = "hello world"%string
  /\ tokens (getBufferAsText s)
     = List.filter (fun w => Nat.ltb 0 (String.length w)) (getBuffer s).
Proof.
  intros s.
  assert (H0 : constructor Scenario.deployer Scenario.oracle 1 3600 0 5000
               = Ok (Scenario.deploy 1 3600 0 5000)) by reflexivity.
  destruct (buffer_text_words _ _ _ _ _ _ _
              [Scenario.call 1000 Scenario.deployer (StartRound 100);
               Scenario.call 1001 Scenario.alice (Bid 3 "world" 3);
               Scenario.call 1002 Scenario.bob (Bid 0 "hello" 1)] H0) as (Ht & _).
  split; [vm_compute; reflexivity | exact Ht].
Defined.

(** ** The owner's emergency path on a solo round *)

(** X12.  On a round with fewer than two players, once the emergency timeout has
    passed, [emergencyResolve] called by the owner is [refundSoloRound]: the
    same rejection or the same storage, whatever the storage is.  Before the
    timeout has passed no [emergencyResolve] goes through. *)
Theorem emergency_solo_matches_refund env who s :
  (length (players s) < 2)%nat ->
  timestamp env <= MAX_UINT256 ->
  (endTime (currentRound s) + EMERGENCY_TIMEOUT <= timestamp env ->
   emergencyResolve env (_owner s) s = refundSoloRound env s)
  /\ (timestamp env < endTime (currentRound s) + EMERGENCY_TIMEOUT ->
      isOk (emergencyResolve env who s) = false).
Proof.
  unfold players. intros Hlen Hmax. split.
  - intros Hready. unfold emergencyResolve, refundSoloRound, onlyOwner.
    rewrite N.eqb_refl. cbn [negb revertIf bind].
    destruct (_validateResolution env s) as [[]|e]; cbn [bind]; [|reflexivity].
    rewrite uadd_in_range by lia. cbn [bind].
    destruct (N.ltb_spec (timestamp env)
                (endTime (currentRound s) + EMERGENCY_TIMEOUT)); [lia|].
    cbn [revertIf bind].
    destruct (Nat.ltb_spec (length (_roundPlayers s (id (currentRound s)))) 2); [|lia].
    destruct (Nat.leb_spec 2 (length (_roundPlayers s (id (currentRound s))))); [lia|].
    reflexivity.
  - intros Hearly. unfold emergencyResolve.
    destruct (onlyOwner who s) as [[]|e]; cbn [bind]; [|reflexivity].
    destruct (_validateResolution env s) as [[]|e]; cbn [bind]; [|reflexivity].
    unfold uadd.
    destruct (endTime (currentRound s) + EMERGENCY_TIMEOUT <=? MAX_UINT256);
      cbn [bind]; [|reflexivity].
    destruct (N.ltb_spec (timestamp env)
                (endTime (currentRound s) + EMERGENCY_TIMEOUT)); [reflexivity | lia].
Qed.

(** Alice alone played round 1, which ended at 4601.  A day later the
    owner's [emergencyResolve] does what [refundSoloRound] does. *)
Lemma emergency_solo_matches_refund_witness :
  emergencyResolve (Scenario.at_ 100000) (_owner Scenario.onePlayer) Scenario.onePlayer
  = refundSoloRound (Scenario.at_ 100000) Scenario.onePlayer.
Proof.
  assert (Hlen : (length (players Scenario.onePlayer) < 2)%nat)
    by (vm_compute; lia).
  assert (Hmax : timestamp (Scenario.at_ 100000) <= MAX_UINT256)
    by (apply N.leb_le; vm_compute; reflexivity).
  assert (Hready : endTime (currentRound Scenario.onePlayer) + EMERGENCY_TIMEOUT
                   <= timestamp (Scenario.at_ 100000))
    by (apply N.leb_le; vm_compute; reflexivity).
  exact (proj1 (emergency_solo_matches_refund (Scenario.at_ 100000) Scenario.deployer
                  Scenario.onePlayer Hlen Hmax) Hready).
Defined.

(** ** Deposits and claims *)

(** X13.  When [fund] and [receive] go through.  [fund] is accepted exactly when
    the contract is not paused, the round is pending or active (the flags of
    [getRoundInfo]), the token transfer goes through and the pool does not
    overflow; on an ended, unresolved round it rejects with RoundEnded when
    not paused.  [receive] looks neither at the pause flag nor at the clock:
    it is accepted whenever the counter it adds to does not overflow, which
    is the ETH pool of the round while the round exists and is unresolved,
    and [pendingEth] otherwise. *)
Theorem deposit_windows env who amount s :
  isOk (fund env who amount s)
  = negb (_paused s) && (isPending s || isActive env s)
    && usdcPullOk env who amount
    && (prizePool (currentRound s) + amount <=? MAX_UINT256)
  /\ (negb (_paused s) && (0 <? id (currentRound s))
      && negb (resolved (currentRound s)) && (0 <? startedAt (currentRound s))
      && (endTime (currentRound s) <=? timestamp env) = true ->
      fund env who amount s = Revert RoundEnded)
  /\ isOk (receive who amount s)
     = if (0 <? id (currentRound s)) && negb (resolved (currentRound s))
       then ethPrizePool (currentRound s) + amount <=? MAX_UINT256
       else pendingEth s + amount <=? MAX_UINT256.
Proof.
  unfold fund, receive, whenNotPaused, isPending, isActive, safeTransferFrom, uadd.
  cbn [currentRound log set_ledger].
  destruct (_paused s); cbn [negb revertIf bind andb].
  { split; [reflexivity|]. split; [discriminate|].
    destruct (_ && _); by destruct (_ <=? _). }
  destruct (N.eqb_spec (id (currentRound s)) 0), (N.ltb_spec 0 (id (currentRound s)));
    try lia; cbn [orb andb negb revertIf bind].
  { split; [reflexivity|]. split; [discriminate|]. by destruct (_ <=? _). }
  destruct (resolved (currentRound s)); cbn [orb andb negb revertIf bind].
  { split; [reflexivity|]. split; [discriminate|]. by destruct (_ <=? _). }
  destruct (N.eqb_spec (startedAt (currentRound s)) 0),
    (N.ltb_spec 0 (startedAt (currentRound s))); try lia;
    cbn [orb andb negb revertIf bind];
    destruct (N.ltb_spec (timestamp env) (endTime (currentRound s))),
      (N.leb_spec (endTime (currentRound s)) (timestamp env)); try lia;
    cbn [orb andb negb revertIf bind];
    (split; [|split; [first [discriminate | reflexivity]|]]);
    try (by destruct (_ <=? _));
    destruct (usdcPullOk env who amount); cbn [bind andb]; try reflexivity;
    by destruct (_ <=? _).
Qed.

(** Round 1 ended at 4601: at 5000 a [fund] is refused with RoundEnded while
    ETH sent to the contract still joins the round. *)
Lemma deposit_windows_witness :
  fund (Scenario.at_ 5000) Scenario.bob 7 Scenario.threeToOne = Revert RoundEnded
  /\ isOk (receive Scenario.bob 7 Scenario.threeToOne) = true.
Proof.
  destruct (deposit_windows (Scenario.at_ 5000) Scenario.bob 7 Scenario.threeToOne)
    as (_ & Hfund & Hrecv).
  split.
  - apply Hfund. vm_compute. reflexivity.
  - rewrite Hrecv. vm_compute. reflexivity.
Defined.

(** ** What a resolution by the oracle pays *)

Lemma usdcPayouts_ethPaid ws : forall us, ethPaid (usdcPayouts ws us) = 0.
Proof.
  induction ws as [|w ws IH]; intros [|u us]; simpl; try reflexivity.
  rewrite ethPaid_app, IH. by destruct (0 <? u).
Qed.

Lemma ethPayouts_paid env ws : forall es,
  length es = length ws ->
  ethPaid (ethPayouts env ws es) + ethParked env ws es = sumN es.
Proof.
  induction ws as [|w ws IH]; intros [|e es] He; simpl in *; try lia.
  - reflexivity.
  - rewrite ethPaid_app. specialize (IH es ltac:(lia)). unfold ethPayout.
    destruct (N.ltb_spec 0 e); destruct (ethAccepts env w e); unfold ethPaid in *;
      simpl in *; lia.
Qed.






(** ** Claiming parked ETH *)

(** X15.  [claimEth] by cases on the caller's parked balance: with nothing parked
    it rejects with NothingToClaim; if the caller's address refuses the send
    it rejects with the require message, so the balance stays parked;
    otherwise it sends exactly the parked balance, sets it to zero and
    touches nothing else, so that a second claim right after rejects with
    NothingToClaim. *)
Theorem claimEth_outcomes env who s :
  let a := unclaimedEth s who in
  (a = 0 -> claimEth env who s = Revert NothingToClaim)
  /\ (a <> 0 -> ethAccepts env who a = false ->
      claimEth env who s = Revert EthTransferFailed
      /\ exec (mkCall env who ClaimEth) s = s)
  /\ (a <> 0 -> ethAccepts env who a = true ->
      exists s',
        claimEth env who s = Ok s'
        /\ ledger s' = ledger s ++ [EthOut who a]
        /\ unclaimedEth s' who = 0
        /\ (forall p, p <> who -> unclaimedEth s' p = unclaimedEth s p)
        /\ currentRound s' = currentRound s /\ pendingEth s' = pendingEth s
        /\ forall env', claimEth env' who s' = Revert NothingToClaim).
Proof.
  intros a. subst a. unfold exec, step, claimEth. simpl.
  destruct (N.eqb_spec (unclaimedEth s who) 0) as [E|E]; cbn [revertIf bind].
  { split; [reflexivity|]. split; intros; contradiction. }
  split; [intros; contradiction|]. split.
  - intros _ ->. split; reflexivity.
  - intros _ ->. eexists. split; [reflexivity|]. simpl.
    split; [reflexivity|]. split; [apply fn_lookup_insert|].
    split; [intros p Hp; by apply fn_lookup_insert_ne|].
    split; [reflexivity|]. split; [reflexivity|].
    intros env'. rewrite fn_lookup_insert. reflexivity.
Qed.

(** Alice's 7 wei were parked when her address refused them; later she
    claims them from an address that accepts. *)
Lemma claimEth_outcomes_witness :
  let env := mkEnv 5000 (fun _ _ => true) (fun _ _ => true)
               (fun w _ => negb (w =? Scenario.alice)) in
  let s := execs [Scenario.call 1003 Scenario.charlie (Receive 10);
                  mkCall env Scenario.oracle
                    (ResolveRound [Scenario.alice; Scenario.bob] [100; 1] [7; 3])]
             Scenario.threeToOne in
  exists s',
    claimEth (Scenario.at_ 6000) Scenario.alice s = Ok s'
    /\ ledger s' = ledger s ++ [EthOut Scenario.alice 7]
    /\ unclaimedEth s' Scenario.alice = 0.
Proof.
  intros env s.
  assert (Ha : unclaimedEth s Scenario.alice = 7) by (vm_compute; reflexivity).
  assert (Hne : unclaimedEth s Scenario.alice <> 0) by (rewrite Ha; discriminate).
  assert (Hacc : ethAccepts (Scenario.at_ 6000) Scenario.alice
                   (unclaimedEth s Scenario.alice) = true) by reflexivity.
  destruct (claimEth_outcomes (Scenario.at_ 6000) Scenario.alice s) as (_ & _ & H).
  destruct (H Hne Hacc) as (s' & Hs & Hl & Hu & _).
  exists s'. rewrite Ha in Hl. split; [exact Hs|]. split; [exact Hl | exact Hu].
Defined.

(** ** The oracle bot against the gate of the contract *)


(** ** The arrays the oracle bot submits *)













Lemma sumZ_app xs ys : sumZ (xs ++ ys) = (sumZ xs + sumZ ys)%Z.
Proof. induction xs as [|x xs IH]; simpl; [reflexivity | rewrite IH; lia]. Qed.















(** ** ETH: what came in is sent, pooled, pending or parked *)

Lemma ethReceived_app l1 l2 :
  ethReceived (l1 ++ l2) = ethReceived l1 + ethReceived l2.
Proof. unfold ethReceived. by rewrite map_app, sumN_app. Qed.

Lemma usdcPayouts_ethReceived ws : forall us, ethReceived (usdcPayouts ws us) = 0.
Proof.
  induction ws as [|w ws IH]; intros [|u us]; simpl; try reflexivity.
  rewrite ethReceived_app, IH. by destruct (0 <? u).
Qed.

Lemma ethPayouts_ethReceived env ws : forall es, ethReceived (ethPayouts env ws es) = 0.
Proof.
  induction ws as [|w ws IH]; intros [|e es]; simpl; try reflexivity.
  rewrite ethReceived_app, IH. unfold ethPayout. by destruct (_ && _).
Qed.

Lemma bothPayouts_ethReceived env ws : forall us es,
  ethReceived (bothPayouts env ws us es) = 0.
Proof.
  induction ws as [|w ws IH]; intros [|u us] [|e es]; simpl; try reflexivity.
  rewrite !ethReceived_app, IH. unfold ethPayout.
  destruct (0 <? u); destruct (_ && _); reflexivity.
Qed.

Lemma soloRefund_eth s : ethPaid (soloRefund s) = 0 /\ ethReceived (soloRefund s) = 0.
Proof.
  unfold soloRefund. destruct (players s) as [|p [|q rest]]; try (split; reflexivity).
  destruct (0 <? _); split; reflexivity.
Qed.

Lemma parkOne_claimants env w a (u : address -> N) ps :
  List.NoDup ps -> (forall p, ~ In p ps -> u p = 0) ->
  exists ps',
    List.NoDup ps'
    /\ (forall p, ~ In p ps' -> parkOne env w a u p = 0)
    /\ sumN (map (parkOne env w a u) ps')
       = sumN (map u ps)
         + (if (0 <? a) && negb (ethAccepts env w a) then a else 0).
Proof.
  intros Hnd Hout. unfold parkOne.
  destruct ((0 <? a) && negb (ethAccepts env w a)).
  - destruct (in_dec N.eq_dec w ps) as [Hin|Hnin].
    + exists ps. split; [exact Hnd|]. split.
      * intros p Hp. rewrite fn_lookup_insert_ne by (intros ->; contradiction).
        by apply Hout.
      * pose proof (sumN_map_insert_in u w (u w + a) ps Hnd Hin). lia.
    + exists (w :: ps). split; [by apply NoDup_cons|]. split.
      * intros p Hp. rewrite fn_lookup_insert_ne by (intros ->; apply Hp; by left).
        apply Hout. intros Hin. apply Hp. by right.
      * simpl. rewrite fn_lookup_insert, sumN_map_insert_notin by assumption.
        rewrite (Hout w Hnin). lia.
  - exists ps. split; [exact Hnd|]. split; [exact Hout | lia].
Qed.

Lemma parked_claimants env ws : forall es (u : address -> N) ps,
  List.NoDup ps -> (forall p, ~ In p ps -> u p = 0) ->
  exists ps',
    List.NoDup ps'
    /\ (forall p, ~ In p ps' -> parked env ws es u p = 0)
    /\ sumN (map (parked env ws es u) ps') = sumN (map u ps) + ethParked env ws es.
Proof.
  induction ws as [|w ws IH]; intros [|e es] u ps Hnd Hout; simpl;
    try (exists ps; split; [exact Hnd|]; split; [exact Hout | lia]).
  destruct (parkOne_claimants env w e u ps Hnd Hout) as (ps1 & Hnd1 & Hout1 & Hsum1).
  destruct (IH es (parkOne env w e u) ps1 Hnd1 Hout1) as (ps2 & Hnd2 & Hout2 & Hsum2).
  exists ps2. split; [exact Hnd2|]. split; [exact Hout2|]. lia.
Qed.

Ltac eth_sums :=
  unfold log; simpl;
  rewrite ?ethReceived_app, ?ethPaid_app, ?usdcPayouts_ethReceived,
    ?ethPayouts_ethReceived, ?bothPayouts_ethReceived, ?usdcPayouts_ethPaid;
  repeat match goal with
         | |- context [soloRefund ?s] =>
             let H1 := fresh in let H2 := fresh in
             destruct (soloRefund_eth s) as [H1 H2]; rewrite ?H1, ?H2;
             clear H1 H2
         end;
  unfold ethReceived, ethPaid in *; simpl.

Lemma step_preserves_EthInv c s s' :
  step c s = Ok s' -> EthInv s -> EthInv s'.
Proof.
  unfold EthInv, claimants, parkedFor, ethLive.
  intros H ((ps & (Hnd & Hout) & Hbal) & Hzero).
  destruct (op c) eqn:Hop.
  5:{ (* resolveRound *)
      unfold step in H. rewrite Hop in H. apply resolveRound_Ok in H.
      destruct H as (_ & Hval & _ & _ & _ & Heth & H).
      apply _validateResolution_Ok in Hval. destruct Hval as (Hid & Hres & _).
      rewrite Hres in *. unfold resolvePaid in H.
      destruct (N.ltb_spec 0 (ethPrizePool (currentRound s))) as [Hpos|Hnone].
      - destruct (Heth Hpos) as (Hl2 & Hs2).
        destruct (parked_claimants (env c) winners ethAmounts (unclaimedEth s) ps Hnd Hout)
          as (ps' & Hnd' & Hout' & Hsum').
        pose proof (ethPayouts_paid (env c) winners ethAmounts Hl2) as Hpaid.
        advance_inv H; (split; [exists ps'; split; [split; assumption|]
                               | simpl; intros; lia]);
          eth_sums; unfold ethPaid in *; lia.
      - advance_inv H; (split; [exists ps; split; [split; assumption|]
                               | simpl; intros; lia]);
          eth_sums; lia. }
  7:{ (* claimEth *)
      unfold step in H. rewrite Hop in H. apply claimEth_Ok in H.
      destruct H as (Hne & _ & ->). simpl.
      assert (Hin : In (sender c) ps).
      { destruct (in_dec N.eq_dec (sender c) ps) as [|Hnin]; [assumption|].
        specialize (Hout _ Hnin). contradiction. }
      split; [|exact Hzero]. exists ps. split; [split; [exact Hnd|]|].
      - intros p Hp. rewrite fn_lookup_insert_ne by (intros E; subst p; contradiction).
        by apply Hout.
      - pose proof (sumN_map_insert_in (unclaimedEth s) (sender c) 0 ps Hnd Hin).
        eth_sums. lia. }
  6:{ (* emergencyResolve *)
      unfold step in H. rewrite Hop in H.
      destruct (Nat.lt_ge_cases (length (players s)) 2) as [Hsolo|Hmulti].
      - apply emergencyResolve_solo_Ok in H; [|assumption].
        destruct H as (_ & Hval & _ & _ & H).
        apply _validateResolution_Ok in Hval. destruct Hval as (Hid & Hres & _).
        rewrite Hres in *.
        advance_inv H; (split; [exists ps; split; [split; assumption|]
                               | simpl; intros; lia]);
          unfold soloCarried; eth_sums; lia.
      - apply emergencyResolve_Ok in H; [|assumption].
        destruct H as (_ & Hval & _ & _ & H).
        apply _validateResolution_Ok in Hval. destruct Hval as (Hid & Hres & _).
        rewrite Hres in *. unfold emergencyPaid in H.
        assert (Hsp : spends s <> []).
        { unfold spends. destruct (players s); simpl in *; [lia | discriminate]. }
        assert (Hlen : length (spends s) = length (players s))
          by (unfold spends; apply length_map).
        pose proof (emergencyAllocs_sum (ethPrizePool (currentRound s)) _ Hsp) as HsumE.
        pose proof (bothPayouts_ethPaid (env c) (players s)
                      (emergencyAllocs (sumN (spends s)) (distributableOf s) (spends s))
                      (emergencyAllocs (sumN (spends s)) (ethPrizePool (currentRound s))
                         (spends s))) as Hpaid.
        rewrite !length_emergencyAllocs, HsumE in Hpaid.
        specialize (Hpaid Hlen Hlen).
        destruct (parked_claimants (env c) (players s)
                    (emergencyAllocs (sumN (spends s)) (ethPrizePool (currentRound s))
                       (spends s)) (unclaimedEth s) ps Hnd Hout)
          as (ps' & Hnd' & Hout' & Hsum').
        advance_inv H; (split; [exists ps'; split; [split; assumption|]
                               | simpl; intros; lia]);
          eth_sums; unfold ethPaid in *; lia. }
  all: step_inv H; try discriminate Hop.
  all: try match goal with
           | Hv : _validateResolution _ _ = Ok _ |- _ =>
               apply _validateResolution_Ok in Hv; destruct Hv as (? & Hres & _);
               rewrite Hres in *
           end.
  all: try (progress unfold started; destruct (0 <? _)).
  all: unfold soloCarried, bidState, bidRound, clockStarted.
  all: try destruct (startedAt (currentRound s) =? 0).
  all: (split; [exists ps; split; [split; assumption|]; eth_sums; try lia
               | simpl; intros; try lia; try tauto]).
  all: repeat match goal with
              | Hr : resolved (currentRound _) = _ |- _ => rewrite Hr in *
              end; try lia.
  all: match goal with
       | Hd : id (currentRound ?st) = 0 \/ resolved (currentRound ?st) = true |- _ =>
           destruct Hd as [Hd|Hd]; [specialize (Hzero Hd) | rewrite Hd in *]; lia
       end.
Qed.

Lemma constructor_EthInv who _oracle _minBid _roundDuration _rakeBps _splitBps s0 :
  constructor who _oracle _minBid _roundDuration _rakeBps _splitBps = Ok s0 ->
  EthInv s0.
Proof.
  unfold constructor. intros H. inv_ok.
  unfold EthInv, claimants, parkedFor, ethLive, ethReceived, ethPaid. simpl.
  split; [|reflexivity]. exists []. split; [|reflexivity].
  split; [apply NoDup_nil; exact I | reflexivity].
Qed.




(** ** [rescueEth] *)

(** X19.  [rescueEth] protects [ethPrizePool + pendingEth] only.  In a storage
    reached by any history of the other calls, with the current round
    unresolved, let the contract hold what it received through [receive]
    plus [stray] wei that reached it some other way.  Then what the owner's
    [rescueEth] sends to the owner is [stray] plus all the ETH parked in
    [unclaimedEth]; with nothing stray and nothing parked it rejects with
    "Nothing to rescue".  The parked balances stay on the books. *)
Theorem rescueEth_takes_parked
    who _oracle _minBid _roundDuration _rakeBps _splitBps s0 cs :
  constructor who _oracle _minBid _roundDuration _rakeBps _splitBps = Ok s0 ->
  let s := execs cs s0 in
  resolved (currentRound s) = false ->
  ethPrizePool (currentRound s) + pendingEth s <= MAX_UINT256 ->
  exists ps,
    claimants s ps
    /\ heldEth s = pendingEth s + ethPrizePool (currentRound s) + parkedFor s ps
    /\ forall env stray,
         rescueEth env (_owner s) (heldEth s + stray) s
         = if parkedFor s ps + stray =? 0 then NothingToRescue
           else if ethAccepts env (_owner s) (parkedFor s ps + stray)
                then Rescued (log (EthOut (_owner s) (parkedFor s ps + stray)) s)
                else RescueReverted EthTransferFailed.
Proof.
  intros H0 s Hres Hmax.
  assert (Hinv : EthInv s).
  { apply (exec_invariant EthInv step_preserves_EthInv).
    exact (constructor_EthInv _ _ _ _ _ _ _ H0). }
  clearbody s. destruct Hinv as ((ps & Hc & Hbal) & _).
  unfold ethLive in Hbal. rewrite Hres in Hbal.
  assert (Hheld : heldEth s = pendingEth s + ethPrizePool (currentRound s)
                              + parkedFor s ps) by (unfold heldEth; lia).
  exists ps. split; [exact Hc|]. split; [exact Hheld|].
  intros env stray. unfold rescueEth, onlyOwner.
  rewrite N.eqb_refl. cbn [negb revertIf].
  rewrite uadd_in_range by assumption.
  rewrite usub_in_range by lia.
  replace (heldEth s + stray - (ethPrizePool (currentRound s) + pendingEth s))
    with (parkedFor s ps + stray) by lia.
  reflexivity.
Qed.

(** Alice's 7 wei are parked when round 1 is resolved.  Once round 2 is
    open, [rescueEth] sends exactly those 7 wei to the owner. *)
Lemma rescueEth_takes_parked_witness :
  let env := mkEnv 5000 (fun _ _ => true) (fun _ _ => true)
               (fun w _ => negb (w =? Scenario.alice)) in
  let s := execs [Scenario.call 1000 Scenario.deployer (StartRound 100);
                  Scenario.call 1001 Scenario.alice (Bid 0 "a" 3);
                  Scenario.call 1002 Scenario.bob (Bid 1 "b" 1);
                  Scenario.call 1003 Scenario.charlie (Receive 10);
                  mkCall env Scenario.oracle
                    (ResolveRound [Scenario.alice; Scenario.bob] [100; 1] [7; 3]);
                  Scenario.call 6000 Scenario.deployer (StartRound 100)]
             (Scenario.deploy 1 3600 0 5000) in
  unclaimedEth s Scenario.alice = 7
  /\ rescueEth (Scenario.at_ 7000) Scenario.deployer 7 s
     = Rescued (log (EthOut Scenario.deployer 7) s).
Proof.
  intros env s.
  assert (H0 : constructor Scenario.deployer Scenario.oracle 1 3600 0 5000
               = Ok (Scenario.deploy 1 3600 0 5000)) by reflexivity.
  assert (Hres : resolved (currentRound s) = false) by (vm_compute; reflexivity).
  assert (Hmax : ethPrizePool (currentRound s) + pendingEth s <= MAX_UINT256)
    by (apply N.leb_le; vm_compute; reflexivity).
  destruct (rescueEth_takes_parked _ _ _ _ _ _ _
              [Scenario.call 1000 Scenario.deployer (StartRound 100);
               Scenario.call 1001 Scenario.alice (Bid 0 "a" 3);
               Scenario.call 1002 Scenario.bob (Bid 1 "b" 1);
               Scenario.call 1003 Scenario.charlie (Receive 10);
               mkCall env Scenario.oracle
                 (ResolveRound [Scenario.alice; Scenario.bob] [100; 1] [7; 3]);
               Scenario.call 6000 Scenario.deployer (StartRound 100)] H0 Hres Hmax)
    as (ps & _ & Hheld & Hrescue).
  fold s in Hheld, Hrescue.
  assert (Hh : heldEth s = 7) by (vm_compute; reflexivity).
  assert (Hp : pendingEth s + ethPrizePool (currentRound s) = 0)
    by (vm_compute; reflexivity).
  assert (Hparked : parkedFor s ps = 7) by lia.
  assert (Ho : _owner s = Scenario.deployer) by (vm_compute; reflexivity).
  split; [vm_compute; reflexivity|].
  specialize (Hrescue (Scenario.at_ 7000) 0).
  rewrite Hh, Hparked, Ho in Hrescue. exact Hrescue.
Defined.

(** ** A refused USDC transfer *)

Lemma payUsdc_refused env ws : forall amounts s w a,
  length ws = length amounts ->
  In (w, a) (combine ws amounts) -> 0 < a -> usdcPushOk env w a = false ->
  payUsdc env ws amounts s = Revert SafeERC20FailedOperation.
Proof.
  induction ws as [|w0 ws IH]; intros [|a0 rest] s w a Hlen Hin Hpos Hno;
    simpl in *; try contradiction; try discriminate.
  destruct Hin as [[= -> ->]|Hin].
  - destruct (N.ltb_spec 0 a); [|lia]. unfold safeTransfer. by rewrite Hno.
  - destruct (0 <? a0); simpl.
    + unfold safeTransfer. destruct (usdcPushOk env w0 a0); [|reflexivity]. simpl.
      apply (IH rest _ w a); auto.
    + apply (IH rest _ w a); auto.
Qed.

(** X20.  USDC is never parked.  When [resolveRound] reaches its USDC transfers
    (the caller is the oracle, the round is ended and unresolved with at
    least two players, the arrays match the distributable pool) and one
    winner with a positive amount refuses the token transfer, the whole call
    rejects with the SafeERC20 error, whatever the other winners do: the
    storage is as before, nobody is paid and nothing is recorded as
    claimable. *)
Theorem resolveRound_usdc_refused env winners usdcAmounts ethAmounts s w a :
  _validateResolution env s = Ok tt ->
  (2 <= length (players s))%nat ->
  rakeBps s <= 10000 ->
  prizePool (currentRound s) <= MAX_UINT256 ->
  prizePool (currentRound s) * rakeBps s <= MAX_UINT256 ->
  accumulatedRake s + rakeOf s <= MAX_UINT256 ->
  length winners = length usdcAmounts ->
  sumN usdcAmounts = distributableOf s ->
  In (w, a) (combine winners usdcAmounts) -> 0 < a ->
  usdcPushOk env w a = false ->
  resolveRound env (oracleAddress s) winners usdcAmounts ethAmounts s
  = Revert SafeERC20FailedOperation
  /\ exec (mkCall env (oracleAddress s)
             (ResolveRound winners usdcAmounts ethAmounts)) s = s.
Proof.
  intros Hval Hpl Hrake Hpool Hmul Hacc Hlen Hsum Hin Hpos Hno.
  assert (Hle : rakeOf s <= prizePool (currentRound s)).
  { unfold rakeOf. apply N.Div0.div_le_upper_bound. nia. }
  assert (Hr : resolveRound env (oracleAddress s) winners usdcAmounts ethAmounts s
               = Revert SafeERC20FailedOperation).
  { unfold resolveRound, onlyOracle. rewrite N.eqb_refl, Hval. cbn [negb revertIf bind].
    unfold players in Hpl.
    destruct (Nat.ltb_spec (length (_roundPlayers s (id (currentRound s)))) 2); [lia|].
    cbn [revertIf bind].
    rewrite umul_in_range by assumption. cbn [bind].
    fold (rakeOf s). rewrite usub_in_range by assumption. cbn [bind].
    rewrite uadd_in_range by assumption. cbn [bind].
    rewrite Hlen, Nat.eqb_refl. cbn [negb revertIf bind].
    rewrite usum_in_range by (rewrite Hsum; unfold distributableOf; lia). cbn [bind].
    fold (distributableOf s). rewrite Hsum, N.eqb_refl. cbn [negb revertIf bind].
    by rewrite (payUsdc_refused env winners usdcAmounts _ w a Hlen Hin Hpos Hno). }
  split; [exact Hr|]. unfold exec, step. cbn [op]. simpl. by rewrite Hr.
Qed.

(** Round 1 holds 101.  The oracle gives Alice 100 and Bob 1, and the token
    refuses the transfer to Bob: the call is rejected and Alice is not paid
    either. *)
Lemma resolveRound_usdc_refused_witness :
  let env := mkEnv 5000 (fun _ _ => true) (fun w _ => negb (w =? Scenario.bob))
               (fun _ _ => true) in
  resolveRound env (oracleAddress Scenario.threeToOne)
    [Scenario.alice; Scenario.bob] [100; 1] [] Scenario.threeToOne
  = Revert SafeERC20FailedOperation.
Proof.
  intros env.
  assert (Hval : _validateResolution env Scenario.threeToOne = Ok tt)
    by (vm_compute; reflexivity).
  assert (Hpl : (2 <= length (players Scenario.threeToOne))%nat)
    by (vm_compute; lia).
  assert (Hrake : rakeBps Scenario.threeToOne <= 10000)
    by (apply N.leb_le; vm_compute; reflexivity).
  assert (Hpool : prizePool (currentRound Scenario.threeToOne) <= MAX_UINT256)
    by (apply N.leb_le; vm_compute; reflexivity).
  assert (Hmul : prizePool (currentRound Scenario.threeToOne)
                 * rakeBps Scenario.threeToOne <= MAX_UINT256)
    by (apply N.leb_le; vm_compute; reflexivity).
  assert (Hacc : accumulatedRake Scenario.threeToOne + rakeOf Scenario.threeToOne
                 <= MAX_UINT256)
    by (apply N.leb_le; vm_compute; reflexivity).
  assert (Hlen : length [Scenario.alice; Scenario.bob] = length [100; 1])
    by reflexivity.
  assert (Hsum : sumN [100; 1] = distributableOf Scenario.threeToOne)
    by (vm_compute; reflexivity).
  assert (Hin : In (Scenario.bob, 1)
                  (combine [Scenario.alice; Scenario.bob] [100; 1]))
    by (right; left; reflexivity).
  assert (Hpos : 0 < 1) by lia.
  assert (Hno : usdcPushOk env Scenario.bob 1 = false) by reflexivity.
  exact (proj1 (resolveRound_usdc_refused env [Scenario.alice; Scenario.bob] [100; 1]
                  [] Scenario.threeToOne Scenario.bob 1
                  Hval Hpl Hrake Hpool Hmul Hacc Hlen Hsum Hin Hpos Hno)).
Defined.

(** ** A solo round can always be refunded *)

Lemma step_preserves_Funded c s s' :
  step c s = Ok s' -> Funded s -> Funded s'.
Proof.
  intros H (Hb & Hf). split; [by apply (step_preserves_Books c s)|].
  assert (Hnone : _roundPlayers s (id (currentRound s) + 1) = []).
  { destruct Hb as (_ & _ & _ & Hnext). apply Hnext. lia. }
  destruct (op c) eqn:Hop.
  4:{ unfold step in H. rewrite Hop in H.
      pose proof (bid_split_le _ _ _ _ _ _ _ H) as Hle.
      pose proof (bid_conditions _ _ _ _ _ _ _ H) as (Hc & _).
      apply bidChecks_Ok in Hc. destruct Hc as (_ & Hres & _).
      destruct (bid_Books _ _ _ _ _ _ _ H Hb) as (_ & ->).
      apply bid_state in H. subst s'. intros _. specialize (Hf Hres).
      unfold bidState, bidRound, clockStarted. simpl.
      destruct (startedAt (currentRound s) =? 0); simpl; lia. }
  all: step_inv H; try discriminate Hop.
  all: try (progress unfold started; destruct (0 <? _)).
  all: unfold spends, players, advanced; simpl; rewrite ?Hnone; simpl.
  all: try (intros; lia).
  all: try discriminate.
  all: intros Hr; specialize (Hf Hr); unfold spends, players in Hf; lia.
Qed.

Lemma constructor_Funded who _oracle _minBid _roundDuration _rakeBps _splitBps s0 :
  constructor who _oracle _minBid _roundDuration _rakeBps _splitBps = Ok s0 ->
  Funded s0.
Proof.
  intros H. split; [exact (constructor_Books _ _ _ _ _ _ _ H)|].
  unfold constructor in H. inv_ok. unfold spends, players. simpl. lia.
Qed.

Lemma _autoAdvance_total env s :
  id (currentRound s) + 1 <= MAX_UINT256 ->
  exists s', _autoAdvance env s = Ok s'.
Proof.
  intros Hid. unfold _autoAdvance, _createRound.
  destruct (MIN_AUTO_START <=? nextPrizePool s); [|eauto].
  cbn [currentRound set_slots set_nextPrizePool].
  rewrite uadd_in_range by assumption. cbn [bind]. eauto.
Qed.

(** X21.  A solo round can always be closed.  In every storage reached by a
    history [cs] from a deployment, what the players of the unresolved round
    have spent is covered by its pool and the next-round pool, so the
    subtraction in [refundSoloRound] never underflows.  Hence on an ended,
    unresolved round with fewer than two players, if the token accepts the
    refund and the three additions stay below 2^256, [refundSoloRound]
    goes through for any caller: the only transfer of the call is the
    refund of the player's total spend, which the USDC held by the contract
    covers, and the round ends resolved or replaced by the next one. *)
Theorem refund_always_possible
    who _oracle _minBid _roundDuration _rakeBps _splitBps s0 cs env :
  constructor who _oracle _minBid _roundDuration _rakeBps _splitBps = Ok s0 ->
  let s := execs cs s0 in
  _validateResolution env s = Ok tt ->
  (length (players s) < 2)%nat ->
  (forall p, usdcPushOk env p (totalSpent s (id (currentRound s)) p) = true) ->
  nextPrizePool s + prizePool (currentRound s) <= MAX_UINT256 ->
  pendingEth s + ethPrizePool (currentRound s) <= MAX_UINT256 ->
  id (currentRound s) + 1 <= MAX_UINT256 ->
  soloSpent s <= nextPrizePool s + prizePool (currentRound s)
  /\ soloSpent s <= usdcReceived (ledger s) - usdcPaid (ledger s)
  /\ exists s',
       refundSoloRound env s = Ok s'
       /\ ledger s' = ledger s ++ soloRefund s
       /\ usdcPaid (soloRefund s) = soloSpent s
       /\ (resolved (currentRound s') = true
           \/ id (currentRound s') = id (currentRound s) + 1).
Proof.
  intros H0 s Hval Hlen Hpush Hpool Heth Hid.
  assert (Hfund : Funded s).
  { apply (exec_invariant Funded step_preserves_Funded).
    exact (constructor_Funded _ _ _ _ _ _ _ H0). }
  assert (Hsolv : Solvent s).
  { apply (exec_invariant Solvent step_preserves_Solvent).
    exact (constructor_Solvent _ _ _ _ _ _ _ H0). }
  clearbody s. clear H0.
  pose proof (_validateResolution_Ok _ _ _ Hval) as (_ & Hres & _).
  destruct Hfund as (_ & Hf). specialize (Hf Hres).
  destruct Hsolv as (Hbal & _). unfold liabilities in Hbal. rewrite Hres in Hbal.
  assert (Hspent : soloSpent s <= nextPrizePool s + prizePool (currentRound s)).
  { unfold soloSpent, spends in *. destruct (players s) as [|p [|q rest]]; simpl in *; lia. }
  split; [exact Hspent|]. split; [lia|].
  assert (Hcarry : soloCarry env (id (currentRound s)) (players s) s
                   = Ok (soloCarried s)).
  { unfold soloCarry, soloCarried, soloRefund, soloSpent in *.
    destruct (players s) as [|p [|q rest]]; simpl in *; try lia.
    - rewrite uadd_in_range by assumption. cbn [bind].
      cbn [pendingEth set_nextPrizePool currentRound].
      rewrite uadd_in_range by assumption. cbn [bind].
      by rewrite app_nil_r, N.sub_0_r.
    - rewrite uadd_in_range by assumption. cbn [bind].
      rewrite usub_in_range by assumption. cbn [bind].
      cbn [pendingEth set_nextPrizePool currentRound].
      rewrite uadd_in_range by assumption. cbn [bind].
      destruct (0 <? totalSpent s (id (currentRound s)) p).
      + unfold safeTransfer. rewrite Hpush. reflexivity.
      + by rewrite app_nil_r. }
  destruct (_autoAdvance_total env (markResolved (soloCarried s)) Hid) as (s' & Hs').
  assert (Hrefund : refundSoloRound env s = Ok s').
  { unfold refundSoloRound. rewrite Hval. cbn [bind]. unfold players in *.
    destruct (Nat.leb_spec 2 (length (_roundPlayers s (id (currentRound s))))); [lia|].
    cbn [revertIf bind]. rewrite Hcarry. cbn [bind]. exact Hs'. }
  exists s'. split; [exact Hrefund|].
  pose proof (_autoAdvance_frame _ _ _ Hs') as (Hl & _).
  split; [exact Hl|]. split; [apply soloRefund_paid|].
  apply _autoAdvance_Ok in Hs'. destruct Hs' as [[_ ->]|[_ ->]]; [left | right]; reflexivity.
Qed.

(** Alice alone bid 10 in round 1, which ended at 4601: anyone can have her
    refunded, and she gets her 10 back. *)
Lemma refund_always_possible_witness :
  let cs := [Scenario.call 1000 Scenario.deployer (StartRound 100);
             Scenario.call 1001 Scenario.alice (Bid 0 "a" 10)] in
  let s := execs cs (Scenario.deploy 1 3600 0 5000) in
  exists s',
    refundSoloRound (Scenario.at_ 5000) s = Ok s'
    /\ ledger s' = ledger s ++ [UsdcOut Scenario.alice 10].
Proof.
  intros cs s.
  assert (H0 : constructor Scenario.deployer Scenario.oracle 1 3600 0 5000
               = Ok (Scenario.deploy 1 3600 0 5000)) by reflexivity.
  assert (Hval : _validateResolution (Scenario.at_ 5000) s = Ok tt)
    by (vm_compute; reflexivity).
  assert (Hlen : (length (players s) < 2)%nat) by (vm_compute; lia).
  assert (Hpush : forall p,
             usdcPushOk (Scenario.at_ 5000) p (totalSpent s (id (currentRound s)) p)
             = true) by reflexivity.
  assert (Hpool : nextPrizePool s + prizePool (currentRound s) <= MAX_UINT256)
    by (apply N.leb_le; vm_compute; reflexivity).
  assert (Heth : pendingEth s + ethPrizePool (currentRound s) <= MAX_UINT256)
    by (apply N.leb_le; vm_compute; reflexivity).
  assert (Hid : id (currentRound s) + 1 <= MAX_UINT256)
    by (apply N.leb_le; vm_compute; reflexivity).
  destruct (refund_always_possible _ _ _ _ _ _ _ cs (Scenario.at_ 5000)
              H0 Hval Hlen Hpush Hpool Heth Hid)
    as (_ & _ & s' & Hs & Hl & _).
  exists s'. split; [exact Hs|].
  fold s in Hl. rewrite Hl. f_equal.
Defined.

(** ** A started round has a player *)




